(** * Tetris: board geometry, line clearing, bag randomizer and placement search

    A shallow embedding of [tetris_merged.cpp] (the [Board] class,
    [findBestMove], [Bag] and the parts of [Game] that decide rotation and the
    AI tick), with the properties of the specification stated and proved over
    it.

    Conventions.
    - C++ [int] values are [Z]; every quantity that occurs stays far below
      2^31, except where a loop does not terminate (see [dropLoop]).
    - [std::array<std::array<int,W>,H>] is a list of rows; reads go through
      [cell], writes through stdpp's list insert.  The source never reads or
      writes outside the arrays (each access is guarded), and the model keeps
      the guards.
    - [double] is IEEE-754 binary64 and [float] is binary32, both taken from
      the executable specification of the Standard Library ([SpecFloat]);
      nothing is assumed about them.
    - A loop that may not terminate is a fuel-indexed function returning
      [None] when the fuel runs out. *)

From Stdlib Require Import ZArith List Bool Lia SpecFloat.
From stdpp Require Import base list.

Open Scope Z_scope.

(** ** Constants *)

Definition BOARD_W : Z := 10.
Definition BOARD_H : Z := 20.
Definition INT_MIN : Z := -2147483648.

(** ** 4x4 masks and the piece catalog *)

(** [std::array<std::array<int,4>,4>] *)
Abbreviation Matrix4 := (list (list Z)) (only parsing).

(** [a[r][c]] for a two-level array. *)
Definition cell (a : list (list Z)) (r c : Z) : Z :=
  nth (Z.to_nat c) (nth (Z.to_nat r) a []) 0.

Definition idx4 : list Z := [0; 1; 2; 3].

(** [rotate90]: [r[i][j] = m[3 - j][i]]. *)
Definition rotate90 (m : Matrix4) : Matrix4 :=
  map (fun i => map (fun j => cell m (3 - j) i) idx4) idx4.

Record Tetromino := mkTetromino {
  states : list Matrix4;
  colorId : Z
}.

(** [states.push_back(rotate90(states.back()))] *)
Definition pushRotated (st : list Matrix4) : list Matrix4 :=
  st ++ [rotate90 (List.last st [])].

(** The loop [for i in 0..3: if i == 0 push(m0) else push(rotate90(back))]. *)
Definition fourStates (m0 : Matrix4) : list Matrix4 :=
  pushRotated (pushRotated (pushRotated [m0])).

Definition I0 : Matrix4 := [[0;0;0;0]; [1;1;1;1]; [0;0;0;0]; [0;0;0;0]].
Definition J0 : Matrix4 := [[1;0;0;0]; [1;1;1;0]; [0;0;0;0]; [0;0;0;0]].
Definition L0 : Matrix4 := [[0;0;1;0]; [1;1;1;0]; [0;0;0;0]; [0;0;0;0]].
Definition O0 : Matrix4 := [[0;1;1;0]; [0;1;1;0]; [0;0;0;0]; [0;0;0;0]].
Definition S0 : Matrix4 := [[0;1;1;0]; [1;1;0;0]; [0;0;0;0]; [0;0;0;0]].
Definition T0m : Matrix4 := [[0;1;0;0]; [1;1;1;0]; [0;0;0;0]; [0;0;0;0]].
Definition Z0m : Matrix4 := [[1;1;0;0]; [0;1;1;0]; [0;0;0;0]; [0;0;0;0]].

Definition makeTetrominoes : list Tetromino :=
  [ mkTetromino [I0; rotate90 I0] 1;
    mkTetromino (fourStates J0) 4;
    mkTetromino (fourStates L0) 5;
    mkTetromino [O0] 2;
    mkTetromino [S0; rotate90 S0] 6;
    mkTetromino (fourStates T0m) 3;
    mkTetromino [Z0m; rotate90 Z0m] 7 ].

(** The flat catalog of the manual mode, in its own order I, O, T, J, L, S, Z. *)
Definition TETROMINO_CLASSIC : list (list Z) :=
  [ [0;0;0;0; 1;1;1;1; 0;0;0;0; 0;0;0;0];
    [0;1;1;0; 0;1;1;0; 0;0;0;0; 0;0;0;0];
    [0;1;0;0; 1;1;1;0; 0;0;0;0; 0;0;0;0];
    [1;0;0;0; 1;1;1;0; 0;0;0;0; 0;0;0;0];
    [0;0;1;0; 1;1;1;0; 0;0;0;0; 0;0;0;0];
    [0;1;1;0; 1;1;0;0; 0;0;0;0; 0;0;0;0];
    [1;1;0;0; 0;1;1;0; 0;0;0;0; 0;0;0;0] ].

(** The index computed by the [switch] of [pieceCell]; C's [%] truncates, so
    a negative rotation matches no case and leaves [idx = 0]. *)
Definition pieceIdx (rotation i j : Z) : Z :=
  let k := Z.rem rotation 4 in
  if k =? 0 then i * 4 + j
  else if k =? 1 then (3 - j) * 4 + i
  else if k =? 2 then (3 - i) * 4 + (3 - j)
  else if k =? 3 then j * 4 + (3 - i)
  else 0.

(** [pieceCell] over an arbitrary flat 16-cell mask. *)
Definition flatCell (flat : list Z) (rotation i j : Z) : Z :=
  nth (Z.to_nat (pieceIdx rotation i j)) flat 0.

Definition pieceCell (type rotation i j : Z) : Z :=
  flatCell (nth (Z.to_nat type) TETROMINO_CLASSIC []) rotation i j.

(** Row-major flattening of a 4x4 mask: [flat[4*r + c] = m[r][c]]. *)
Definition flatten4 (m : Matrix4) : list Z :=
  flat_map (fun r => map (fun c => cell m r c) idx4) idx4.

(** ** Board *)

(** [std::array<std::array<int,BOARD_W>,BOARD_H> cells] *)
Abbreviation Board := (list (list Z)) (only parsing).

Definition emptyRow : list Z := replicate (Z.to_nat BOARD_W) 0.
Definition emptyBoard : Board := replicate (Z.to_nat BOARD_H) emptyRow.

(** The shape of [std::array<std::array<int,BOARD_W>,BOARD_H>]. *)
Definition wfBoard (b : Board) : Prop :=
  length b = Z.to_nat BOARD_H /\ Forall (fun row => length row = Z.to_nat BOARD_W) b.

Definition inBounds (r c : Z) : bool :=
  (r >=? 0) && (r <? BOARD_H) && (c >=? 0) && (c <? BOARD_W).

(** The body of the inner loop of [collides] for an occupied mask cell:
    [true] stands for [return true]. *)
Definition cellCollides (b : Board) (topR leftC i j : Z) : bool :=
  let r := topR + i in
  let c := leftC + j in
  if (c <? 0) || (c >=? BOARD_W) || (r >=? BOARD_H) then true
  else if (r >=? 0) && negb (cell b r c =? 0) then true
  else false.

(** [collides]: the two loops stop at the first [return true]; [existsb]
    visits the cells in the same order and stops in the same place. *)
Definition collides (b : Board) (shape : Matrix4) (topR leftC : Z) : bool :=
  existsb (fun i =>
    existsb (fun j =>
      if cell shape i j =? 0 then false else cellCollides b topR leftC i j)
      idx4) idx4.

(** [cells[r][c] = v] *)
Definition setCell (b : Board) (r c v : Z) : Board :=
  <[Z.to_nat r := <[Z.to_nat c := v]> (nth (Z.to_nat r) b [])]> b.

Definition placePiece (b : Board) (shape : Matrix4) (topR leftC color : Z) : Board :=
  fold_left (fun b1 i =>
    fold_left (fun b2 j =>
      if cell shape i j =? 0 then b2
      else if inBounds (topR + i) (leftC + j)
           then setCell b2 (topR + i) (leftC + j) color
           else b2) idx4 b1) idx4 b.

(** The test of the inner loop of [clearLines]: no cell of the row is 0. *)
Definition rowFull (row : list Z) : bool :=
  forallb (fun c => negb (nth c row 0 =? 0)) (seq 0 (Z.to_nat BOARD_W)).

(** [for (rr = r; rr > 0; --rr) cells[rr] = cells[rr-1];] *)
Fixpoint shiftDown (rr : nat) (cells : Board) : Board :=
  match rr with
  | O => cells
  | S p => shiftDown p (<[S p := nth p cells []]> cells)
  end.

(** The shift followed by [cells[0].fill(0)]. *)
Definition removeRow (r : nat) (cells : Board) : Board :=
  <[O := emptyRow]> (shiftDown r cells).

(** The outer loop of [clearLines], one iteration per unit of fuel.  After a
    full row the source does [r++] and the loop header [--r], so the same
    index is examined again. *)
Fixpoint clearLoop (fuel : nat) (r : Z) (cells : Board) (cleared : Z)
  : option (Z * Board) :=
  match fuel with
  | O => None
  | S f =>
      if r >=? 0 then
        if rowFull (nth (Z.to_nat r) cells []) then
          clearLoop f (r + 1 - 1) (removeRow (Z.to_nat r) cells) (cleared + 1)
        else clearLoop f (r - 1) cells cleared
      else Some (cleared, cells)
  end.

(** Every iteration either moves up or removes a full row, so twice the
    height (plus the final test) bounds the number of iterations; see
    [clearLines_total]. *)
Definition clearFuel : nat := Z.to_nat (2 * BOARD_H + 1).

Definition clearLines (cells : Board) : option (Z * Board) :=
  clearLoop clearFuel (BOARD_H - 1) cells 0.

(** The [while] loop of [dropPosition]: [Some topR] is the value of [topR]
    when the loop exits. *)
Fixpoint dropLoop (fuel : nat) (b : Board) (shape : Matrix4) (leftC topR : Z)
  : option Z :=
  match fuel with
  | O => None
  | S f =>
      if collides b shape (topR + 1) leftC then Some topR
      else dropLoop f b shape leftC (topR + 1)
  end.

(** [dropPosition] with a bound on the iterations of its loop; [None] when
    the loop is still running after [fuel] tests. *)
Definition dropPosition (fuel : nat) (b : Board) (shape : Matrix4) (leftC : Z)
  : option Z :=
  match dropLoop fuel b shape leftC (-4) with
  | None => None
  | Some topR => if collides b shape topR leftC then Some INT_MIN else Some topR
  end.

(** Enough fuel for any mask with an occupied cell ([dropPosition_total]). *)
Definition dropFuel : nat := Z.to_nat (BOARD_H + 5).

(** The loop of [columnHeight]: scan the rows from the top and stop at the
    first occupied cell. *)
Fixpoint columnScan (rows : list Z) (b : Board) (c : Z) : Z :=
  match rows with
  | [] => 0
  | r :: rest => if cell b r c =? 0 then columnScan rest b c else BOARD_H - r
  end.

Definition rowIdx : list Z := map Z.of_nat (seq 0 (Z.to_nat BOARD_H)).
Definition colIdx : list Z := map Z.of_nat (seq 0 (Z.to_nat BOARD_W)).

Definition columnHeight (b : Board) (c : Z) : Z := columnScan rowIdx b c.

Definition aggregateHeight (b : Board) : Z :=
  fold_left (fun s c => s + columnHeight b c) colIdx 0.

Definition bumpiness (b : Board) : Z :=
  fold_left (fun s c => s + Z.abs (columnHeight b c - columnHeight b (c + 1)))
    (map Z.of_nat (seq 0 (Z.to_nat (BOARD_W - 1)))) 0.

(** [holes]: per column, count the empty cells below the first block. *)
Definition holesInColumn (b : Board) (c : Z) : Z :=
  snd (fold_left (fun '(blockFound, h) r =>
         if negb (cell b r c =? 0) then (true, h)
         else if blockFound then (blockFound, h + 1) else (blockFound, h))
       rowIdx (false, 0)).

Definition holes (b : Board) : Z :=
  fold_left (fun h c => h + holesInColumn b c) colIdx 0.

(** ** IEEE-754 arithmetic

    [double] (binary64) and [float] (binary32), with round-to-nearest-even
    operations, as instances of the Standard Library's [SpecFloat].  A decimal
    literal of the source is the correctly rounded quotient of two integers
    that the format holds exactly. *)

Module Double.
Definition prec : Z := 53.
Definition emax : Z := 1024.
Definition add : spec_float -> spec_float -> spec_float := SFadd prec emax.
Definition mul : spec_float -> spec_float -> spec_float := SFmul prec emax.
Definition div : spec_float -> spec_float -> spec_float := SFdiv prec emax.
(** [(double) n] *)
Definition of_int (n : Z) : spec_float := binary_normalize prec emax n 0 false.
(** The literal [m * 10^-k]. *)
Definition lit (m : Z) (k : Z) : spec_float := div (of_int m) (of_int (10 ^ k)).
End Double.

Module Float32.
Definition prec : Z := 24.
Definition emax : Z := 128.
Definition add : spec_float -> spec_float -> spec_float := SFadd prec emax.
Definition div : spec_float -> spec_float -> spec_float := SFdiv prec emax.
Definition of_int (n : Z) : spec_float := binary_normalize prec emax n 0 false.
Definition lit (m : Z) (k : Z) : spec_float := div (of_int m) (of_int (10 ^ k)).
End Float32.

(** ** AI decision *)

Definition W_LINES : spec_float := Double.lit 760666 6.
Definition W_HOLE : spec_float := Double.lit (-35663) 5.
Definition W_HEIGHT : spec_float := Double.lit (-510066) 6.
Definition W_BUMPY : spec_float := Double.lit (-184483) 6.

(** [-1e9], the score of the initial [best]; [-1e8], the threshold of
    [updateAI]. *)
Definition SENTINEL_SCORE : spec_float := Double.of_int (-1000000000).
Definition NO_MOVE_THRESHOLD : spec_float := Double.of_int (-100000000).

(** A monadic left fold: the loop stops with [None] as soon as one iteration
    has no result. *)
Fixpoint foldOpt {A B : Type} (f : A -> B -> option A) (l : list B) (a : A)
  : option A :=
  match l with
  | [] => Some a
  | v :: rest =>
      match f a v with
      | Some a' => foldOpt f rest a'
      | None => None
      end
  end.

Module Search.

Record MoveDecision := mkMove {
  rotationIndex : Z;
  leftC : Z;
  score : spec_float;
  lines : Z
}.

(** [MoveDecision best{0,0,-1e9,0}] *)
Definition sentinel : MoveDecision := mkMove 0 0 SENTINEL_SCORE 0.

(** The statements [score = 0.0; score += W_LINES * lines; ...]. *)
Definition heuristic (nlines nholes height bumps : Z) : spec_float :=
  let s := S754_zero false in
  let s := Double.add s (Double.mul W_LINES (Double.of_int nlines)) in
  let s := Double.add s (Double.mul W_HOLE (Double.of_int nholes)) in
  let s := Double.add s (Double.mul W_HEIGHT (Double.of_int height)) in
  Double.add s (Double.mul W_BUMPY (Double.of_int bumps)).

(** The offsets [left = -4; left <= BOARD_W; ++left]. *)
Definition offsets : list Z :=
  map (fun k => Z.of_nat k - 4) (seq 0 (Z.to_nat (BOARD_W + 5))).

(** The body of the inner loop up to the comparison: [Some None] is the
    [continue] of an offset with no resting row, [Some (Some c)] the scored
    candidate, and [None] a computation without result. *)
Definition candidateAt (fuel : nat) (board : Board) (piece : Tetromino)
    (rIdx : Z) (shape : Matrix4) (left : Z) : option (option MoveDecision) :=
  match dropPosition fuel board shape left with
  | None => None
  | Some top =>
      if top =? INT_MIN then Some None
      else
        let b2 := placePiece board shape top left (colorId piece) in
        match clearLines b2 with
        | None => None
        | Some (nlines, b3) =>
            Some (Some (mkMove rIdx left
              (heuristic nlines (holes b3) (aggregateHeight b3) (bumpiness b3))
              nlines))
        end
  end.

(** [if (score > best.score) best = {rIdx, left, score, lines};] *)
Definition update (best c : MoveDecision) : MoveDecision :=
  if SFltb (score best) (score c) then c else best.

Definition offsetLoop (fuel : nat) (board : Board) (piece : Tetromino)
    (best : MoveDecision) (st : Z * Matrix4) : option MoveDecision :=
  foldOpt (fun bst left =>
    match candidateAt fuel board piece (fst st) (snd st) left with
    | None => None
    | Some None => Some bst
    | Some (Some c) => Some (update bst c)
    end) offsets best.

(** The rotation states of a piece with their indices. *)
Definition indexed (sts : list Matrix4) : list (Z * Matrix4) :=
  imap (fun k m => (Z.of_nat k, m)) sts.

(** [findBestMove]; [tetrominoes[pieceType]] has no value outside the
    vector. *)
Definition findBestMove (fuel : nat) (board : Board) (tetrominoes : list Tetromino)
    (pieceType : Z) : option MoveDecision :=
  if pieceType <? 0 then None else
  match tetrominoes !! Z.to_nat pieceType with
  | None => None
  | Some piece =>
      foldOpt (offsetLoop fuel board piece) (indexed (states piece)) sentinel
  end.

End Search.

(** ** Bag randomizer

    [std::shuffle] and the generator are the library's: the generator state
    is a parameter and [shuffle] returns the reordered vector with the next
    generator state. *)

Module Randomizer.
Section Defs.
Context {Rng : Type}.
Variable shuffle : Rng -> list Z -> list Z * Rng.

Record Bag := mkBag {
  bag : list Z;
  rng : Rng
}.

Definition allTypes : list Z := [0; 1; 2; 3; 4; 5; 6].

Definition refill (s : Bag) : Bag :=
  let '(l, g) := shuffle (rng s) allTypes in mkBag l g.

(** [Bag()]: the generator is seeded from the clock, then [refill()]. *)
Definition newBag (seed : Rng) : Bag := refill (mkBag [] seed).

(** [next]: [back()] then [pop_back()], after a refill when empty. *)
Definition next (s : Bag) : Z * Bag :=
  let s1 := match bag s with [] => refill s | _ => s end in
  (List.last (bag s1) 0, mkBag (removelast (bag s1)) (rng s1)).

(** A state in which the next draw starts a fresh bag: the queue is empty
    (so [next] refills first), or the bag has just been constructed. *)
Definition atRefill (s : Bag) : Prop :=
  bag s = [] \/ exists seed, s = newBag seed.

(** [n] successive calls of [next], oldest first. *)
Fixpoint draws (n : nat) (s : Bag) : list Z * Bag :=
  match n with
  | O => ([], s)
  | S k =>
      let '(t, s1) := next s in
      let '(l, s2) := draws k s1 in
      (t :: l, s2)
  end.
End Defs.
End Randomizer.
Arguments Randomizer.Bag : clear implicits.

(** ** Game: active piece, spawn, rotation attempts and the AI tick *)

Module Sim.
Section Defs.
Context {Rng : Type}.
Variable shuffle : Rng -> list Z -> list Z * Rng.

Inductive GameMode := MANUAL | AI.

Record Piece := mkPiece {
  type : Z;
  x : Z;
  y : Z;
  rotation : Z
}.

Record Game := mkGame {
  board : Board;
  cur : Piece;
  bag : Randomizer.Bag Rng;
  score : Z;
  lines : Z;
  level : Z;
  gameOver : bool;
  paused : bool;
  tetrominoes : list Tetromino;
  mode : GameMode;
  gravityTimer : spec_float;
  gravityDelay : spec_float;
  inputDelay : spec_float;
  inputTimer : spec_float;
  leftHeld : bool;
  rightHeld : bool;
  downHeld : bool;
  aiTimer : spec_float;
  aiCooldown : spec_float
}.

(** Assignments to single members. *)
Definition setBoard (g : Game) (v : Board) : Game :=
  mkGame v (cur g) (bag g) (score g) (lines g) (level g) (gameOver g) (paused g)
    (tetrominoes g) (mode g) (gravityTimer g) (gravityDelay g) (inputDelay g)
    (inputTimer g) (leftHeld g) (rightHeld g) (downHeld g) (aiTimer g) (aiCooldown g).
Definition setCur (g : Game) (v : Piece) : Game :=
  mkGame (board g) v (bag g) (score g) (lines g) (level g) (gameOver g) (paused g)
    (tetrominoes g) (mode g) (gravityTimer g) (gravityDelay g) (inputDelay g)
    (inputTimer g) (leftHeld g) (rightHeld g) (downHeld g) (aiTimer g) (aiCooldown g).
Definition setBag (g : Game) (v : Randomizer.Bag Rng) : Game :=
  mkGame (board g) (cur g) v (score g) (lines g) (level g) (gameOver g) (paused g)
    (tetrominoes g) (mode g) (gravityTimer g) (gravityDelay g) (inputDelay g)
    (inputTimer g) (leftHeld g) (rightHeld g) (downHeld g) (aiTimer g) (aiCooldown g).
Definition setCounters (g : Game) (sc ln lv : Z) : Game :=
  mkGame (board g) (cur g) (bag g) sc ln lv (gameOver g) (paused g)
    (tetrominoes g) (mode g) (gravityTimer g) (gravityDelay g) (inputDelay g)
    (inputTimer g) (leftHeld g) (rightHeld g) (downHeld g) (aiTimer g) (aiCooldown g).
Definition setGameOver (g : Game) (v : bool) : Game :=
  mkGame (board g) (cur g) (bag g) (score g) (lines g) (level g) v (paused g)
    (tetrominoes g) (mode g) (gravityTimer g) (gravityDelay g) (inputDelay g)
    (inputTimer g) (leftHeld g) (rightHeld g) (downHeld g) (aiTimer g) (aiCooldown g).
Definition setPaused (g : Game) (v : bool) : Game :=
  mkGame (board g) (cur g) (bag g) (score g) (lines g) (level g) (gameOver g) v
    (tetrominoes g) (mode g) (gravityTimer g) (gravityDelay g) (inputDelay g)
    (inputTimer g) (leftHeld g) (rightHeld g) (downHeld g) (aiTimer g) (aiCooldown g).
Definition setAiTimer (g : Game) (v : spec_float) : Game :=
  mkGame (board g) (cur g) (bag g) (score g) (lines g) (level g) (gameOver g) (paused g)
    (tetrominoes g) (mode g) (gravityTimer g) (gravityDelay g) (inputDelay g)
    (inputTimer g) (leftHeld g) (rightHeld g) (downHeld g) v (aiCooldown g).

(** [collidesPiece]: the test of [Board::collides] over [pieceCell]. *)
Definition collidesPiece (b : Board) (px py ty rot : Z) : bool :=
  existsb (fun i =>
    existsb (fun j =>
      if pieceCell ty rot i j =? 0 then false
      else
        let bx := px + j in
        let by_ := py + i in
        if (bx <? 0) || (bx >=? BOARD_W) || (by_ >=? BOARD_H) then true
        else if (by_ >=? 0) && negb (cell b by_ bx =? 0) then true
        else false) idx4) idx4.

Definition spawnPiece (g : Game) : Game :=
  let '(t, bg) := Randomizer.next shuffle (bag g) in
  let p := mkPiece t (Z.quot BOARD_W 2 - 2) 0 0 in
  let g1 := setCur (setBag g bg) p in
  if collidesPiece (board g1) (x p) (y p) (type p) (rotation p)
  then setGameOver g1 true else g1.

(** [Game(GameMode gm)] with the default member initializers. *)
Definition newGame (gm : GameMode) (seed : Rng) : Game :=
  spawnPiece
    (mkGame emptyBoard (mkPiece 0 0 0 0) (Randomizer.newBag shuffle seed)
       0 0 1 false false makeTetrominoes gm
       (S754_zero false) (Float32.lit 8 1) (Float32.lit 8 2) (S754_zero false)
       false false false
       (S754_zero false) (Float32.lit 108 2)).

(** One rotation attempt of [updateManual]:
    [newRot = (cur.rotation + delta) % 4], in place, then one column to the
    left, then one column to the right. *)
Definition rotateAttempt (delta : Z) (g : Game) : Game :=
  let c := cur g in
  let newRot := Z.rem (rotation c + delta) 4 in
  if negb (collidesPiece (board g) (x c) (y c) (type c) newRot) then
    setCur g (mkPiece (type c) (x c) (y c) newRot)
  else if negb (collidesPiece (board g) (x c - 1) (y c) (type c) newRot) then
    setCur g (mkPiece (type c) (x c - 1) (y c) newRot)
  else if negb (collidesPiece (board g) (x c + 1) (y c) (type c) newRot) then
    setCur g (mkPiece (type c) (x c + 1) (y c) newRot)
  else g.


(** The scoring of a placement in [updateAI]. *)
Definition scoreCleared (g : Game) (cleared : Z) : Game :=
  if cleared >? 0 then
    let ln := lines g + cleared in
    setCounters g (score g + 100 * Z.shiftl 1 (cleared - 1)) ln (1 + Z.quot ln 10)
  else g.

(** [updateAI(dt)]; [None] when the search or the drop has no result. *)
Definition updateAI (fuel : nat) (g : Game) (dt : spec_float) : option Game :=
  if gameOver g then Some g
  else
    let g1 := setAiTimer g (Float32.add (aiTimer g) dt) in
    if SFleb (aiCooldown g1) (aiTimer g1) then
      let g2 := setAiTimer g1 (S754_zero false) in
      match Search.findBestMove fuel (board g2) (tetrominoes g2) (type (cur g2)) with
      | None => None
      | Some move =>
          if SFltb (Search.score move) NO_MOVE_THRESHOLD then
            Some (setGameOver g2 true)
          else
            match tetrominoes g2 !! Z.to_nat (type (cur g2)) with
            | None => None
            | Some piece =>
                match states piece !! Z.to_nat (Search.rotationIndex move) with
                | None => None
                | Some shape =>
                    match dropPosition fuel (board g2) shape (Search.leftC move) with
                    | None => None
                    | Some top =>
                        if top =? INT_MIN then Some (setGameOver g2 true)
                        else
                          match clearLines (placePiece (board g2) shape top
                                              (Search.leftC move) (colorId piece)) with
                          | None => None
                          | Some (cleared, b') =>
                              Some (spawnPiece (scoreCleared (setBoard g2 b') cleared))
                          end
                    end
                end
            end
      end
    else Some g1.

(** The pause key in the main loop:
    [if (IsKeyPressed(KEY_P) && game->mode == MANUAL) paused = !paused]. *)
Definition pauseKey (pressed : bool) (g : Game) : Game :=
  if pressed && (match mode g with MANUAL => true | AI => false end)
  then setPaused g (negb (paused g)) else g.

(** One frame of the main loop for a game in AI mode. *)
Definition frameAI (fuel : nat) (pPressed : bool) (dt : spec_float) (g : Game)
  : option Game :=
  updateAI fuel (pauseKey pPressed g) dt.
End Defs.
End Sim.
Arguments Sim.Game : clear implicits.

(** ** Predicates of the statements *)

(** Mask cell [(i, j)] of the 4x4 shape is occupied. *)
Definition occupied (shape : Matrix4) (i j : Z) : Prop :=
  0 <= i < 4 /\ 0 <= j < 4 /\ cell shape i j <> 0.

(** What makes one mask cell collide at [(topR, leftC)]. *)
Definition hits (b : Board) (topR leftC i j : Z) : Prop :=
  leftC + j < 0 \/ leftC + j >= BOARD_W \/ topR + i >= BOARD_H \/
  (topR + i >= 0 /\ cell b (topR + i) (leftC + j) <> 0).

(** Column [c] has its topmost occupied cell in row [r]. *)
Definition topmostOccupied (b : Board) (c r : Z) : Prop :=
  0 <= r < BOARD_H /\ cell b r c <> 0 /\
  forall r', 0 <= r' < r -> cell b r' c = 0.

Definition columnEmpty (b : Board) (c : Z) : Prop :=
  forall r, 0 <= r < BOARD_H -> cell b r c = 0.

(** The specification's wording of the column height: the distance from the
    top of the grid (row 0) to the topmost occupied cell of the column, and 0
    for an empty column. *)
Definition distanceFromTop (b : Board) (c : Z) : Z :=
  match List.find (fun r => negb (cell b r c =? 0)) rowIdx with
  | Some r => r
  | None => 0
  end.

(** The number of full rows of a board, its other rows in order, and the
    board with the full rows taken out and as many empty rows put on top. *)
Definition fullRows (b : Board) : nat := length (List.filter rowFull b).

Definition keptRows (b : Board) : Board :=
  List.filter (fun row => negb (rowFull row)) b.

Definition compacted (b : Board) : Board :=
  replicate (fullRows b) emptyRow ++ keptRows b.

(** The scored candidates of a search in the order in which [findBestMove]
    meets them: rotation states in turn, and for each the offsets in
    ascending order, without the offsets that have no resting row. *)
Definition candidates (fuel : nat) (board : Board) (piece : Tetromino)
  : list Search.MoveDecision :=
  flat_map (fun st =>
    flat_map (fun left =>
      match Search.candidateAt fuel board piece (fst st) (snd st) left with
      | Some (Some c) => [c]
      | _ => []
      end) Search.offsets) (Search.indexed (states piece)).

(** [best] is the first entry of [l] that no entry beats: no entry has a
    greater score, and no earlier entry has a score as great. *)
Definition firstMax (best : Search.MoveDecision) (l : list Search.MoveDecision)
  : Prop :=
  exists k : nat,
    l !! k = Some best
    /\ (forall c, In c l -> SFltb (Search.score best) (Search.score c) = false)
    /\ (forall (j : nat) c, (j < k)%nat -> l !! j = Some c ->
          SFleb (Search.score best) (Search.score c) = false).

(** A binary64 value that is zero or finite with exponent at most [E] and
    magnitude below [2^A]. *)
Definition fbound (E A : Z) (v : spec_float) : Prop :=
  match v with
  | S754_zero _ => True
  | S754_finite _ m e => e <= E /\ Zdigits2 (Zpos m) + e <= A
  | _ => False
  end.











(** ** Example states *)

(** A generator that counts the refills, with a shuffle that reverses the
    vector. *)
Definition reversingShuffle (g : nat) (l : list Z) : list Z * nat := (rev l, S g).

(** A new game in AI mode whose pause flag has been set. *)
Definition pausedAiGame : Sim.Game nat :=
  Sim.setPaused (Sim.newGame reversingShuffle Sim.AI 0%nat) true.

(** ** Game: locking, scoring, hard drop and the manual tick *)

Module Manual.
Import Sim.
Section Defs.
Context {Rng : Type}.
Variable shuffle : Rng -> list Z -> list Z * Rng.

Definition mul : spec_float -> spec_float -> spec_float :=
  SFmul Float32.prec Float32.emax.
Definition max (a b : spec_float) : spec_float := if SFltb a b then b else a.

(** Assignments to single members. *)
Definition setGravityTimer (g : Game Rng) (v : spec_float) : Game Rng :=
  mkGame (board g) (cur g) (bag g) (score g) (lines g) (level g) (gameOver g) (paused g)
    (tetrominoes g) (mode g) v (gravityDelay g) (inputDelay g)
    (inputTimer g) (leftHeld g) (rightHeld g) (downHeld g) (aiTimer g) (aiCooldown g).
Definition setGravityDelay (g : Game Rng) (v : spec_float) : Game Rng :=
  mkGame (board g) (cur g) (bag g) (score g) (lines g) (level g) (gameOver g) (paused g)
    (tetrominoes g) (mode g) (gravityTimer g) v (inputDelay g)
    (inputTimer g) (leftHeld g) (rightHeld g) (downHeld g) (aiTimer g) (aiCooldown g).
Definition setInputTimer (g : Game Rng) (v : spec_float) : Game Rng :=
  mkGame (board g) (cur g) (bag g) (score g) (lines g) (level g) (gameOver g) (paused g)
    (tetrominoes g) (mode g) (gravityTimer g) (gravityDelay g) (inputDelay g)
    v (leftHeld g) (rightHeld g) (downHeld g) (aiTimer g) (aiCooldown g).
Definition setLeftHeld (g : Game Rng) (v : bool) : Game Rng :=
  mkGame (board g) (cur g) (bag g) (score g) (lines g) (level g) (gameOver g) (paused g)
    (tetrominoes g) (mode g) (gravityTimer g) (gravityDelay g) (inputDelay g)
    (inputTimer g) v (rightHeld g) (downHeld g) (aiTimer g) (aiCooldown g).
Definition setRightHeld (g : Game Rng) (v : bool) : Game Rng :=
  mkGame (board g) (cur g) (bag g) (score g) (lines g) (level g) (gameOver g) (paused g)
    (tetrominoes g) (mode g) (gravityTimer g) (gravityDelay g) (inputDelay g)
    (inputTimer g) (leftHeld g) v (downHeld g) (aiTimer g) (aiCooldown g).
Definition setDownHeld (g : Game Rng) (v : bool) : Game Rng :=
  mkGame (board g) (cur g) (bag g) (score g) (lines g) (level g) (gameOver g) (paused g)
    (tetrominoes g) (mode g) (gravityTimer g) (gravityDelay g) (inputDelay g)
    (inputTimer g) (leftHeld g) (rightHeld g) v (aiTimer g) (aiCooldown g).

(** The two loops of [lockPiece]: the occupied cells of the active piece
    that lie on the board take the value [cur.type + 1]. *)
Definition lockCells (b : Board) (c : Piece) : Board :=
  fold_left (fun b1 i =>
    fold_left (fun b2 j =>
      if pieceCell (type c) (rotation c) i j =? 0 then b2
      else
        let bx := x c + j in
        let by_ := y c + i in
        if (by_ >=? 0) && (by_ <? BOARD_H) && (bx >=? 0) && (bx <? BOARD_W)
        then setCell b2 by_ bx (type c + 1)
        else b2) idx4 b1) idx4 b.

Definition pointsPer : list Z := [0; 40; 100; 300; 1200].

(** [Game::clearLines]; [pointsPer[cleared]] has no value past the table. *)
Definition gameClearLines (g : Game Rng) : option (Game Rng) :=
  match clearLines (board g) with
  | None => None
  | Some (cleared, b') =>
      let g1 := setBoard g b' in
      if cleared >? 0 then
        match pointsPer !! Z.to_nat cleared with
        | None => None
        | Some pts =>
            let ln := lines g1 + cleared in
            Some (setCounters g1 (score g1 + pts * level g1) ln (1 + Z.quot ln 10))
        end
      else Some g1
  end.

Definition lockPiece (g : Game Rng) : option (Game Rng) :=
  match gameClearLines (setBoard g (lockCells (board g) (cur g))) with
  | None => None
  | Some g1 => Some (spawnPiece shuffle g1)
  end.

(** The [while] loop of [hardDrop], one test per unit of fuel. *)
Fixpoint hardDropLoop (fuel : nat) (g : Game Rng) : option (Game Rng) :=
  match fuel with
  | O => None
  | S f =>
      let c := cur g in
      if negb (collidesPiece (board g) (x c) (y c + 1) (type c) (rotation c))
      then hardDropLoop f (setCur g (mkPiece (type c) (x c) (y c + 1) (rotation c)))
      else Some g
  end.

Definition hardDrop (fuel : nat) (g : Game Rng) : option (Game Rng) :=
  match hardDropLoop fuel g with
  | None => None
  | Some g1 => lockPiece g1
  end.












End Defs.
End Manual.


(** ** The AI-only program ([tetris.cpp])

    Its [Board], [Bag] and search are those above; the catalog differs in
    the colour ids, and the loop of [main] holds the state in locals. *)

Module Classic.
Section Defs.
Context {Rng : Type}.
Variable shuffle : Rng -> list Z -> list Z * Rng.

Definition makeTetrominoes : list Tetromino :=
  [ mkTetromino [I0; rotate90 I0] 7;
    mkTetromino (fourStates J0) 6;
    mkTetromino (fourStates L0) 3;
    mkTetromino [O0] 4;
    mkTetromino [S0; rotate90 S0] 2;
    mkTetromino (fourStates T0m) 5;
    mkTetromino [Z0m; rotate90 Z0m] 1 ].

(** [findBestMove(board, piece)] *)
Definition findBestMove (fuel : nat) (board : Board) (piece : Tetromino)
  : option Search.MoveDecision :=
  foldOpt (Search.offsetLoop fuel board piece) (Search.indexed (states piece))
    Search.sentinel.

(** The locals of [main]. *)
Record State := mkState {
  tetrominoes : list Tetromino;
  bag : Randomizer.Bag Rng;
  board : Board;
  currentType : Z;
  nextType : Z;
  gameOver : bool;
  score : Z;
  totalLines : Z;
  aiTimer : spec_float;
  aiCooldown : spec_float
}.

(** The state before the first frame. *)
Definition init (seed : Rng) : State :=
  let b0 := Randomizer.newBag shuffle seed in
  let '(t1, b1) := Randomizer.next shuffle b0 in
  let '(t2, b2) := Randomizer.next shuffle b1 in
  mkState makeTetrominoes b2 emptyBoard t1 t2 false 0 0
    (S754_zero false) (Double.lit 108 2).

(** The statements after a placement: scoring, the next piece and the spawn
    test. *)
Definition afterPlacement (s : State) (b' : Board) (nlines : Z) : option State :=
  let total := totalLines s + nlines in
  let sc := if nlines >? 0 then score s + 100 * Z.shiftl 1 (nlines - 1) else score s in
  let cur' := nextType s in
  let '(nxt, bg) := Randomizer.next shuffle (bag s) in
  if cur' <? 0 then None else
  match tetrominoes s !! Z.to_nat cur' with
  | None => None
  | Some piece =>
      match states piece !! O with
      | None => None
      | Some spawn =>
          Some (mkState (tetrominoes s) bg b' cur' nxt
                  (if collides b' spawn (-4) (Z.quot BOARD_W 2 - 2) then true
                   else gameOver s)
                  sc total (aiTimer s) (aiCooldown s))
      end
  end.

(** The body of the loop of [main] up to the drawing; [dt] is the frame
    time, a [float] that the addition converts to [double] unchanged. *)
Definition step (fuel : nat) (s : State) (dt : spec_float) : option State :=
  if gameOver s then Some s
  else
    let t := Double.add (aiTimer s) dt in
    if SFleb (aiCooldown s) t then
      let s1 := mkState (tetrominoes s) (bag s) (board s) (currentType s)
                  (nextType s) (gameOver s) (score s) (totalLines s)
                  (S754_zero false) (aiCooldown s) in
      if currentType s1 <? 0 then None else
      match tetrominoes s1 !! Z.to_nat (currentType s1) with
      | None => None
      | Some piece =>
          match findBestMove fuel (board s1) piece with
          | None => None
          | Some move =>
              if SFltb (Search.score move) NO_MOVE_THRESHOLD then
                Some (mkState (tetrominoes s1) (bag s1) (board s1) (currentType s1)
                        (nextType s1) true (score s1) (totalLines s1)
                        (aiTimer s1) (aiCooldown s1))
              else
                match states piece !! Z.to_nat (Search.rotationIndex move) with
                | None => None
                | Some shape =>
                    match dropPosition fuel (board s1) shape (Search.leftC move) with
                    | None => None
                    | Some top =>
                        if top =? INT_MIN then
                          Some (mkState (tetrominoes s1) (bag s1) (board s1)
                                  (currentType s1) (nextType s1) true (score s1)
                                  (totalLines s1) (aiTimer s1) (aiCooldown s1))
                        else
                          match clearLines (placePiece (board s1) shape top
                                              (Search.leftC move) (colorId piece)) with
                          | None => None
                          | Some (nlines, b') => afterPlacement s1 b' nlines
                          end
                    end
                end
          end
      end
    else
      Some (mkState (tetrominoes s) (bag s) (board s) (currentType s)
              (nextType s) (gameOver s) (score s) (totalLines s) t (aiCooldown s)).

(** The frames of a session, one frame time each. *)
Fixpoint run (fuel : nat) (dts : list spec_float) (s : State) : option State :=
  match dts with
  | [] => Some s
  | dt :: rest =>
      match step fuel s dt with
      | None => None
      | Some s' => run fuel rest s'
      end
  end.
End Defs.
End Classic.
Arguments Classic.State : clear implicits.

(** ** Further notions for the statements *)

(** The number of occupied cells of a 4x4 mask. *)
Definition maskCount (m : Matrix4) : Z :=
  fold_left (fun n i =>
    fold_left (fun n' j => n' + (if cell m i j =? 0 then 0 else 1)) idx4 n) idx4 0.

(** A mask of the shape of [Matrix4]: four rows of four cells. *)
Definition wfMatrix4 (m : Matrix4) : Prop :=
  length m = 4%nat /\ Forall (fun row => length row = 4%nat) m.

(** The mask that [pieceCell] shows for a type and a rotation. *)
Definition maskOf (ty rot : Z) : Matrix4 :=
  map (fun i => map (fun j => pieceCell ty rot i j) idx4) idx4.

(** No row of the board is full. *)
Definition noFullRows (b : Board) : Prop :=
  Forall (fun row => rowFull row = false) b.

(** The number of occupied cells of column [c]. *)
Definition columnCells (b : Board) (c : Z) : Z :=
  fold_left (fun n r => n + (if cell b r c =? 0 then 0 else 1)) rowIdx 0.

(** The number of occupied cells of the board. *)
Definition boardCells (b : Board) : Z :=
  fold_left (fun n c => n + columnCells b c) colIdx 0.

(** Board cell [(r, c)] lies under an occupied cell of the mask placed with
    its corner at [(topR, leftC)]. *)
Definition covers (shape : Matrix4) (topR leftC r c : Z) : bool :=
  (0 <=? r - topR) && (r - topR <? 4) && (0 <=? c - leftC) && (c - leftC <? 4)
  && negb (cell shape (r - topR) (c - leftC) =? 0).

(** The number of occupied cells among the [BOARD_W] cells of a row. *)
Definition rowCells (row : list Z) : Z :=
  fold_left (fun n c => n + (if nth (Z.to_nat c) row 0 =? 0 then 0 else 1)) colIdx 0.

(** The queue of a bag holds piece ids, none of them twice. *)
Definition bagOk {Rng : Type} (s : Randomizer.Bag Rng) : Prop :=
  NoDup (Randomizer.bag s) /\ Forall (fun t => 0 <= t < 7) (Randomizer.bag s).

(** Every cell holds 0 or one of the colour ids 1..7. *)
Definition cellsInRange (b : Board) : Prop :=
  Forall (Forall (fun v => 0 <= v <= 7)) b.

(** What holds of a game between two frames, apart from the active piece:
    the board has the game's shape, no full row and only colour ids, the bag
    is in order, the catalog is the one of [makeTetrominoes], and the
    counters are consistent. *)
Definition stateOk {Rng : Type} (g : Sim.Game Rng) : Prop :=
  wfBoard (Sim.board g) /\ noFullRows (Sim.board g) /\ cellsInRange (Sim.board g)
  /\ bagOk (Sim.bag g)
  /\ Sim.tetrominoes g = makeTetrominoes
  /\ 0 <= Sim.score g /\ 0 <= Sim.lines g
  /\ Sim.level g = 1 + Z.quot (Sim.lines g) 10.

(** The active piece is a piece of the catalog in one of the four rotations,
    not above its spawn row, and it does not collide unless the game is
    over. *)
Definition pieceOk {Rng : Type} (g : Sim.Game Rng) : Prop :=
  0 <= Sim.type (Sim.cur g) < 7
  /\ 0 <= Sim.rotation (Sim.cur g) < 4
  /\ 0 <= Sim.y (Sim.cur g)
  /\ (Sim.gameOver g = false ->
      Sim.collidesPiece (Sim.board g) (Sim.x (Sim.cur g)) (Sim.y (Sim.cur g))
        (Sim.type (Sim.cur g)) (Sim.rotation (Sim.cur g)) = false).

Definition gameOk {Rng : Type} (g : Sim.Game Rng) : Prop :=
  stateOk g /\ pieceOk g.


(** What holds of the locals of the AI-only program between two frames. *)
Definition classicOk {Rng : Type} (s : Classic.State Rng) : Prop :=
  wfBoard (Classic.board s) /\ noFullRows (Classic.board s)
  /\ cellsInRange (Classic.board s)
  /\ bagOk (Classic.bag s)
  /\ Classic.tetrominoes s = Classic.makeTetrominoes
  /\ 0 <= Classic.currentType s < 7 /\ 0 <= Classic.nextType s < 7
  /\ 0 <= Classic.score s /\ 0 <= Classic.totalLines s.

(** The entry of [makeTetrominoes] that holds the piece of a manual-mode
    type id: the flat catalog lists I, O, T, J, L, S, Z, the vector I, J, L,
    O, S, T, Z. *)
Definition madeIndex (ty : Z) : Z := nth (Z.to_nat ty) [0; 3; 5; 1; 2; 4; 6] 0.

(** * Properties *)

(** ** Collision test *)

Lemma In_idx4 (i : Z) : In i idx4 <-> 0 <= i < 4.
Proof. unfold idx4. simpl. lia. Qed.

Lemma cellCollides_true b topR leftC i j :
  cellCollides b topR leftC i j = true <-> hits b topR leftC i j.
Proof.
  unfold cellCollides, hits, BOARD_W, BOARD_H.
  destruct (leftC + j <? 0) eqn:E1; [ apply Z.ltb_lt in E1; simpl; intuition lia | ].
  destruct (leftC + j >=? 10) eqn:E2; [ apply Z.geb_le in E2; simpl; intuition lia | ].
  destruct (topR + i >=? 20) eqn:E3; [ apply Z.geb_le in E3; simpl; intuition lia | ].
  apply Z.ltb_ge in E1. rewrite Z.geb_leb in E2, E3.
  apply Z.leb_gt in E2, E3. simpl.
  destruct (topR + i >=? 0) eqn:E4; simpl.
  - apply Z.geb_le in E4.
    destruct (cell b (topR + i) (leftC + j) =? 0) eqn:E5; simpl.
    + apply Z.eqb_eq in E5. intuition lia.
    + apply Z.eqb_neq in E5. intuition lia.
  - rewrite Z.geb_leb in E4. apply Z.leb_gt in E4. intuition lia.
Qed.

Lemma collides_true b shape topR leftC :
  collides b shape topR leftC = true <->
  exists i j, occupied shape i j /\ hits b topR leftC i j.
Proof.
  unfold collides. rewrite existsb_exists. split.
  - intros (i & Hi & H). apply existsb_exists in H as (j & Hj & H).
    exists i, j. apply In_idx4 in Hi. apply In_idx4 in Hj.
    destruct (cell shape i j =? 0) eqn:E; [ discriminate | ].
    apply Z.eqb_neq in E. apply cellCollides_true in H.
    unfold occupied. auto.
  - intros (i & j & (Hi & Hj & Hc) & H).
    exists i. split; [ now apply In_idx4 | ].
    apply existsb_exists. exists j. split; [ now apply In_idx4 | ].
    apply Z.eqb_neq in Hc. rewrite Hc. now apply cellCollides_true.
Qed.

Lemma collides_false b shape topR leftC :
  collides b shape topR leftC = false <->
  forall i j, occupied shape i j -> ~ hits b topR leftC i j.
Proof.
  rewrite <- not_true_iff_false, collides_true. split.
  - intros H i j Ho Hh. apply H. eauto.
  - intros H (i & j & Ho & Hh). exact (H i j Ho Hh).
Qed.

(** A mask cell outside the columns of the board collides at every row. *)
Lemma collides_horizontal b shape leftC t t' :
  (forall i j, occupied shape i j -> t + i < 0) ->
  collides b shape t leftC = true -> collides b shape t' leftC = true.
Proof.
  intros Habove H. apply collides_true in H as (i & j & Ho & Hh).
  apply collides_true. exists i, j. split; [ exact Ho | ].
  specialize (Habove i j Ho). unfold hits, BOARD_H in *. lia.
Qed.

(** ** The drop loop *)

Lemma dropLoop_exit fuel b shape leftC t0 t :
  dropLoop fuel b shape leftC t0 = Some t ->
  t0 <= t /\ collides b shape (t + 1) leftC = true /\
  (forall t', t0 < t' <= t -> collides b shape t' leftC = false).
Proof.
  revert t0. induction fuel as [| f IH]; intros t0 H; simpl in H; [ discriminate | ].
  destruct (collides b shape (t0 + 1) leftC) eqn:E.
  - injection H as <-. repeat split; [ lia | exact E | intros; lia ].
  - apply IH in H as (Hle & Hc & Hfree). repeat split; [ lia | exact Hc | ].
    intros t' Ht'. destruct (Z.eq_dec t' (t0 + 1)) as [-> | Hne]; [ exact E | ].
    apply Hfree. lia.
Qed.

Lemma dropLoop_more fuel k b shape leftC t0 t :
  dropLoop fuel b shape leftC t0 = Some t ->
  dropLoop (fuel + k) b shape leftC t0 = Some t.
Proof.
  revert t0. induction fuel as [| f IH]; intros t0 H; simpl in *; [ discriminate | ].
  destruct (collides b shape (t0 + 1) leftC); [ exact H | now apply IH ].
Qed.

Lemma dropLoop_fuel_irrelevant f1 f2 b shape leftC t0 t1 t2 :
  dropLoop f1 b shape leftC t0 = Some t1 ->
  dropLoop f2 b shape leftC t0 = Some t2 -> t1 = t2.
Proof.
  revert f2 t0. induction f1 as [| f IH]; intros f2 t0 H1 H2; simpl in H1; [ discriminate | ].
  destruct f2 as [| g]; simpl in H2; [ discriminate | ].
  destruct (collides b shape (t0 + 1) leftC); [ congruence | eauto ].
Qed.

(** A mask with an occupied cell in row [i] collides once that cell is at or
    below the bottom boundary, so the loop stops. *)
Lemma dropLoop_stops fuel b shape leftC t0 i j :
  occupied shape i j ->
  (1 <= fuel)%nat -> BOARD_H - 1 - i - t0 < Z.of_nat fuel ->
  exists t, dropLoop fuel b shape leftC t0 = Some t.
Proof.
  intros Ho. revert t0. induction fuel as [| f IH]; intros t0 H1 H2; [ lia | ].
  simpl. destruct (collides b shape (t0 + 1) leftC) eqn:E; [ eauto | ].
  assert (t0 + 1 + i < BOARD_H) as Hlt.
  { rewrite collides_false in E. specialize (E i j Ho).
    unfold hits in E. lia. }
  apply IH; unfold BOARD_H in *; lia.
Qed.

Lemma dropLoop_empty fuel b shape leftC t0 :
  (forall t, collides b shape t leftC = false) ->
  dropLoop fuel b shape leftC t0 = None.
Proof.
  intros Hc. revert t0. induction fuel as [| f IH]; intros t0; simpl; [ reflexivity | ].
  rewrite Hc. apply IH.
Qed.

(** C4. [collides] is true exactly when some occupied mask cell lands in a
    column outside [0, BOARD_W), or in a row at or below the bottom boundary,
    or in a row [>= 0] on an occupied board cell.  A cell in a negative row
    inside the columns of the board does not collide, and when every occupied
    cell of the shape is above row 0 only the column bounds decide, whatever
    the board holds. *)
Theorem collides_spec (b : Board) (shape : Matrix4) (topR leftC : Z) :
  (collides b shape topR leftC = true <->
     exists i j, occupied shape i j /\
       (leftC + j < 0 \/ leftC + j >= BOARD_W \/ topR + i >= BOARD_H \/
        (topR + i >= 0 /\ cell b (topR + i) (leftC + j) <> 0)))
  /\ (forall i j, topR + i < 0 -> 0 <= leftC + j < BOARD_W ->
        cellCollides b topR leftC i j = false)
  /\ ((forall i j, occupied shape i j -> topR + i < 0) ->
      (collides b shape topR leftC = true <->
         exists i j, occupied shape i j /\ (leftC + j < 0 \/ leftC + j >= BOARD_W))).
Proof.
  split; [ apply collides_true | split ].
  - intros i j Hr Hc. apply not_true_iff_false. rewrite cellCollides_true.
    unfold hits, BOARD_H, BOARD_W in *. lia.
  - intros Habove. rewrite collides_true. split.
    + intros (i & j & Ho & Hh). exists i, j. split; [ exact Ho | ].
      specialize (Habove i j Ho). unfold hits, BOARD_H in Hh. lia.
    + intros (i & j & Ho & Hh). exists i, j. split; [ exact Ho | ].
      unfold hits. lia.
Qed.

(** The horizontal I mask held at row -4 over a board that is occupied up to
    its top row: it does not collide in columns 0..3, and it collides at
    offset 7, where its last cell leaves the board on the right. *)
Lemma collides_spec_witness :
  collides (replicate 20 (replicate 10 1)) I0 (-4) 0 = false /\
  collides (replicate 20 (replicate 10 1)) I0 (-4) 7 = true.
Proof.
  pose proof (collides_spec (replicate 20 (replicate 10 1)) I0 (-4) 0)
    as (_ & _ & H0).
  pose proof (collides_spec (replicate 20 (replicate 10 1)) I0 (-4) 7)
    as (_ & _ & H7).
  assert (forall i j, occupied I0 i j -> -4 + i < 0) as Habove
    by (intros i j (Hi & _); lia).
  split.
  - apply not_true_iff_false. intros Hc. apply (H0 Habove) in Hc.
    destruct Hc as (i & j & (Hi & Hj & _) & Hout). unfold BOARD_W in Hout. lia.
  - apply (H7 Habove). exists 1, 3. split; [ | unfold BOARD_W; lia ].
    split; [ lia | split; [ lia | vm_compute; discriminate ] ].
Defined.

(** C3. The result of [dropPosition] does not depend on how long the loop is
    allowed to run, so it is a function of board, shape and column alone; a
    returned row [t] other than the sentinel is free while row [t + 1]
    collides; and the sentinel [INT_MIN] is returned exactly when the shape
    collides at the starting row -4. *)
Theorem dropPosition_spec (b : Board) (shape : Matrix4) (leftC : Z) :
  (forall f1 f2 t1 t2,
      dropPosition f1 b shape leftC = Some t1 ->
      dropPosition f2 b shape leftC = Some t2 -> t1 = t2)
  /\ (forall f t,
      dropPosition f b shape leftC = Some t -> t <> INT_MIN ->
      collides b shape t leftC = false /\ collides b shape (t + 1) leftC = true)
  /\ ((exists f, dropPosition f b shape leftC = Some INT_MIN) <->
      collides b shape (-4) leftC = true).
Proof.
  unfold dropPosition. split; [ | split ].
  - intros f1 f2 t1 t2 H1 H2.
    destruct (dropLoop f1 b shape leftC (-4)) as [r1 |] eqn:E1; [ | discriminate ].
    destruct (dropLoop f2 b shape leftC (-4)) as [r2 |] eqn:E2; [ | discriminate ].
    assert (r1 = r2) as <- by exact (dropLoop_fuel_irrelevant _ _ _ _ _ _ _ _ E1 E2).
    destruct (collides b shape r1 leftC); congruence.
  - intros f t H Hne.
    destruct (dropLoop f b shape leftC (-4)) as [r |] eqn:E; [ | discriminate ].
    apply dropLoop_exit in E as (Hle & Hnext & Hfree).
    destruct (collides b shape r leftC) eqn:Ec; injection H as <-;
      [ congruence | auto ].
  - split.
    + intros (f & H).
      destruct (dropLoop f b shape leftC (-4)) as [r |] eqn:E; [ | discriminate ].
      apply dropLoop_exit in E as (Hle & Hnext & Hfree).
      destruct (collides b shape r leftC) eqn:Ec.
      * destruct (Z.eq_dec r (-4)) as [-> | Hne]; [ exact Ec | ].
        rewrite Hfree in Ec by lia. discriminate.
      * injection H as ->. unfold INT_MIN in Hle. lia.
    + intros Hc. exists 1%nat. simpl.
      assert (collides b shape (-4 + 1) leftC = true) as ->.
      { apply (collides_horizontal b shape leftC (-4)); [ | exact Hc ].
        intros i j (Hi & _). lia. }
      now rewrite Hc.
Qed.

(** The horizontal I mask over the empty board: at offset 0 it rests at row
    18, which is free while row 19 collides; at offset 7 it leaves the board
    on the right, collides at row -4, and the sentinel is returned. *)
Lemma dropPosition_spec_witness :
  (collides emptyBoard I0 18 0 = false /\ collides emptyBoard I0 (18 + 1) 0 = true)
  /\ collides emptyBoard I0 (-4) 7 = true.
Proof.
  destruct (dropPosition_spec emptyBoard I0 0) as (_ & Hrest & _).
  destruct (dropPosition_spec emptyBoard I0 7) as (_ & _ & Hsentinel).
  split.
  - apply (Hrest dropFuel 18); [ reflexivity | discriminate ].
  - apply Hsentinel. exists dropFuel. reflexivity.
Defined.

(** C10. For a shape with an occupied cell the scan of [dropPosition] stops:
    with [dropFuel] tests or more it returns one and the same value.  For the
    all-zero mask no row collides and the scan is still running after any
    number of tests. *)
Theorem dropPosition_total (b : Board) (shape : Matrix4) (leftC : Z) :
  ((exists i j, occupied shape i j) ->
     exists t, forall fuel, (dropFuel <= fuel)%nat ->
       dropPosition fuel b shape leftC = Some t)
  /\ ((forall i j, 0 <= i < 4 -> 0 <= j < 4 -> cell shape i j = 0) ->
     forall fuel, dropPosition fuel b shape leftC = None).
Proof.
  split.
  - intros (i & j & Ho).
    destruct (dropLoop_stops dropFuel b shape leftC (-4) i j Ho) as (r & Hr).
    { unfold dropFuel, BOARD_H. lia. }
    { destruct Ho as (Hi & _). unfold dropFuel, BOARD_H. lia. }
    exists (if collides b shape r leftC then INT_MIN else r).
    intros fuel Hfuel. unfold dropPosition.
    replace fuel with (dropFuel + (fuel - dropFuel))%nat by lia.
    rewrite (dropLoop_more _ _ _ _ _ _ _ Hr).
    now destruct (collides b shape r leftC).
  - intros Hzero fuel. unfold dropPosition.
    rewrite dropLoop_empty; [ reflexivity | ].
    intros t. apply collides_false. intros i j (Hi & Hj & Hc).
    now specialize (Hzero i j Hi Hj).
Qed.

(** On the empty board the scan of the horizontal I mask stops, and the scan
    of the all-zero mask never does. *)
Lemma dropPosition_total_witness :
  (exists t, forall fuel, (dropFuel <= fuel)%nat ->
     dropPosition fuel emptyBoard I0 0 = Some t) /\
  (forall fuel, dropPosition fuel emptyBoard (replicate 4 (replicate 4 0)) 0 = None).
Proof.
  split.
  - apply (dropPosition_total emptyBoard I0 0).
    exists 1, 0. split; [ lia | split; [ lia | vm_compute; discriminate ] ].
  - apply (dropPosition_total emptyBoard (replicate 4 (replicate 4 0)) 0).
    intros i j Hi Hj.
    assert (i = 0 \/ i = 1 \/ i = 2 \/ i = 3) as Hi' by lia.
    assert (j = 0 \/ j = 1 \/ j = 2 \/ j = 3) as Hj' by lia.
    destruct Hi' as [-> | [-> | [-> | ->]]];
      destruct Hj' as [-> | [-> | [-> | ->]]]; reflexivity.
Defined.

(** ** Rotation: index transform against repeated [rotate90] *)

Lemma range4 (i : Z) : 0 <= i < 4 -> i = 0 \/ i = 1 \/ i = 2 \/ i = 3.
Proof. lia. Qed.

Lemma cell_rotate90 (m : Matrix4) (i j : Z) :
  0 <= i < 4 -> 0 <= j < 4 -> cell (rotate90 m) i j = cell m (3 - j) i.
Proof.
  intros Hi Hj.
  destruct (range4 i Hi) as [-> | [-> | [-> | ->]]];
    destruct (range4 j Hj) as [-> | [-> | [-> | ->]]]; reflexivity.
Qed.

Lemma nth_flatten4 (m : Matrix4) (r c : Z) :
  0 <= r < 4 -> 0 <= c < 4 ->
  nth (Z.to_nat (r * 4 + c)) (flatten4 m) 0 = cell m r c.
Proof.
  intros Hr Hc.
  destruct (range4 r Hr) as [-> | [-> | [-> | ->]]];
    destruct (range4 c Hc) as [-> | [-> | [-> | ->]]]; reflexivity.
Qed.

(** The rotation states that [makeTetrominoes] gives a piece built by its
    four-state loop are the iterates of [rotate90]. *)
Lemma fourStates_iter (m0 : Matrix4) (k : nat) :
  (k < 4)%nat -> nth k (fourStates m0) [] = Nat.iter k rotate90 m0.
Proof.
  intros Hk. destruct k as [| [| [| [| k]]]]; [ reflexivity .. | lia ].
Qed.

(** C9. For every mask and every rotation index [k] in [0, 4), the index
    transform of [pieceCell], applied to the row-major flattening of the
    mask, reads the same cells as [k] applications of [rotate90]; and for the
    three pieces that [makeTetrominoes] gives four states (T, J, L) the flat
    catalog under [pieceCell] and the precomputed states agree cell by
    cell. *)
Theorem pieceCell_rotate90 :
  (forall (m : Matrix4) (k i j : Z),
      0 <= k < 4 -> 0 <= i < 4 -> 0 <= j < 4 ->
      flatCell (flatten4 m) k i j = cell (Nat.iter (Z.to_nat k) rotate90 m) i j)
  /\ (forall classicId madeId : Z,
      (classicId, madeId) = (2, 5) \/ (classicId, madeId) = (3, 1) \/
      (classicId, madeId) = (4, 2) ->
      forall k i j, 0 <= k < 4 -> 0 <= i < 4 -> 0 <= j < 4 ->
        pieceCell classicId k i j =
        cell (nth (Z.to_nat k)
                (states (nth (Z.to_nat madeId) makeTetrominoes (mkTetromino [] 0))) [])
             i j).
Proof.
  assert (forall (m : Matrix4) (k i j : Z),
      0 <= k < 4 -> 0 <= i < 4 -> 0 <= j < 4 ->
      flatCell (flatten4 m) k i j = cell (Nat.iter (Z.to_nat k) rotate90 m) i j) as Hgen.
  { intros m k i j Hk Hi Hj. unfold flatCell.
    destruct (range4 k Hk) as [-> | [-> | [-> | ->]]].
    - change (pieceIdx 0 i j) with (i * 4 + j).
      change (Nat.iter (Z.to_nat 0) rotate90 m) with m.
      now rewrite nth_flatten4.
    - change (pieceIdx 1 i j) with ((3 - j) * 4 + i).
      change (Nat.iter (Z.to_nat 1) rotate90 m) with (rotate90 m).
      rewrite nth_flatten4 by lia. now rewrite cell_rotate90.
    - change (pieceIdx 2 i j) with ((3 - i) * 4 + (3 - j)).
      change (Nat.iter (Z.to_nat 2) rotate90 m) with (rotate90 (rotate90 m)).
      rewrite nth_flatten4 by lia.
      rewrite cell_rotate90 by lia. now rewrite cell_rotate90 by lia.
    - change (pieceIdx 3 i j) with (j * 4 + (3 - i)).
      change (Nat.iter (Z.to_nat 3) rotate90 m)
        with (rotate90 (rotate90 (rotate90 m))).
      rewrite nth_flatten4 by lia.
      rewrite cell_rotate90 by lia. rewrite cell_rotate90 by lia.
      rewrite cell_rotate90 by lia. f_equal; lia. }
  split; [ exact Hgen | ].
  intros classicId madeId Hpair k i j Hk Hi Hj.
  assert (Z.to_nat k < 4)%nat as Hk' by lia.
  destruct Hpair as [Hp | [Hp | Hp]]; injection Hp as -> ->.
  - change (states (nth (Z.to_nat 5) makeTetrominoes (mkTetromino [] 0)))
      with (fourStates T0m).
    rewrite fourStates_iter by exact Hk'. rewrite <- Hgen by assumption. reflexivity.
  - change (states (nth (Z.to_nat 1) makeTetrominoes (mkTetromino [] 0)))
      with (fourStates J0).
    rewrite fourStates_iter by exact Hk'. rewrite <- Hgen by assumption. reflexivity.
  - change (states (nth (Z.to_nat 2) makeTetrominoes (mkTetromino [] 0)))
      with (fourStates L0).
    rewrite fourStates_iter by exact Hk'. rewrite <- Hgen by assumption. reflexivity.
Qed.

(** The S-shaped mask turned twice, read at cell (1, 2), and the J piece of
    both catalogs in its third state. *)
Lemma pieceCell_rotate90_witness :
  flatCell (flatten4 S0) 2 1 2 = cell (rotate90 (rotate90 S0)) 1 2 /\
  pieceCell 3 3 2 1 = cell (nth 3 (fourStates J0) []) 2 1.
Proof.
  destruct pieceCell_rotate90 as (Hgen & Hcat). split.
  - apply (Hgen S0 2 1 2); lia.
  - apply (Hcat 3 1); [ auto | lia .. ].
Defined.

(** ** Column height *)

Lemma In_rowIdx (r : Z) : In r rowIdx <-> 0 <= r < BOARD_H.
Proof.
  unfold rowIdx, BOARD_H. rewrite in_map_iff. split.
  - intros (k & <- & Hk). apply in_seq in Hk. lia.
  - intros Hr. exists (Z.to_nat r). split; [ lia | apply in_seq; lia ].
Qed.

Lemma rowIdx_split (r : Z) :
  0 <= r < BOARD_H ->
  exists above below,
    rowIdx = above ++ r :: below /\ forall r', In r' above -> 0 <= r' < r.
Proof.
  intros Hr. unfold BOARD_H in Hr.
  exists (map Z.of_nat (seq 0 (Z.to_nat r))),
         (map Z.of_nat (seq (S (Z.to_nat r)) (19 - Z.to_nat r))).
  split.
  - unfold rowIdx, BOARD_H.
    replace (Z.to_nat 20) with (Z.to_nat r + S (19 - Z.to_nat r))%nat by lia.
    rewrite seq_app, map_app. cbn [seq map Nat.add]. f_equal. f_equal. lia.
  - intros r' Hin. apply in_map_iff in Hin as (k & <- & Hk).
    apply in_seq in Hk. lia.
Qed.

Lemma columnScan_zero (rows : list Z) (b : Board) (c : Z) :
  (forall r, In r rows -> cell b r c = 0) -> columnScan rows b c = 0.
Proof.
  induction rows as [| r rest IH]; intros Hz; simpl; [ reflexivity | ].
  rewrite (Hz r) by (left; reflexivity). simpl. apply IH.
  intros r' Hin. apply Hz. now right.
Qed.

Lemma columnScan_first (above below : list Z) (r : Z) (b : Board) (c : Z) :
  (forall r', In r' above -> cell b r' c = 0) -> cell b r c <> 0 ->
  columnScan (above ++ r :: below) b c = BOARD_H - r.
Proof.
  induction above as [| a rest IH]; intros Hz Hocc; simpl.
  - apply Z.eqb_neq in Hocc. now rewrite Hocc.
  - rewrite (Hz a) by (left; reflexivity). simpl. apply IH; [ | exact Hocc ].
    intros r' Hin. apply Hz. now right.
Qed.

(** C5, as the code has it.  [columnHeight] is the height of the stack in
    the column: [BOARD_H] minus the row index of its topmost occupied cell,
    which is the distance from the bottom of the grid up to and including
    that cell, and 0 for an empty column. *)
Theorem columnHeight_spec (b : Board) (c : Z) :
  wfBoard b -> 0 <= c < BOARD_W ->
  (columnEmpty b c -> columnHeight b c = 0)
  /\ (forall r, topmostOccupied b c r -> columnHeight b c = BOARD_H - r)
  /\ 0 <= columnHeight b c <= BOARD_H.
Proof.
  intros _ _.
  assert (columnEmpty b c -> columnHeight b c = 0) as Hempty.
  { intros He. apply columnScan_zero. intros r Hin. apply He. now apply In_rowIdx. }
  assert (forall r, topmostOccupied b c r -> columnHeight b c = BOARD_H - r) as Htop.
  { intros r (Hr & Hocc & Hfree). unfold columnHeight.
    destruct (rowIdx_split r Hr) as (above & below & -> & Habove).
    apply columnScan_first; [ | exact Hocc ].
    intros r' Hin. apply Hfree. now apply Habove. }
  split; [ exact Hempty | split; [ exact Htop | ] ].
  destruct (List.find (fun r => negb (cell b r c =? 0)) rowIdx) as [r |] eqn:Ef.
  - assert (topmostOccupied b c r) as Ht.
    { pose proof (find_some _ _ Ef) as (Hin & Hnz).
      apply In_rowIdx in Hin. apply negb_true_iff, Z.eqb_neq in Hnz.
      repeat split; try lia; try exact Hnz.
      intros r' Hr'. destruct (rowIdx_split r Hin) as (above & below & Hsplit & Habove).
      destruct (Z.eq_dec (cell b r' c) 0) as [Hz | Hnz']; [ exact Hz | exfalso ].
      assert (0 <= r' < BOARD_H) as Hr'' by lia.
      destruct (rowIdx_split r' Hr'') as (above' & below' & Hsplit' & Habove').
      rewrite Hsplit' in Ef. clear - Ef Hnz' Habove' Hr'.
      induction above' as [| a rest IH]; simpl in Ef.
      - apply Z.eqb_neq in Hnz'. rewrite Hnz' in Ef. simpl in Ef.
        injection Ef as <-. lia.
      - destruct (negb (cell b a c =? 0)).
        + injection Ef as <-. specialize (Habove' a (or_introl eq_refl)). lia.
        + apply IH; [ exact Ef | ]. intros r0 Hin0. apply Habove'. now right. }
    rewrite (Htop r Ht). destruct Ht as (Hr & _). lia.
  - rewrite Hempty; [ unfold BOARD_H; lia | ].
    intros r Hr. apply In_rowIdx in Hr.
    pose proof (find_none _ _ Ef r Hr) as Hz.
    now apply negb_false_iff, Z.eqb_eq in Hz.
Qed.

(** A board whose only block is in the bottom row of column 0. *)
Lemma columnHeight_spec_witness :
  columnHeight (replicate 19 emptyRow ++ [[7; 0; 0; 0; 0; 0; 0; 0; 0; 0]]) 0 = 1 /\
  columnHeight (replicate 19 emptyRow ++ [[7; 0; 0; 0; 0; 0; 0; 0; 0; 0]]) 1 = 0.
Proof.
  assert (wfBoard (replicate 19 emptyRow ++ [[7; 0; 0; 0; 0; 0; 0; 0; 0; 0]])) as Hwf.
  { split; [ reflexivity | ]. repeat constructor. }
  assert (0 <= 0 < BOARD_W) as Hc0 by (unfold BOARD_W; lia).
  assert (0 <= 1 < BOARD_W) as Hc1 by (unfold BOARD_W; lia).
  destruct (columnHeight_spec _ 0 Hwf Hc0) as (_ & Htop & _).
  destruct (columnHeight_spec _ 1 Hwf Hc1) as (Hempty & _ & _).
  split.
  - apply (Htop 19).
    split; [ unfold BOARD_H; lia | split; [ vm_compute; discriminate | ] ].
    intros r' Hr'.
    assert (exists k, r' = Z.of_nat k /\ (k < 19)%nat) as (k & -> & Hk)
      by (exists (Z.to_nat r'); lia).
    do 19 (destruct k as [| k]; [ reflexivity | ]). lia.
  - apply Hempty.
    intros r Hr. unfold BOARD_H in Hr.
    assert (exists k, r = Z.of_nat k /\ (k < 20)%nat) as (k & -> & Hk)
      by (exists (Z.to_nat r); lia).
    do 20 (destruct k as [| k]; [ reflexivity | ]). lia.
Defined.

(** C5, as the specification words it, fails: with a single block in the
    bottom row the topmost occupied cell is 19 rows from the top of the grid,
    and [columnHeight] is 1. *)
Lemma columnHeight_not_distanceFromTop :
  columnHeight (replicate 19 emptyRow ++ [[7; 0; 0; 0; 0; 0; 0; 0; 0; 0]]) 0 = 1 /\
  distanceFromTop (replicate 19 emptyRow ++ [[7; 0; 0; 0; 0; 0; 0; 0; 0; 0]]) 0 = 19 /\
  columnHeight (replicate 19 emptyRow ++ [[7; 0; 0; 0; 0; 0; 0; 0; 0; 0]]) 0 <>
  distanceFromTop (replicate 19 emptyRow ++ [[7; 0; 0; 0; 0; 0; 0; 0; 0; 0]]) 0.
Proof. repeat split. vm_compute. discriminate. Qed.

(** ** Rotation attempts of the manual mode *)

Lemma setCur_same {Rng : Type} (g : Sim.Game Rng) : Sim.setCur g (Sim.cur g) = g.
Proof. now destruct g. Qed.

(** C7. A rotation attempt (clockwise is [delta = 1], counter-clockwise is
    [delta = 3]) takes the new rotation at the current column if that does
    not collide; otherwise one column to the left, otherwise one column to
    the right of the original column; when all three collide the game state
    is the one before the attempt.  In every case only the column and the
    rotation of the active piece can change. *)
Theorem rotateAttempt_spec {Rng : Type} (g : Sim.Game Rng) (delta : Z) :
  let c := Sim.cur g in
  let newRot := Z.rem (Sim.rotation c + delta) 4 in
  let blocked := fun px =>
    Sim.collidesPiece (Sim.board g) px (Sim.y c) (Sim.type c) newRot in
  let moved := fun px =>
    Sim.setCur g (Sim.mkPiece (Sim.type c) px (Sim.y c) newRot) in
  (blocked (Sim.x c) = false -> Sim.rotateAttempt delta g = moved (Sim.x c))
  /\ (blocked (Sim.x c) = true -> blocked (Sim.x c - 1) = false ->
      Sim.rotateAttempt delta g = moved (Sim.x c - 1))
  /\ (blocked (Sim.x c) = true -> blocked (Sim.x c - 1) = true ->
      blocked (Sim.x c + 1) = false ->
      Sim.rotateAttempt delta g = moved (Sim.x c + 1))
  /\ (blocked (Sim.x c) = true -> blocked (Sim.x c - 1) = true ->
      blocked (Sim.x c + 1) = true ->
      Sim.rotateAttempt delta g = g)
  /\ (Sim.rotateAttempt delta g
      = Sim.setCur g (Sim.cur (Sim.rotateAttempt delta g))
      /\ Sim.type (Sim.cur (Sim.rotateAttempt delta g)) = Sim.type c
      /\ Sim.y (Sim.cur (Sim.rotateAttempt delta g)) = Sim.y c).
Proof.
  intros c newRot blocked moved. unfold Sim.rotateAttempt.
  fold c. fold newRot.
  change (Sim.collidesPiece (Sim.board g) (Sim.x c) (Sim.y c) (Sim.type c) newRot)
    with (blocked (Sim.x c)).
  change (Sim.collidesPiece (Sim.board g) (Sim.x c - 1) (Sim.y c) (Sim.type c) newRot)
    with (blocked (Sim.x c - 1)).
  change (Sim.collidesPiece (Sim.board g) (Sim.x c + 1) (Sim.y c) (Sim.type c) newRot)
    with (blocked (Sim.x c + 1)).
  destruct (blocked (Sim.x c)); destruct (blocked (Sim.x c - 1));
    destruct (blocked (Sim.x c + 1)); simpl;
    repeat split; intros; try discriminate; try reflexivity;
    symmetry; apply setCur_same.
Qed.

(** The vertical I piece (rotation 1 of type 0) in column 7 of the empty
    board cannot turn clockwise in place, since the horizontal mask would
    leave the board on the right; it turns one column to the left. *)
Lemma rotateAttempt_spec_witness :
  Sim.rotateAttempt 1
    (Sim.mkGame emptyBoard (Sim.mkPiece 0 7 5 3) (Randomizer.mkBag [] tt)
       0 0 1 false false makeTetrominoes Sim.MANUAL
       (S754_zero false) (Float32.lit 8 1) (Float32.lit 8 2) (S754_zero false)
       false false false (S754_zero false) (Float32.lit 108 2))
  = Sim.mkGame emptyBoard (Sim.mkPiece 0 6 5 0) (Randomizer.mkBag [] tt)
       0 0 1 false false makeTetrominoes Sim.MANUAL
       (S754_zero false) (Float32.lit 8 1) (Float32.lit 8 2) (S754_zero false)
       false false false (S754_zero false) (Float32.lit 108 2).
Proof.
  destruct (rotateAttempt_spec
    (Sim.mkGame emptyBoard (Sim.mkPiece 0 7 5 3) (Randomizer.mkBag [] tt)
       0 0 1 false false makeTetrominoes Sim.MANUAL
       (S754_zero false) (Float32.lit 8 1) (Float32.lit 8 2) (S754_zero false)
       false false false (S754_zero false) (Float32.lit 108 2)) 1)
    as (_ & Hleft & _).
  apply Hleft; reflexivity.
Defined.

(** ** Line clearing *)

Lemma shiftDown_eq (rr : nat) (cells : Board) :
  (rr < length cells)%nat ->
  shiftDown rr cells = take 1 cells ++ take rr cells ++ drop (S rr) cells.
Proof.
  revert cells. induction rr as [| p IH]; intros cells Hlen.
  - simpl shiftDown. rewrite take_0. simpl app. now rewrite take_drop.
  - simpl shiftDown.
    rewrite IH by (rewrite length_insert; lia).
    rewrite !take_insert_ge by lia.
    rewrite drop_insert_ge by lia. rewrite Nat.sub_diag.
    destruct (lookup_lt_is_Some_2 cells p) as [rowp Hp]; [ lia | ].
    destruct (lookup_lt_is_Some_2 cells (S p)) as [rowq Hq]; [ lia | ].
    rewrite (nth_lookup_Some _ _ _ _ Hp).
    rewrite (take_S_r _ _ _ Hp).
    rewrite (drop_S _ _ _ Hq). simpl.
    now rewrite <- !app_assoc.
Qed.

Lemma removeRow_eq (r : nat) (cells : Board) :
  (r < length cells)%nat ->
  removeRow r cells = emptyRow :: take r cells ++ drop (S r) cells.
Proof.
  intros Hlen. unfold removeRow. rewrite shiftDown_eq by exact Hlen.
  destruct cells as [| row0 rest]; [ simpl in Hlen; lia | ].
  reflexivity.
Qed.

Lemma fullRows_app (l1 l2 : Board) : fullRows (l1 ++ l2) = (fullRows l1 + fullRows l2)%nat.
Proof. unfold fullRows. now rewrite List.filter_app, length_app. Qed.

Lemma keptRows_app (l1 l2 : Board) : keptRows (l1 ++ l2) = keptRows l1 ++ keptRows l2.
Proof. unfold keptRows. apply List.filter_app. Qed.

Lemma replicate_snoc {A : Type} (n : nat) (v : A) :
  replicate n v ++ [v] = replicate (S n) v.
Proof. induction n as [| n IH]; simpl; [ reflexivity | now rewrite IH ]. Qed.

Lemma fullRows_one (row : list Z) :
  fullRows [row] = if rowFull row then 1%nat else 0%nat.
Proof. unfold fullRows. simpl. now destruct (rowFull row). Qed.

Lemma keptRows_one (row : list Z) :
  keptRows [row] = if rowFull row then [] else [row].
Proof. unfold keptRows. simpl. now destruct (rowFull row). Qed.

Lemma clearLoop_spec (fuel n : nat) (cells : Board) (cleared : Z) :
  (n <= length cells)%nat ->
  (n + fullRows (take n cells) < fuel)%nat ->
  clearLoop fuel (Z.of_nat n - 1) cells cleared =
  Some (cleared + Z.of_nat (fullRows (take n cells)),
        replicate (fullRows (take n cells)) emptyRow
          ++ keptRows (take n cells) ++ drop n cells).
Proof.
  revert n cells cleared.
  induction fuel as [| f IH]; intros n cells cleared Hlen Hfuel; [ lia | ].
  destruct n as [| m].
  - simpl. now rewrite Z.add_0_r.
  - cbn [clearLoop].
    replace (Z.of_nat (S m) - 1 >=? 0) with true by (symmetry; apply Z.geb_le; lia).
    replace (Z.to_nat (Z.of_nat (S m) - 1)) with m by lia.
    destruct (lookup_lt_is_Some_2 cells m) as [rowm Hm]; [ lia | ].
    rewrite (nth_lookup_Some _ _ _ _ Hm).
    rewrite (take_S_r _ _ _ Hm) in *.
    rewrite fullRows_app, keptRows_app, fullRows_one, keptRows_one in *.
    destruct (rowFull rowm) eqn:Efull.
    + replace (Z.of_nat (S m) - 1 + 1 - 1) with (Z.of_nat (S m) - 1) by lia.
      rewrite removeRow_eq by lia.
      assert (take (S m) (emptyRow :: take m cells ++ drop (S m) cells)
              = [emptyRow] ++ take m cells) as Htake.
      { cbn [take app]. f_equal. rewrite take_app_le by (rewrite length_take; lia).
        rewrite take_take. f_equal. lia. }
      assert (drop (S m) (emptyRow :: take m cells ++ drop (S m) cells)
              = drop (S m) cells) as Hdrop.
      { cbn [drop]. rewrite drop_app_length'; [ reflexivity | ].
        rewrite length_take. lia. }
      assert (fullRows ([emptyRow] ++ take m cells) = fullRows (take m cells)) as Hfr.
      { rewrite fullRows_app. reflexivity. }
      rewrite IH.
      * rewrite Htake, Hdrop, Hfr, keptRows_app.
        change (keptRows [emptyRow]) with [emptyRow].
        f_equal. f_equal; [ lia | ].
        rewrite Nat.add_1_r. rewrite <- replicate_snoc.
        rewrite app_nil_r. now rewrite <- !app_assoc.
      * cbn [length]. rewrite length_app, length_take, length_drop. lia.
      * rewrite Htake, Hfr. lia.
    + replace (Z.of_nat (S m) - 1 - 1) with (Z.of_nat m - 1) by lia.
      rewrite IH by lia.
      rewrite Nat.add_0_r. f_equal. f_equal.
      rewrite (drop_S _ _ _ Hm). now rewrite <- !app_assoc.
Qed.

Lemma fullRows_le (b : Board) : (fullRows b <= length b)%nat.
Proof. unfold fullRows. apply filter_length_le. Qed.

Lemma clearLines_total (b : Board) :
  wfBoard b -> clearLines b = Some (Z.of_nat (fullRows b), compacted b).
Proof.
  intros (Hlen & _). unfold clearLines, compacted.
  change (BOARD_H - 1) with (Z.of_nat 20 - 1).
  change (Z.to_nat BOARD_H) with 20%nat in Hlen.
  pose proof (fullRows_le b) as Hle.
  rewrite clearLoop_spec.
  - rewrite take_ge, drop_ge by lia. now rewrite app_nil_r.
  - lia.
  - rewrite take_ge by lia. unfold clearFuel, BOARD_H. lia.
Qed.

Lemma noFull_rows (l : Board) :
  Forall (fun row => rowFull row = false) l -> fullRows l = 0%nat /\ keptRows l = l.
Proof.
  unfold fullRows, keptRows. induction 1 as [| row rest Hrow _ (IH1 & IH2)]; simpl.
  - split; reflexivity.
  - rewrite Hrow. simpl. split; [ exact IH1 | now rewrite IH2 ].
Qed.

Lemma Forall_nth_rows (P : list Z -> Prop) (l : Board) :
  (forall r, (r < length l)%nat -> P (nth r l [])) -> Forall P l.
Proof.
  intros H. apply Forall_lookup. intros r row Hr.
  rewrite <- (nth_lookup_Some _ _ [] _ Hr). apply H.
  now apply lookup_lt_Some in Hr.
Qed.

Lemma nth_take_rows (l : Board) (n r : nat) :
  (r < n)%nat -> nth r (take n l) [] = nth r l [].
Proof. intros. now rewrite !nth_lookup, lookup_take_lt. Qed.

Lemma nth_drop_rows (l : Board) (n r : nat) :
  nth r (drop n l) [] = nth (n + r) l [].
Proof. now rewrite !nth_lookup, lookup_drop. Qed.

Lemma nth_app_rows (l1 l2 : Board) (r : nat) :
  nth r (l1 ++ l2) [] =
  if decide (r < length l1)%nat then nth r l1 [] else nth (r - length l1) l2 [].
Proof.
  case_decide.
  - now apply app_nth1.
  - apply app_nth2. lia.
Qed.

(** A board with exactly the two full rows [R1 < R2]. *)
Lemma two_full_split (b : Board) (R1 R2 : nat) :
  length b = 20%nat -> (R1 < R2 < 20)%nat ->
  (forall r, (r < 20)%nat -> rowFull (nth r b []) = true <-> r = R1 \/ r = R2) ->
  fullRows b = 2%nat /\
  keptRows b = take R1 b ++ take (R2 - S R1) (drop (S R1) b) ++ drop (S R2) b.
Proof.
  intros Hlen HR Hfull.
  destruct (lookup_lt_is_Some_2 b R1) as [f1 H1]; [ lia | ].
  destruct (lookup_lt_is_Some_2 b R2) as [f2 H2]; [ lia | ].
  assert (drop (S R1) b !! (R2 - S R1)%nat = Some f2) as H2'.
  { rewrite lookup_drop. replace (S R1 + (R2 - S R1))%nat with R2 by lia. exact H2. }
  pose proof (take_drop_middle _ _ _ H1) as Hb.
  pose proof (take_drop_middle _ _ _ H2') as Hd.
  rewrite drop_drop in Hd.
  replace (S R1 + S (R2 - S R1))%nat with (S R2) in Hd by lia.
  assert (rowFull f1 = true) as Hf1.
  { rewrite <- (nth_lookup_Some _ _ [] _ H1). apply Hfull; lia. }
  assert (rowFull f2 = true) as Hf2.
  { rewrite <- (nth_lookup_Some _ _ [] _ H2). apply Hfull; lia. }
  assert (forall r, (r < 20)%nat -> r <> R1 -> r <> R2 -> rowFull (nth r b []) = false)
    as Hother.
  { intros r Hr Hn1 Hn2. apply not_true_iff_false. rewrite Hfull by exact Hr. lia. }
  destruct (noFull_rows (take R1 b)) as (HA1 & HA2).
  { apply Forall_nth_rows. intros r Hr. rewrite length_take in Hr.
    rewrite nth_take_rows by lia. apply Hother; lia. }
  destruct (noFull_rows (take (R2 - S R1) (drop (S R1) b))) as (HB1 & HB2).
  { apply Forall_nth_rows. intros r Hr. rewrite length_take, length_drop in Hr.
    rewrite nth_take_rows by lia. rewrite nth_drop_rows. apply Hother; lia. }
  destruct (noFull_rows (drop (S R2) b)) as (HC1 & HC2).
  { apply Forall_nth_rows. intros r Hr. rewrite length_drop in Hr.
    rewrite nth_drop_rows. apply Hother; lia. }
  assert (b = take R1 b ++ [f1] ++ take (R2 - S R1) (drop (S R1) b)
                 ++ [f2] ++ drop (S R2) b) as Heq.
  { symmetry. etransitivity; [ | exact Hb ]. simpl. do 2 f_equal. exact Hd. }
  rewrite (f_equal fullRows Heq), (f_equal keptRows Heq).
  rewrite !fullRows_app, !keptRows_app.
  rewrite !fullRows_one, !keptRows_one, Hf1, Hf2, HA1, HA2, HB1, HB2, HC1, HC2.
  split; reflexivity.
Qed.

Lemma compacted_length (b : Board) : length (compacted b) = length b.
Proof.
  unfold compacted, fullRows, keptRows. rewrite length_app, length_replicate.
  induction b as [| row rest IH]; simpl; [ reflexivity | ].
  destruct (rowFull row); simpl; lia.
Qed.

Lemma compacted_wf (b : Board) : wfBoard b -> wfBoard (compacted b).
Proof.
  intros (Hlen & Hrows). split; [ now rewrite compacted_length | ].
  unfold compacted. apply Forall_app. split.
  - apply Forall_forall. intros row Hin. apply elem_of_replicate in Hin as (-> & _).
    reflexivity.
  - unfold keptRows. clear Hlen.
    induction Hrows as [| row rest Hrow _ IH]; simpl; [ constructor | ].
    destruct (rowFull row); simpl; [ exact IH | now constructor ].
Qed.

Lemma compacted_noFull (b : Board) :
  Forall (fun row => rowFull row = false) (compacted b).
Proof.
  unfold compacted. apply Forall_app. split.
  - apply Forall_forall. intros row Hin. apply elem_of_replicate in Hin as (-> & _).
    reflexivity.
  - unfold keptRows. induction b as [| row rest IH]; simpl; [ constructor | ].
    destruct (rowFull row) eqn:E; simpl; [ exact IH | now constructor ].
Qed.

(** C2. A row is full exactly when none of its 10 cells is 0.  One iteration
    of the loop of [clearLines] at row [r >= 0] either finds the row full,
    counts it, removes it and examines the same index [r] again, or moves to
    row [r - 1]; removing a row moves every row above it down by one and
    empties row 0.  Run from the bottom row the loop ends (within [clearFuel]
    iterations) and returns the number of full rows of the board, leaving the
    other rows in their order under that many empty rows, so no full row is
    skipped.  With exactly two full rows [R1] above [R2] it returns 2, the
    rows above [R1] move down by two, the rows between them by one, the rows
    below [R2] stay, the two top rows are empty and no full row is left. *)
Theorem clearLines_spec (b : Board) :
  wfBoard b ->
  (forall row, rowFull row = true <->
     forall c, (c < Z.to_nat BOARD_W)%nat -> nth c row 0 <> 0)
  /\ (forall fuel r cleared, 0 <= r ->
       clearLoop (S fuel) r b cleared =
       if rowFull (nth (Z.to_nat r) b [])
       then clearLoop fuel r (removeRow (Z.to_nat r) b) (cleared + 1)
       else clearLoop fuel (r - 1) b cleared)
  /\ (forall r, (r < length b)%nat ->
       removeRow r b = emptyRow :: take r b ++ drop (S r) b)
  /\ clearLines b = Some (Z.of_nat (fullRows b), compacted b)
  /\ (forall R1 R2 : nat,
       (R1 < R2 < 20)%nat ->
       (forall r, (r < 20)%nat -> rowFull (nth r b []) = true <-> r = R1 \/ r = R2) ->
       exists b',
         clearLines b = Some (2, b') /\ wfBoard b'
         /\ nth 0 b' [] = emptyRow /\ nth 1 b' [] = emptyRow
         /\ (forall r, (r < R1)%nat -> nth (r + 2) b' [] = nth r b [])
         /\ (forall r, (R1 < r < R2)%nat -> nth (r + 1) b' [] = nth r b [])
         /\ (forall r, (R2 < r < 20)%nat -> nth r b' [] = nth r b [])
         /\ (forall r, (r < 20)%nat -> rowFull (nth r b' []) = false)).
Proof.
  intros Hwf.
  split.
  { intros row. unfold rowFull. rewrite forallb_forall. split.
    - intros H c Hc. specialize (H c). rewrite in_seq in H.
      apply Z.eqb_neq, negb_true_iff, H. lia.
    - intros H c Hc. apply in_seq in Hc. apply negb_true_iff, Z.eqb_neq, H. lia. }
  split.
  { intros fuel r cleared Hr. cbn [clearLoop].
    replace (r >=? 0) with true by (symmetry; apply Z.geb_le; lia).
    now replace (r + 1 - 1) with r by lia. }
  split; [ intros r Hr; now apply removeRow_eq | ].
  split; [ now apply clearLines_total | ].
  intros R1 R2 HR Hfull. exists (compacted b).
  pose proof Hwf as (Hlen & _). change (Z.to_nat BOARD_H) with 20%nat in Hlen.
  destruct (two_full_split b R1 R2 Hlen HR Hfull) as (Hn & Hk).
  split; [ rewrite clearLines_total by exact Hwf; now rewrite Hn | ].
  split; [ now apply compacted_wf | ].
  assert (forall r, (r < 20)%nat -> rowFull (nth r (compacted b) []) = false) as Hnone.
  { intros r Hr. pose proof (compacted_noFull b) as Hall.
    rewrite Forall_lookup in Hall.
    destruct (lookup_lt_is_Some_2 (compacted b) r) as [row Hrow];
      [ rewrite compacted_length; lia | ].
    rewrite (nth_lookup_Some _ _ _ _ Hrow). exact (Hall r row Hrow). }
  unfold compacted in *. rewrite Hn, Hk in *. clear Hn Hk.
  change (replicate 2 emptyRow) with [emptyRow; emptyRow].
  cbn [app].
  split; [ reflexivity | split; [ reflexivity | ] ].
  split; [ | split; [ | split; [ | exact Hnone ] ] ].
  - intros r Hr. replace (r + 2)%nat with (S (S r)) by lia. cbn [nth].
    rewrite nth_app_rows, length_take. case_decide; [ | lia ].
    now apply nth_take_rows.
  - intros r Hr. replace (r + 1)%nat with (S (S (r - 1))) by lia. cbn [nth].
    rewrite nth_app_rows, length_take. case_decide; [ lia | ].
    rewrite nth_app_rows, length_take, length_drop. case_decide; [ | lia ].
    rewrite nth_take_rows by lia. rewrite nth_drop_rows. f_equal. lia.
  - intros r Hr. destruct r as [| [| r]]; [ lia | lia | ]. cbn [nth].
    rewrite nth_app_rows, length_take. case_decide; [ lia | ].
    rewrite nth_app_rows, length_take, length_drop. case_decide; [ lia | ].
    rewrite nth_drop_rows. f_equal. lia.
Qed.

(** Rows 17 and 19 full, row 18 and row 16 partly filled. *)
Lemma clearLines_spec_witness :
  exists b',
    clearLines (replicate 16 emptyRow ++
                [[1; 0; 0; 0; 0; 0; 0; 0; 0; 2]; replicate 10 3;
                 [0; 5; 5; 0; 0; 0; 0; 0; 0; 0]; replicate 10 4]) = Some (2, b')
    /\ nth 18 b' [] = [1; 0; 0; 0; 0; 0; 0; 0; 0; 2]
    /\ nth 19 b' [] = [0; 5; 5; 0; 0; 0; 0; 0; 0; 0]
    /\ nth 0 b' [] = emptyRow /\ nth 1 b' [] = emptyRow.
Proof.
  assert (wfBoard (replicate 16 emptyRow ++
                [[1; 0; 0; 0; 0; 0; 0; 0; 0; 2]; replicate 10 3;
                 [0; 5; 5; 0; 0; 0; 0; 0; 0; 0]; replicate 10 4])) as Hwf.
  { split; [ reflexivity | repeat constructor ]. }
  destruct (clearLines_spec _ Hwf) as (_ & _ & _ & _ & Htwo).
  destruct (Htwo 17%nat 19%nat) as (b' & Hres & _ & H0 & H1 & Habove & Hmid & _).
  { lia. }
  { intros r Hr.
    do 20 (destruct r as [| r]; [ vm_compute; intuition (discriminate || lia) | ]).
    lia. }
  exists b'. split; [ exact Hres | ].
  split; [ apply (Habove 16%nat); lia | ].
  split; [ apply (Hmid 18%nat); lia | ].
  split; assumption.
Defined.

(** ** Bag randomizer *)

Section BagFairness.
Context {Rng : Type} (shuffle : Rng -> list Z -> list Z * Rng).
(** [std::shuffle] reorders the elements of the range it is given. *)
Hypothesis shuffle_perm : forall g l, fst (shuffle g l) ≡ₚ l.

Local Abbreviation Bag := (Randomizer.Bag Rng).
Local Abbreviation next := (Randomizer.next shuffle).
Local Abbreviation draws := (Randomizer.draws shuffle).
Local Abbreviation refill := (Randomizer.refill shuffle).
Local Abbreviation newBag := (Randomizer.newBag shuffle).

Local Abbreviation atRefill := (Randomizer.atRefill shuffle).

Lemma refill_perm (s : Bag) : Randomizer.bag (refill s) ≡ₚ Randomizer.allTypes.
Proof.
  unfold Randomizer.refill.
  pose proof (shuffle_perm (Randomizer.rng s) Randomizer.allTypes) as Hp.
  destruct (shuffle (Randomizer.rng s) Randomizer.allTypes) as [l g]. exact Hp.
Qed.

Lemma next_snoc (l : list Z) (v : Z) (g : Rng) :
  next (Randomizer.mkBag (l ++ [v]) g) = (v, Randomizer.mkBag l g).
Proof.
  unfold Randomizer.next. cbn [Randomizer.bag Randomizer.rng].
  assert (forall a b : Bag, match l ++ [v] with [] => a | _ :: _ => b end = b)
    as -> by (intros; now destruct l).
  cbn [Randomizer.bag Randomizer.rng].
  now rewrite last_last, removelast_last.
Qed.

(** Drawing a whole queue gives its elements from the back. *)
Lemma draws_queue (l : list Z) (g : Rng) :
  draws (length l) (Randomizer.mkBag l g) = (rev l, Randomizer.mkBag [] g).
Proof.
  induction l as [| v l IH] using rev_ind; [ reflexivity | ].
  rewrite length_app, Nat.add_1_r. cbn [Randomizer.draws].
  rewrite next_snoc, IH. now rewrite rev_unit.
Qed.

Lemma next_nonempty (s : Bag) :
  Randomizer.bag s <> [] ->
  next s = (List.last (Randomizer.bag s) 0,
            Randomizer.mkBag (removelast (Randomizer.bag s)) (Randomizer.rng s)).
Proof.
  destruct s as [q g]. cbn [Randomizer.bag Randomizer.rng]. intros Hne.
  destruct q; [ contradiction | reflexivity ].
Qed.

Lemma next_empty (s : Bag) :
  Randomizer.bag s = [] -> next s = next (refill s).
Proof.
  intros He. rewrite (next_nonempty (refill s)).
  - destruct s as [q g]. cbn [Randomizer.bag] in He. now subst q.
  - intros Hnil. pose proof (refill_perm s) as Hp. rewrite Hnil in Hp.
    apply Permutation_nil in Hp. discriminate.
Qed.

Lemma draws_refilled (s : Bag) (l : list Z) (s' : Bag) :
  draws 7 (refill s) = (l, s') ->
  l ≡ₚ Randomizer.allTypes /\ Randomizer.bag s' = [].
Proof.
  pose proof (refill_perm s) as Hp.
  destruct (refill s) as [q g].
  cbn [Randomizer.bag] in Hp.
  assert (length q = 7%nat) as Hlen by (now rewrite Hp).
  rewrite <- Hlen, draws_queue. intros [= <- <-]. split; [ | reflexivity ].
  rewrite <- Hp. symmetry. apply Permutation_rev.
Qed.

Lemma draws_atRefill (s : Bag) (l : list Z) (s' : Bag) :
  atRefill s -> draws 7 s = (l, s') ->
  l ≡ₚ Randomizer.allTypes /\ Randomizer.bag s' = [].
Proof.
  intros [He | (seed & ->)] Hd.
  - apply (draws_refilled s). rewrite <- Hd.
    cbn [Randomizer.draws]. now rewrite (next_empty s He).
  - exact (draws_refilled _ _ _ Hd).
Qed.

Lemma draws_add (a b : nat) (s : Bag) :
  draws (a + b) s =
  let '(l1, s1) := draws a s in
  let '(l2, s2) := draws b s1 in (l1 ++ l2, s2).
Proof.
  revert s. induction a as [| a IH]; intros s; cbn [Nat.add Randomizer.draws].
  - now destruct (draws b s).
  - destruct (next s) as [t s1]. rewrite IH.
    destruct (draws a s1) as [l1 s2]. now destruct (draws b s2).
Qed.

Lemma draws_length (n : nat) (s : Bag) : length (fst (draws n s)) = n.
Proof.
  revert s. induction n as [| n IH]; intros s; cbn [Randomizer.draws]; [ reflexivity | ].
  destruct (next s) as [t s1]. specialize (IH s1).
  destruct (draws n s1) as [l s2]. simpl in *. now rewrite IH.
Qed.

Lemma draws_blocks (seed : Rng) (n : nat) :
  atRefill (snd (draws (7 * n) (newBag seed))).
Proof.
  induction n as [| n IH].
  - right. now exists seed.
  - replace (7 * S n)%nat with (7 * n + 7)%nat by lia.
    rewrite draws_add.
    destruct (draws (7 * n) (newBag seed)) as [l1 s1]. cbn [snd] in IH.
    destruct (draws 7 s1) as [l2 s2] eqn:E2. cbn [snd].
    left. exact (proj2 (draws_atRefill s1 l2 s2 IH E2)).
Qed.

(** C6. From every point at which the next draw starts a fresh bag (the
    queue is empty, or the bag has just been constructed) the next 7 draws
    are a permutation of the type ids 0..6, so each id is drawn exactly
    once, and they end at such a point again; hence the draws
    [7n .. 7n+6] of a new bag are a permutation of 0..6 for every [n],
    whatever permutations the shuffle chooses. *)
Theorem bag_fair :
  (forall (s : Bag) (l : list Z) (s' : Bag),
      atRefill s -> draws 7 s = (l, s') ->
      l ≡ₚ Randomizer.allTypes
      /\ (forall t, 0 <= t <= 6 -> count_occ Z.eq_dec l t = 1%nat)
      /\ atRefill s')
  /\ (forall (seed : Rng) (n : nat),
      take 7 (drop (7 * n) (fst (draws (7 * n + 7) (newBag seed))))
      ≡ₚ Randomizer.allTypes).
Proof.
  split.
  - intros s l s' Hs Hd.
    destruct (draws_atRefill s l s' Hs Hd) as (Hp & He).
    split; [ exact Hp | split; [ | now left ] ].
    intros t Ht. rewrite (Permutation_count_occ Z.eq_dec) in Hp. rewrite Hp.
    assert (t = 0 \/ t = 1 \/ t = 2 \/ t = 3 \/ t = 4 \/ t = 5 \/ t = 6) as Hc by lia.
    destruct Hc as [-> | [-> | [-> | [-> | [-> | [-> | ->]]]]]]; reflexivity.
  - intros seed n. rewrite draws_add.
    pose proof (draws_blocks seed n) as Hat.
    pose proof (draws_length (7 * n) (newBag seed)) as Hlen.
    destruct (draws (7 * n) (newBag seed)) as [l1 s1]. cbn [fst snd] in *.
    destruct (draws 7 s1) as [l2 s2] eqn:E2. cbn [fst].
    destruct (draws_atRefill s1 l2 s2 Hat E2) as (Hp & _).
    rewrite drop_app_length' by (symmetry; exact Hlen).
    rewrite take_ge; [ exact Hp | ]. rewrite Hp. reflexivity.
Qed.
End BagFairness.

(** A generator that counts the refills and a shuffle that reverses the
    vector: the third bag of a new randomizer. *)
Lemma bag_fair_witness :
  take 7 (drop 14 (fst (Randomizer.draws (fun (g : nat) l => (rev l, S g)) 21
                          (Randomizer.newBag (fun (g : nat) l => (rev l, S g)) 0%nat))))
  ≡ₚ Randomizer.allTypes.
Proof.
  apply (proj2 (bag_fair (fun (g : nat) l => (rev l, S g))
                  (fun g l => Permutation_sym (Permutation_rev l))) 0%nat 2%nat).
Defined.

(** ** Order of IEEE-754 values *)

Ltac sf_compare :=
  unfold SFltb, SFleb, SFcompare;
  repeat match goal with
    | x : spec_float |- _ => destruct x as [[|] | [|] | | [|] ? ?]
    end;
  try (intros; discriminate); try (intros; reflexivity);
  change (Pos.compare_cont Eq) with Pos.compare;
  repeat match goal with
    | |- context [Z.compare ?a ?b] =>
        destruct (Z.compare_spec a b); try subst a
    | |- context [Pos.compare ?a ?b] =>
        destruct (Pos.compare_spec a b); try subst a
    end;
  cbn [CompOpp];
  try (intros; discriminate); try (intros; reflexivity);
  intros; exfalso; lia.

Lemma SFltb_irrefl (u : spec_float) : SFltb u u = false.
Proof. sf_compare. Qed.

Lemma SFltb_trans (u v w : spec_float) :
  SFltb u v = true -> SFltb v w = true -> SFltb u w = true.
Proof. sf_compare. Qed.

Lemma SFltb_leb_trans (u v w : spec_float) :
  SFltb u v = true -> SFleb v w = true -> SFltb u w = true.
Proof. sf_compare. Qed.

(** ** Placement search *)

Lemma setCell_wf (b : Board) (r c v : Z) : wfBoard b -> wfBoard (setCell b r c v).
Proof.
  intros (Hlen & Hrows). unfold setCell. split; [ now rewrite length_insert | ].
  destruct (decide (Z.to_nat r < length b)%nat) as [Hr | Hr].
  - apply Forall_insert; [ exact Hrows | ].
    rewrite length_insert.
    destruct (lookup_lt_is_Some_2 b (Z.to_nat r) Hr) as [row Hrow].
    rewrite (nth_lookup_Some _ _ _ _ Hrow).
    rewrite Forall_lookup in Hrows. exact (Hrows _ _ Hrow).
  - rewrite list_insert_ge by lia. exact Hrows.
Qed.

Lemma placePiece_wf (b : Board) (shape : Matrix4) (topR leftC color : Z) :
  wfBoard b -> wfBoard (placePiece b shape topR leftC color).
Proof.
  unfold placePiece. generalize idx4 at 2. intros rows. revert b.
  induction rows as [| i rows IH]; intros b Hwf; [ exact Hwf | ].
  cbn [fold_left]. apply IH. clear IH.
  generalize idx4. intros cols. revert b Hwf.
  induction cols as [| j cols IH]; intros b Hwf; [ exact Hwf | ].
  cbn [fold_left]. apply IH.
  destruct (cell shape i j =? 0); [ exact Hwf | ].
  destruct (inBounds (topR + i) (leftC + j)); [ now apply setCell_wf | exact Hwf ].
Qed.

Lemma dropPosition_some (fuel : nat) (b : Board) (shape : Matrix4) (leftC : Z) :
  (exists i j, occupied shape i j) -> (dropFuel <= fuel)%nat ->
  exists t, dropPosition fuel b shape leftC = Some t.
Proof.
  intros (i & j & Ho) Hfuel.
  destruct (dropLoop_stops dropFuel b shape leftC (-4) i j Ho) as (r & Hr).
  { unfold dropFuel, BOARD_H. lia. }
  { destruct Ho as (Hi & _). unfold dropFuel, BOARD_H. lia. }
  unfold dropPosition.
  replace fuel with (dropFuel + (fuel - dropFuel))%nat by lia.
  rewrite (dropLoop_more _ _ _ _ _ _ _ Hr).
  destruct (collides b shape r leftC); eauto.
Qed.

Lemma candidateAt_total (fuel : nat) (board : Board) (piece : Tetromino)
    (rIdx : Z) (shape : Matrix4) (left : Z) :
  wfBoard board -> (dropFuel <= fuel)%nat -> (exists i j, occupied shape i j) ->
  Search.candidateAt fuel board piece rIdx shape left <> None.
Proof.
  intros Hwf Hfuel Hocc. unfold Search.candidateAt.
  destruct (dropPosition_some fuel board shape left Hocc Hfuel) as (t & ->).
  destruct (t =? INT_MIN); [ discriminate | ].
  rewrite clearLines_total by (now apply placePiece_wf). discriminate.
Qed.

(** A loop whose iterations all have a result is a plain left fold over the
    candidates it scores. *)
Lemma foldOpt_update {B : Type} (F : B -> option (option Search.MoveDecision))
    (l : list B) (best : Search.MoveDecision) :
  (forall v, In v l -> F v <> None) ->
  foldOpt (fun bst v =>
    match F v with
    | None => None
    | Some None => Some bst
    | Some (Some c) => Some (Search.update bst c)
    end) l best
  = Some (fold_left Search.update
            (flat_map (fun v => match F v with Some (Some c) => [c] | _ => [] end) l)
            best).
Proof.
  revert best. induction l as [| v l IH]; intros best Hall; [ reflexivity | ].
  cbn [foldOpt flat_map]. rewrite fold_left_app.
  pose proof (Hall v (or_introl eq_refl)) as Hv.
  destruct (F v) as [[c |] |]; [ | | contradiction ];
    cbn [fold_left]; apply IH; intros w Hw; apply Hall; now right.
Qed.

Lemma foldOpt_lists {B : Type} (G : B -> list Search.MoveDecision)
    (f : Search.MoveDecision -> B -> option Search.MoveDecision)
    (l : list B) (best : Search.MoveDecision) :
  (forall v bst, In v l -> f bst v = Some (fold_left Search.update (G v) bst)) ->
  foldOpt f l best = Some (fold_left Search.update (flat_map G l) best).
Proof.
  revert best. induction l as [| v l IH]; intros best Hall; [ reflexivity | ].
  cbn [foldOpt flat_map]. rewrite fold_left_app.
  rewrite (Hall v best (or_introl eq_refl)).
  apply IH. intros w bst Hw. apply Hall. now right.
Qed.

Lemma In_indexed (sts : list Matrix4) (k : Z) (m : Matrix4) :
  In (k, m) (Search.indexed sts) <-> 0 <= k /\ sts !! Z.to_nat k = Some m.
Proof.
  unfold Search.indexed. rewrite <- list_elem_of_In, list_elem_of_lookup. split.
  - intros (n & Hn). rewrite list_lookup_imap in Hn.
    destruct (sts !! n) as [m' |] eqn:E; [ | discriminate ].
    injection Hn as <- <-. split; [ lia | ]. now rewrite Nat2Z.id.
  - intros (Hk & Hm). exists (Z.to_nat k). rewrite list_lookup_imap, Hm.
    cbn. do 2 f_equal. lia.
Qed.

Lemma findBestMove_fold (fuel : nat) (board : Board) (tets : list Tetromino)
    (pieceType : Z) (piece : Tetromino) :
  wfBoard board -> (dropFuel <= fuel)%nat -> 0 <= pieceType ->
  tets !! Z.to_nat pieceType = Some piece ->
  Forall (fun shape => exists i j, occupied shape i j) (states piece) ->
  Search.findBestMove fuel board tets pieceType
  = Some (fold_left Search.update (candidates fuel board piece) Search.sentinel).
Proof.
  intros Hwf Hfuel Hty Hpiece Hshapes. unfold Search.findBestMove.
  replace (pieceType <? 0) with false by (symmetry; apply Z.ltb_ge; lia).
  rewrite Hpiece. unfold candidates.
  apply foldOpt_lists. intros [k shape] bst Hin. unfold Search.offsetLoop.
  apply (foldOpt_update
           (fun left => Search.candidateAt fuel board piece k shape left)).
  intros left _. apply candidateAt_total; [ exact Hwf | exact Hfuel | ].
  apply In_indexed in Hin as (_ & Hm).
  rewrite Forall_lookup in Hshapes. exact (Hshapes _ _ Hm).
Qed.

(** The running best of a fold with strict-greater updates is the first
    maximum of what has been seen. *)
Lemma fold_update_firstMax (cands seen : list Search.MoveDecision)
    (best : Search.MoveDecision) :
  firstMax best seen ->
  firstMax (fold_left Search.update cands best) (seen ++ cands).
Proof.
  revert seen best. induction cands as [| c cands IH]; intros seen best Hinv.
  - now rewrite app_nil_r.
  - cbn [fold_left].
    replace (seen ++ c :: cands) with ((seen ++ [c]) ++ cands)
      by (now rewrite <- app_assoc).
    apply IH. clear IH. destruct Hinv as (k & Hk & Hmax & Hfirst).
    unfold Search.update.
    destruct (SFltb (Search.score best) (Search.score c)) eqn:Hlt.
    + exists (length seen). split; [ | split ].
      * rewrite lookup_app_r by lia. now rewrite Nat.sub_diag.
      * intros d Hd. apply in_app_or in Hd as [Hd | [<- | []]].
        -- apply not_true_iff_false. intros Hcd.
           pose proof (SFltb_trans _ _ _ Hlt Hcd) as Hbd.
           rewrite (Hmax d Hd) in Hbd. discriminate.
        -- apply SFltb_irrefl.
      * intros j d Hj Hd. rewrite lookup_app_l in Hd by exact Hj.
        apply not_true_iff_false. intros Hcd.
        pose proof (SFltb_leb_trans _ _ _ Hlt Hcd) as Hbd.
        assert (In d seen) as Hin
          by (apply list_elem_of_In, list_elem_of_lookup; eauto).
        rewrite (Hmax d Hin) in Hbd. discriminate.
    + exists k. split; [ | split ].
      * now apply lookup_app_l_Some.
      * intros d Hd. apply in_app_or in Hd as [Hd | [<- | []]];
          [ now apply Hmax | exact Hlt ].
      * intros j d Hj Hd. apply (Hfirst j d Hj).
        rewrite lookup_app_l in Hd; [ exact Hd | ].
        apply lookup_lt_Some in Hk. lia.
Qed.

Lemma In_offsets (left : Z) : In left Search.offsets <-> -4 <= left <= BOARD_W.
Proof.
  unfold Search.offsets, BOARD_W. rewrite in_map_iff. split.
  - intros (k & <- & Hk). apply in_seq in Hk. lia.
  - intros Hl. exists (Z.to_nat (left + 4)). split; [ lia | apply in_seq; lia ].
Qed.

Lemma In_candidates (fuel : nat) (board : Board) (piece : Tetromino)
    (c : Search.MoveDecision) :
  In c (candidates fuel board piece) <->
  exists (k : nat) shape left top nlines b3,
    states piece !! k = Some shape /\ -4 <= left <= BOARD_W
    /\ dropPosition fuel board shape left = Some top /\ top <> INT_MIN
    /\ clearLines (placePiece board shape top left (colorId piece)) = Some (nlines, b3)
    /\ c = Search.mkMove (Z.of_nat k) left
             (Search.heuristic nlines (holes b3) (aggregateHeight b3) (bumpiness b3))
             nlines.
Proof.
  unfold candidates. rewrite in_flat_map. split.
  - intros ([k shape] & Hst & Hin). apply in_flat_map in Hin as (left & Hleft & Hc).
    apply In_indexed in Hst as (Hk & Hshape). apply In_offsets in Hleft.
    cbn [fst snd] in Hc. unfold Search.candidateAt in Hc.
    destruct (dropPosition fuel board shape left) as [top |] eqn:Edrop; [ | destruct Hc ].
    destruct (top =? INT_MIN) eqn:Etop; [ destruct Hc | ].
    destruct (clearLines (placePiece board shape top left (colorId piece)))
      as [[nlines b3] |] eqn:Eclear; [ | destruct Hc ].
    destruct Hc as [<- | []].
    exists (Z.to_nat k), shape, left, top, nlines, b3.
    apply Z.eqb_neq in Etop. rewrite Z2Nat.id by exact Hk. auto 10.
  - intros (k & shape & left & top & nlines & b3 & Hshape & Hleft & Edrop & Etop
            & Eclear & ->).
    exists (Z.of_nat k, shape). split.
    + apply In_indexed. split; [ lia | now rewrite Nat2Z.id ].
    + apply in_flat_map. exists left. split; [ now apply In_offsets | ].
      cbn [fst snd]. unfold Search.candidateAt. rewrite Edrop.
      apply Z.eqb_neq in Etop. rewrite Etop, Eclear. now left.
Qed.

Lemma firstMax_start : firstMax Search.sentinel [Search.sentinel].
Proof.
  exists 0%nat. split; [ reflexivity | split ].
  - intros c [<- | []]. apply SFltb_irrefl.
  - intros j c Hj. lia.
Qed.


(** ** The constants of the heuristic as binary64 values *)


(** ** Magnitude of binary64 results *)

Lemma digits2_size (p : positive) : digits2_pos p = Pos.size p.
Proof. induction p as [p IH | p IH |]; simpl; now rewrite ?IH. Qed.

Lemma Zdigits2_log2 (m : Z) : 0 < m -> Zdigits2 m = Z.log2 m + 1.
Proof.
  destruct m as [| p | p]; try lia. intros _. simpl Zdigits2.
  rewrite digits2_size. destruct p as [p | p |]; simpl; lia.
Qed.

Lemma Zdigits2_nonneg (m : Z) : 0 <= m -> 0 <= Zdigits2 m.
Proof. destruct m; simpl; lia. Qed.

Lemma Zdigits2_mono (m n : Z) : 0 <= m <= n -> Zdigits2 m <= Zdigits2 n.
Proof.
  intros Hmn. destruct (Z.eq_dec m 0) as [-> | Hm].
  - apply Zdigits2_nonneg. lia.
  - rewrite !Zdigits2_log2 by lia. pose proof (Z.log2_le_mono m n). lia.
Qed.

Lemma Zdigits2_succ (m : Z) : 0 <= m -> Zdigits2 (m + 1) <= Zdigits2 m + 1.
Proof.
  intros Hm. destruct (Z.eq_dec m 0) as [-> | Hne]; [ simpl; lia | ].
  rewrite !Zdigits2_log2 by lia.
  pose proof (Z.log2_succ_le m). unfold Z.succ in *. lia.
Qed.

Lemma Zdigits2_mul (m n : Z) :
  0 < m -> 0 < n -> Zdigits2 (m * n) <= Zdigits2 m + Zdigits2 n.
Proof.
  intros Hm Hn. rewrite !Zdigits2_log2 by lia.
  pose proof (Z.log2_mul_above m n). lia.
Qed.

Lemma Zdigits2_add (m n : Z) :
  0 <= m -> 0 <= n -> Zdigits2 (m + n) <= Z.max (Zdigits2 m) (Zdigits2 n) + 1.
Proof.
  intros Hm Hn.
  assert (forall u v, 0 <= v <= u -> Zdigits2 (u + v) <= Zdigits2 u + 1) as Hle.
  { intros u v Huv. destruct (Z.eq_dec u 0) as [-> | Hu].
    - assert (v = 0) as -> by lia. simpl. lia.
    - transitivity (Zdigits2 (2 * u)); [ apply Zdigits2_mono; lia | ].
      rewrite !Zdigits2_log2 by lia. rewrite Z.log2_double by lia. lia. }
  destruct (Z.le_ge_cases n m) as [H | H].
  - specialize (Hle m n). lia.
  - specialize (Hle n m). rewrite (Z.add_comm m n). lia.
Qed.

Lemma Zdigits2_shift (p d : positive) :
  Zdigits2 (Zpos (Pos.iter xO p d)) = Zdigits2 (Zpos p) + Zpos d.
Proof.
  simpl Zdigits2. induction d as [| d IH] using Pos.peano_ind.
  - simpl. lia.
  - rewrite Pos.iter_succ. simpl digits2_pos. lia.
Qed.

Lemma Zpos_shift (p d : positive) :
  Zpos (Pos.iter xO p d) = Zpos p * 2 ^ Zpos d.
Proof.
  induction d as [| d IH] using Pos.peano_ind.
  - simpl. lia.
  - rewrite Pos.iter_succ, Pos2Z.inj_succ, Z.pow_succ_r by lia.
    rewrite Pos2Z.inj_xO, IH. lia.
Qed.

Lemma shr_1_digits (mrs : shr_record) :
  0 <= shr_m mrs ->
  0 <= shr_m (shr_1 mrs)
  /\ Zdigits2 (shr_m (shr_1 mrs)) = Z.max 0 (Zdigits2 (shr_m mrs) - 1).
Proof.
  destruct mrs as [m r s]. simpl shr_m at 1. intros Hm.
  destruct m as [| [p | p |] | p]; simpl; lia.
Qed.

Lemma iter_shr_1_digits (p : positive) (mrs : shr_record) :
  0 <= shr_m mrs ->
  0 <= shr_m (SpecFloat.iter_pos shr_1 p mrs)
  /\ Zdigits2 (shr_m (SpecFloat.iter_pos shr_1 p mrs))
     = Z.max 0 (Zdigits2 (shr_m mrs) - Zpos p).
Proof.
  revert mrs. induction p as [p IH | p IH |]; intros mrs Hm; simpl SpecFloat.iter_pos.
  - destruct (shr_1_digits mrs Hm) as (H0 & D0).
    destruct (IH _ H0) as (H1 & D1). destruct (IH _ H1) as (H2 & D2).
    split; [ exact H2 | ]. rewrite D2, D1, D0. lia.
  - destruct (IH _ Hm) as (H1 & D1). destruct (IH _ H1) as (H2 & D2).
    split; [ exact H2 | ]. rewrite D2, D1. lia.
  - exact (shr_1_digits mrs Hm).
Qed.

Lemma shr_record_of_loc_m (m : Z) (l : location) : shr_m (shr_record_of_loc m l) = m.
Proof. destruct l as [| []]; reflexivity. Qed.

Lemma shr_fexp_bound (m e : Z) (l : location) :
  0 <= m ->
  0 <= shr_m (fst (shr_fexp 53 1024 m e l))
  /\ snd (shr_fexp 53 1024 m e l) = Z.max e (fexp 53 1024 (Zdigits2 m + e))
  /\ Zdigits2 (shr_m (fst (shr_fexp 53 1024 m e l))) + snd (shr_fexp 53 1024 m e l)
     <= Z.max (Zdigits2 m + e) (snd (shr_fexp 53 1024 m e l)).
Proof.
  intros Hm. unfold shr_fexp, shr.
  destruct (fexp 53 1024 (Zdigits2 m + e) - e) as [| n | n] eqn:En; cbn [fst snd];
    rewrite ?shr_record_of_loc_m.
  - repeat split; lia.
  - destruct (iter_shr_1_digits n (shr_record_of_loc m l)) as (H0 & D0);
      [ rewrite shr_record_of_loc_m; exact Hm | ].
    rewrite shr_record_of_loc_m in D0. rewrite D0. repeat split; lia.
  - repeat split; lia.
Qed.

Lemma round_nearest_even_bound (m : Z) (l : location) :
  0 <= m ->
  0 <= round_nearest_even m l
  /\ Zdigits2 (round_nearest_even m l) <= Zdigits2 m + 1.
Proof.
  intros Hm. pose proof (Zdigits2_succ m Hm).
  unfold round_nearest_even. destruct l as [| []]; try destruct (Z.even m);
    split; lia.
Qed.

(** Rounding keeps the exponent under [E] and adds at most one bit. *)
Lemma binary_round_aux_fbound (E A : Z) (sx : bool) (mx ex : Z) (lx : location) :
  0 <= mx -> ex <= E -> Zdigits2 mx + ex <= A ->
  -1074 <= E <= 971 -> E <= A -> A + 1 - 53 <= E ->
  fbound E (A + 1) (binary_round_aux 53 1024 sx mx ex lx).
Proof.
  intros Hm Hex Ha HE HEA HAE. unfold binary_round_aux.
  destruct (shr_fexp_bound mx ex lx Hm) as (H1 & E1 & D1).
  destruct (shr_fexp 53 1024 mx ex lx) as [mrs1 e1]. cbn [fst snd] in *.
  destruct (round_nearest_even_bound (shr_m mrs1) (loc_of_shr_record mrs1) H1)
    as (H2 & D2).
  destruct (shr_fexp_bound _ e1 loc_Exact H2) as (H3 & E3 & D3).
  destruct (shr_fexp 53 1024 _ e1 loc_Exact) as [mrs2 e2]. cbn [fst snd] in *.
  unfold fexp, emin in *.
  destruct (shr_m mrs2) as [| m2 | m2] eqn:Em2; [ exact I | | lia ].
  replace (e2 <=? 1024 - 53) with true by (symmetry; apply Z.leb_le; lia).
  cbn [fbound]. lia.
Qed.

Lemma shl_align_bound (mx : positive) (ex ex' : Z) :
  snd (shl_align mx ex ex') = Z.min ex ex'
  /\ Zdigits2 (Zpos (fst (shl_align mx ex ex'))) + snd (shl_align mx ex ex')
     = Zdigits2 (Zpos mx) + ex.
Proof.
  unfold shl_align. destruct (ex' - ex) as [| d | d] eqn:Ed; cbn [fst snd];
    [ lia | lia | ].
  rewrite Zdigits2_shift. lia.
Qed.

Lemma binary_round_fbound (E A : Z) (sx : bool) (mx : positive) (ex : Z) :
  Zdigits2 (Zpos mx) + ex <= A ->
  -1074 <= E <= 971 -> E <= A -> A + 1 - 53 <= E ->
  fbound E (A + 1) (binary_round 53 1024 sx mx ex).
Proof.
  intros Ha HE HEA HAE. unfold binary_round.
  destruct (shl_align_bound mx ex (fexp 53 1024 (Zpos (digits2_pos mx) + ex)))
    as (He & Hd).
  destruct (shl_align mx ex _) as [mz ez]. cbn [fst snd] in *.
  change (Zdigits2 (Zpos mx)) with (Zpos (digits2_pos mx)) in *.
  unfold fexp, emin in He.
  apply binary_round_aux_fbound; lia.
Qed.

Lemma fbound_weaken (E A A' : Z) (v : spec_float) :
  A <= A' -> fbound E A v -> fbound E A' v.
Proof. intros HA. destruct v; simpl; lia. Qed.

Lemma binary_normalize_fbound (E A : Z) (m e : Z) :
  Zdigits2 m + e <= A ->
  -1074 <= E <= 971 -> E <= A -> A + 1 - 53 <= E ->
  fbound E (A + 1) (binary_normalize 53 1024 m e false).
Proof.
  intros Ha HE HEA HAE. destruct m as [| p | p]; cbn [binary_normalize];
    [ exact I | | ]; now apply binary_round_fbound.
Qed.

Lemma SFadd_fbound (E A : Z) (u v : spec_float) :
  fbound E A u -> fbound E A v ->
  -1074 <= E <= 971 -> E <= A -> A + 2 - 53 <= E ->
  fbound E (A + 2) (SFadd 53 1024 u v).
Proof.
  intros Hu Hv HE HEA HAE.
  destruct u as [su | su | | su mu eu]; try contradiction;
    destruct v as [sv | sv | | sv mv ev]; try contradiction.
  - cbn [SFadd]. now destruct su, sv.
  - cbn [SFadd]. apply (fbound_weaken E A); [ lia | exact Hv ].
  - cbn [SFadd]. apply (fbound_weaken E A); [ lia | exact Hu ].
  - cbn [SFadd]. cbn [fbound] in Hu, Hv.
    change (IntDef.Z.min eu ev) with (Z.min eu ev).
    destruct (shl_align_bound mu eu (Z.min eu ev)) as (Hsu & Hdu).
    destruct (shl_align_bound mv ev (Z.min eu ev)) as (Hsv & Hdv).
    destruct (shl_align mu eu (Z.min eu ev)) as [au su'].
    destruct (shl_align mv ev (Z.min eu ev)) as [av sv'].
    cbn [fst snd] in *.
    replace (A + 2) with (A + 1 + 1) by lia.
    apply binary_normalize_fbound; try lia.
    pose proof (Zdigits2_add (Zpos au) (Zpos av) (Pos2Z.is_nonneg au)
                  (Pos2Z.is_nonneg av)) as Hadd.
    assert (forall M, Z.abs M <= Zpos au + Zpos av ->
                      Zdigits2 M <= Zdigits2 (Zpos au + Zpos av)) as Habs.
    { intros M HM. destruct M as [| p | p].
      - apply Zdigits2_nonneg. lia.
      - apply Zdigits2_mono. lia.
      - change (Zdigits2 (Zneg p)) with (Zdigits2 (Zpos p)).
        apply Zdigits2_mono. lia. }
    specialize (Habs (cond_Zopp su (Zpos au) + cond_Zopp sv (Zpos av))).
    assert (Z.abs (cond_Zopp su (Zpos au) + cond_Zopp sv (Zpos av))
            <= Zpos au + Zpos av) as HM
      by (unfold cond_Zopp; destruct su, sv; lia).
    specialize (Habs HM).
    generalize dependent (Zdigits2 (cond_Zopp su (Zpos au) + cond_Zopp sv (Zpos av))).
    generalize dependent (Zdigits2 (Zpos au + Zpos av)).
    generalize dependent (Zdigits2 (Zpos au)).
    generalize dependent (Zdigits2 (Zpos av)).
    generalize dependent (Zdigits2 (Zpos mu)).
    generalize dependent (Zdigits2 (Zpos mv)).
    intros. lia.
Qed.

Lemma SFmul_fbound (Eu Au Ev Av E A : Z) (u v : spec_float) :
  fbound Eu Au u -> fbound Ev Av v ->
  Eu + Ev <= E -> Au + Av <= A ->
  -1074 <= E <= 971 -> E <= A -> A + 1 - 53 <= E ->
  fbound E (A + 1) (SFmul 53 1024 u v).
Proof.
  intros Hu Hv HEs HAs HE HEA HAE.
  destruct u as [su | su | | su mu eu]; try contradiction;
    destruct v as [sv | sv | | sv mv ev]; try contradiction;
    cbn [SFmul]; try exact I.
  cbn [fbound] in Hu, Hv.
  pose proof (Zdigits2_mul (Zpos mu) (Zpos mv)) as Hmul.
  apply binary_round_aux_fbound; try lia.
  rewrite Pos2Z.inj_mul. lia.
Qed.

Lemma of_int_fbound (n : Z) : 0 <= n < 1024 -> fbound (-42) 11 (Double.of_int n).
Proof.
  intros Hn. unfold Double.of_int, Double.prec, Double.emax.
  apply (binary_normalize_fbound (-42) 10); try lia.
  assert (Zdigits2 n <= Zdigits2 1023) as H by (apply Zdigits2_mono; lia).
  change (Zdigits2 1023) with 10 in H. lia.
Qed.

Lemma weights_fbound :
  fbound (-53) 0 W_LINES /\ fbound (-53) 0 W_HOLE
  /\ fbound (-53) 0 W_HEIGHT /\ fbound (-53) 0 W_BUMPY.
Proof. vm_compute. repeat split; discriminate. Qed.

Lemma term_fbound (w : spec_float) (n : Z) :
  fbound (-53) 0 w -> 0 <= n < 1024 ->
  fbound (-30) 12 (Double.mul w (Double.of_int n)).
Proof.
  intros Hw Hn. unfold Double.mul, Double.prec, Double.emax.
  apply (SFmul_fbound (-53) 0 (-42) 11 (-30) 11); try lia; [ exact Hw | ].
  now apply of_int_fbound.
Qed.

Lemma heuristic_fbound (nlines nholes height bumps : Z) :
  0 <= nlines < 1024 -> 0 <= nholes < 1024 ->
  0 <= height < 1024 -> 0 <= bumps < 1024 ->
  fbound (-30) 20 (Search.heuristic nlines nholes height bumps).
Proof.
  intros H1 H2 H3 H4.
  destruct weights_fbound as (W1 & W2 & W3 & W4).
  pose proof (term_fbound W_LINES nlines W1 H1) as T1.
  pose proof (term_fbound W_HOLE nholes W2 H2) as T2.
  pose proof (term_fbound W_HEIGHT height W3 H3) as T3.
  pose proof (term_fbound W_BUMPY bumps W4 H4) as T4.
  clear W1 W2 W3 W4.
  unfold Search.heuristic, Double.add, Double.prec, Double.emax.
  generalize dependent (Double.mul W_LINES (Double.of_int nlines)).
  generalize dependent (Double.mul W_HOLE (Double.of_int nholes)).
  generalize dependent (Double.mul W_HEIGHT (Double.of_int height)).
  generalize dependent (Double.mul W_BUMPY (Double.of_int bumps)).
  intros t4 T4 t3 T3 t2 T2 t1 T1.
  apply (SFadd_fbound (-30) 18); [ | apply (fbound_weaken (-30) 12 18) | .. ];
    [ | lia | exact T4 | lia | lia | lia ].
  apply (SFadd_fbound (-30) 16); [ | apply (fbound_weaken (-30) 12 16) | .. ];
    [ | lia | exact T3 | lia | lia | lia ].
  apply (SFadd_fbound (-30) 14); [ | apply (fbound_weaken (-30) 12 14) | .. ];
    [ | lia | exact T2 | lia | lia | lia ].
  apply (SFadd_fbound (-30) 12); [ exact I | exact T1 | lia | lia | lia ].
Qed.

(** A value of magnitude below [2^20] is above the sentinel score -1e9 and
    is not below the threshold -1e8. *)
Lemma fbound_above_sentinel (v : spec_float) :
  fbound (-30) 20 v ->
  SFltb SENTINEL_SCORE v = true /\ SFltb v NO_MOVE_THRESHOLD = false.
Proof.
  intros Hb. destruct v as [s | s | | s m e]; try contradiction.
  - split; reflexivity.
  - cbn [fbound] in Hb. destruct Hb as (He & _).
    change SENTINEL_SCORE with (S754_finite true 8388608000000000 (-23)).
    change NO_MOVE_THRESHOLD with (S754_finite true 6710886400000000 (-26)).
    unfold SFltb, SFcompare. destruct s; [ | split; reflexivity ].
    destruct (Z.compare_spec (-23) e); [ lia | lia | ].
    destruct (Z.compare_spec e (-26)); [ lia | | lia ].
    split; reflexivity.
Qed.

(** ** Ranges of the board features *)

Lemma sum_range {B : Type} (f : B -> Z) (K : Z) (l : list B) (s0 : Z) :
  (forall c, In c l -> 0 <= f c <= K) ->
  s0 <= fold_left (fun s c => s + f c) l s0 <= s0 + K * Z.of_nat (length l).
Proof.
  revert s0. induction l as [| c l IH]; intros s0 Hf; cbn [fold_left length].
  - lia.
  - pose proof (Hf c (or_introl eq_refl)).
    specialize (IH (s0 + f c) (fun d Hd => Hf d (or_intror Hd))). lia.
Qed.

Lemma columnScan_range (rows : list Z) (b : Board) (c : Z) :
  (forall r, In r rows -> 0 <= r < BOARD_H) ->
  0 <= columnScan rows b c <= BOARD_H.
Proof.
  induction rows as [| r rows IH]; intros Hr; cbn [columnScan].
  - unfold BOARD_H. lia.
  - destruct (cell b r c =? 0).
    + apply IH. intros r' Hin. apply Hr. now right.
    + specialize (Hr r (or_introl eq_refl)). lia.
Qed.

Lemma columnHeight_range (b : Board) (c : Z) : 0 <= columnHeight b c <= BOARD_H.
Proof. apply columnScan_range. intros r. apply In_rowIdx. Qed.

Lemma aggregateHeight_range (b : Board) : 0 <= aggregateHeight b <= 200.
Proof.
  unfold aggregateHeight.
  pose proof (sum_range (columnHeight b) BOARD_H colIdx 0
                (fun c _ => columnHeight_range b c)) as H.
  change (Z.of_nat (length colIdx)) with 10 in H. unfold BOARD_H in H. lia.
Qed.

Lemma bumpiness_range (b : Board) : 0 <= bumpiness b <= 180.
Proof.
  unfold bumpiness.
  pose proof (sum_range (fun c => Z.abs (columnHeight b c - columnHeight b (c + 1)))
                BOARD_H (map Z.of_nat (seq 0 (Z.to_nat (BOARD_W - 1)))) 0) as H.
  change (Z.of_nat (length (map Z.of_nat (seq 0 (Z.to_nat (BOARD_W - 1))))))
    with 9 in H.
  unfold BOARD_H in H at 2. cbv beta in H.
  assert (forall c, 0 <= Z.abs (columnHeight b c - columnHeight b (c + 1)) <= BOARD_H)
    as Hc.
  { intros c. pose proof (columnHeight_range b c).
    pose proof (columnHeight_range b (c + 1)). lia. }
  specialize (H (fun c _ => Hc c)). lia.
Qed.

Lemma holesInColumn_range (b : Board) (c : Z) : 0 <= holesInColumn b c <= 20.
Proof.
  unfold holesInColumn.
  assert (forall rows st,
    0 <= snd st ->
    snd st <= snd (fold_left (fun '(blockFound, h) r =>
         if negb (cell b r c =? 0) then (true, h)
         else if blockFound then (blockFound, h + 1) else (blockFound, h))
       rows st) <= snd st + Z.of_nat (length rows)) as Hgen.
  { induction rows as [| r rows IH]; intros [found h] Hh; cbn [fold_left length snd].
    - lia.
    - cbn [snd] in Hh.
      destruct (negb (cell b r c =? 0)); [ | destruct found ];
        match goal with
        | |- context [fold_left _ rows ?st] => specialize (IH st)
        end; cbn [snd] in IH; lia. }
  specialize (Hgen rowIdx (false, 0)). cbn [snd] in Hgen.
  change (Z.of_nat (length rowIdx)) with 20 in Hgen. lia.
Qed.

Lemma holes_range (b : Board) : 0 <= holes b <= 200.
Proof.
  unfold holes.
  pose proof (sum_range (holesInColumn b) 20 colIdx 0
                (fun c _ => holesInColumn_range b c)) as H.
  change (Z.of_nat (length colIdx)) with 10 in H. lia.
Qed.

(** ** The result of the search *)


(** The score of every candidate is a finite value of small magnitude. *)
Lemma candidate_fbound (fuel : nat) (board : Board) (piece : Tetromino)
    (c : Search.MoveDecision) :
  wfBoard board -> In c (candidates fuel board piece) ->
  fbound (-30) 20 (Search.score c).
Proof.
  intros Hwf Hin.
  apply In_candidates in Hin
    as (k & shape & left & top & nlines & b3 & _ & _ & _ & _ & Hclear & ->).
  rewrite clearLines_total in Hclear by (now apply placePiece_wf).
  injection Hclear as <- <-. cbn [Search.score].
  pose proof (fullRows_le (placePiece board shape top left (colorId piece))) as Hle.
  pose proof (placePiece_wf board shape top left (colorId piece) Hwf) as (Hlen & _).
  change (Z.to_nat BOARD_H) with 20%nat in Hlen.
  pose proof (holes_range (compacted (placePiece board shape top left (colorId piece)))).
  pose proof (aggregateHeight_range
                (compacted (placePiece board shape top left (colorId piece)))).
  pose proof (bumpiness_range
                (compacted (placePiece board shape top left (colorId piece)))).
  apply heuristic_fbound; lia.
Qed.

Lemma candidate_scores (fuel : nat) (board : Board) (piece : Tetromino)
    (c : Search.MoveDecision) :
  wfBoard board -> In c (candidates fuel board piece) ->
  SFltb SENTINEL_SCORE (Search.score c) = true
  /\ SFltb (Search.score c) NO_MOVE_THRESHOLD = false.
Proof.
  intros Hwf Hin. apply fbound_above_sentinel.
  exact (candidate_fbound fuel board piece c Hwf Hin).
Qed.

(** With a candidate above the initial score, the first maximum of the
    sentinel followed by the candidates is the first maximum of the
    candidates. *)
Lemma firstMax_drop_sentinel (best : Search.MoveDecision)
    (cands : list Search.MoveDecision) :
  firstMax best (Search.sentinel :: cands) ->
  (exists c, In c cands /\ SFltb SENTINEL_SCORE (Search.score c) = true) ->
  firstMax best cands.
Proof.
  intros (k & Hk & Hmax & Hfirst) (c & Hc & Hlt).
  destruct k as [| k].
  - injection Hk as <-. pose proof (Hmax c (or_intror Hc)) as Hnot.
    change (Search.score Search.sentinel) with SENTINEL_SCORE in Hnot. congruence.
  - exists k. split; [ exact Hk | split ].
    + intros d Hd. apply Hmax. now right.
    + intros j d Hj Hd. apply (Hfirst (S j) d); [ lia | exact Hd ].
Qed.

(** ** The score and the features against the specification's *)



Lemma fold_left_ext_in {A B : Type} (f g : A -> B -> A) (l : list B) (a : A) :
  (forall a' v, In v l -> f a' v = g a' v) -> fold_left f l a = fold_left g l a.
Proof.
  revert a. induction l as [| v l IH]; intros a H; [ reflexivity | ].
  cbn [fold_left]. rewrite (H a v) by now left.
  apply IH. intros a' w Hw. apply H. now right.
Qed.








(** ** Pieces that can always be placed *)

(** Four rows above the board nothing collides that is inside the columns. *)
Lemma collides_above (b : Board) (shape : Matrix4) (leftC : Z) :
  0 <= leftC <= BOARD_W - 4 -> collides b shape (-4) leftC = false.
Proof.
  intros Hl. apply collides_false. intros i j (Hi & Hj & _).
  unfold hits, BOARD_W, BOARD_H in *. lia.
Qed.

Lemma dropPosition_free (fuel : nat) (b : Board) (shape : Matrix4) (leftC : Z) :
  (exists i j, occupied shape i j) -> (dropFuel <= fuel)%nat ->
  collides b shape (-4) leftC = false ->
  exists top, dropPosition fuel b shape leftC = Some top
              /\ -4 <= top /\ collides b shape top leftC = false.
Proof.
  intros (i & j & Ho) Hfuel Hfree.
  destruct (dropLoop_stops fuel b shape leftC (-4) i j Ho) as (t & Ht).
  { unfold dropFuel, BOARD_H in *. lia. }
  { destruct Ho as (Hi & _). unfold dropFuel, BOARD_H in *. lia. }
  destruct (dropLoop_exit _ _ _ _ _ _ Ht) as (Hle & _ & Hbetween).
  assert (collides b shape t leftC = false) as Hc.
  { destruct (Z.eq_dec t (-4)) as [-> | Hne]; [ exact Hfree | apply Hbetween; lia ]. }
  exists t. unfold dropPosition. rewrite Ht, Hc. auto.
Qed.

(** A piece with a first rotation state has a candidate: its first state
    dropped at column 3. *)
Lemma candidates_nonempty (fuel : nat) (board : Board) (piece : Tetromino)
    (shape : Matrix4) :
  wfBoard board -> (dropFuel <= fuel)%nat ->
  states piece !! 0%nat = Some shape -> (exists i j, occupied shape i j) ->
  candidates fuel board piece <> [].
Proof.
  intros Hwf Hfuel Hshape Hocc.
  destruct (dropPosition_free fuel board shape 3 Hocc Hfuel) as (top & Hd & Hge & _).
  { apply collides_above. unfold BOARD_W. lia. }
  assert (In (Search.mkMove (Z.of_nat 0) 3
                (Search.heuristic
                   (Z.of_nat (fullRows (placePiece board shape top 3 (colorId piece))))
                   (holes (compacted (placePiece board shape top 3 (colorId piece))))
                   (aggregateHeight
                      (compacted (placePiece board shape top 3 (colorId piece))))
                   (bumpiness (compacted (placePiece board shape top 3 (colorId piece)))))
                (Z.of_nat (fullRows (placePiece board shape top 3 (colorId piece)))))
             (candidates fuel board piece)) as Hin.
  { apply In_candidates.
    exists 0%nat, shape, 3, top,
      (Z.of_nat (fullRows (placePiece board shape top 3 (colorId piece)))),
      (compacted (placePiece board shape top 3 (colorId piece))).
    split; [ exact Hshape | ]. split; [ unfold BOARD_W; lia | ].
    split; [ exact Hd | ]. split; [ unfold INT_MIN; lia | ].
    split; [ apply clearLines_total; now apply placePiece_wf | reflexivity ]. }
  intros Hnil. rewrite Hnil in Hin. destruct Hin.
Qed.









(** On the empty board the flat I piece scores the same at offsets 0 and 6;
    the search keeps the first of them. *)
Example findBestMove_tie :
  (exists s,
     Search.findBestMove dropFuel emptyBoard makeTetrominoes 0
       = Some (Search.mkMove 0 0 s 0)
     /\ Search.candidateAt dropFuel emptyBoard (mkTetromino [I0; rotate90 I0] 1)
          0 I0 6 = Some (Some (Search.mkMove 0 6 s 0))).
Proof. eexists. split; vm_compute; reflexivity. Qed.

(** Every piece of the catalog has an occupied cell in each rotation state,
    so the search is defined for every piece type of the game. *)
Lemma makeTetrominoes_occupied (piece : Tetromino) :
  In piece makeTetrominoes ->
  Forall (fun shape => exists i j, occupied shape i j) (states piece).
Proof.
  assert (forall shape, cell shape 1 1 <> 0 -> exists i j, occupied shape i j) as H11
    by (intros shape H; exists 1, 1; unfold occupied; repeat split; (lia || exact H)).
  assert (forall shape, cell shape 2 2 <> 0 -> exists i j, occupied shape i j) as H22
    by (intros shape H; exists 2, 2; unfold occupied; repeat split; (lia || exact H)).
  assert (forall shape, cell shape 1 2 <> 0 -> exists i j, occupied shape i j) as H12
    by (intros shape H; exists 1, 2; unfold occupied; repeat split; (lia || exact H)).
  intros [<- | [<- | [<- | [<- | [<- | [<- | [<- | []]]]]]]];
    repeat (apply Forall_cons; split;
            [ first [ apply H11; vm_compute; discriminate
                    | apply H12; vm_compute; discriminate
                    | apply H22; vm_compute; discriminate ] | ]);
    apply Forall_nil; exact I.
Qed.

(** ** The AI tick and the pause flag *)

Ltac sim_fields :=
  cbn [Sim.setPaused Sim.setAiTimer Sim.setGameOver Sim.setBoard Sim.setCur
       Sim.setBag Sim.setCounters
       Sim.gameOver Sim.aiTimer Sim.aiCooldown Sim.board Sim.tetrominoes Sim.cur
       Sim.bag Sim.score Sim.lines Sim.level Sim.paused Sim.mode
       Sim.gravityTimer Sim.gravityDelay Sim.inputDelay Sim.inputTimer
       Sim.leftHeld Sim.rightHeld Sim.downHeld
       Sim.type Sim.x Sim.y Sim.rotation].

Section AiTick.
Context {Rng : Type} (shuffle : Rng -> list Z -> list Z * Rng).

Lemma spawnPiece_setPaused (g : Sim.Game Rng) (p : bool) :
  Sim.spawnPiece shuffle (Sim.setPaused g p)
  = Sim.setPaused (Sim.spawnPiece shuffle g) p.
Proof.
  destruct g. unfold Sim.spawnPiece. sim_fields.
  destruct (Randomizer.next shuffle bag) as [t bg]. sim_fields.
  now destruct (Sim.collidesPiece _ _ _ _ _).
Qed.


Lemma scoreCleared_setPaused (g : Sim.Game Rng) (p : bool) (cleared : Z) :
  Sim.scoreCleared (Sim.setPaused g p) cleared
  = Sim.setPaused (Sim.scoreCleared g cleared) p.
Proof. destruct g. unfold Sim.scoreCleared. now destruct (cleared >? 0). Qed.


Lemma updateAI_setPaused (fuel : nat) (g : Sim.Game Rng) (dt : spec_float) (p : bool) :
  Sim.updateAI shuffle fuel (Sim.setPaused g p) dt
  = option_map (fun g' => Sim.setPaused g' p) (Sim.updateAI shuffle fuel g dt).
Proof.
  unfold Sim.updateAI.
  destruct g as [board cur bag score lines level gameOver paused tets mode
                   gT gD iD iT lH rH dH aiTimer aiCooldown].
  sim_fields.
  destruct gameOver; [ reflexivity | ].
  destruct (SFleb aiCooldown (Float32.add aiTimer dt)); [ | reflexivity ].
  destruct (Search.findBestMove fuel board tets (Sim.type cur)) as [move |];
    [ | reflexivity ].
  destruct (SFltb (Search.score move) NO_MOVE_THRESHOLD); [ reflexivity | ].
  destruct (tets !! Z.to_nat (Sim.type cur)) as [piece |]; [ | reflexivity ].
  destruct (states piece !! Z.to_nat (Search.rotationIndex move)) as [shape |];
    [ | reflexivity ].
  destruct (dropPosition fuel board shape (Search.leftC move)) as [top |];
    [ | reflexivity ].
  destruct (top =? INT_MIN); [ reflexivity | ].
  destruct (clearLines _) as [[cleared b'] |]; [ | reflexivity ].
  cbn [option_map]. f_equal.
  rewrite <- spawnPiece_setPaused, <- scoreCleared_setPaused. reflexivity.
Qed.










End AiTick.


(** [updateAI] itself has no test of the pause flag.  On a state built with
    the flag forced onto an AI-mode game, which by the theorem above no run
    of the program produces, a tick of 0.5 s advances the cooldown timer and
    a tick of 2 s places the piece. *)
Example updateAI_has_no_pause_test :
  Sim.paused pausedAiGame = true
  /\ Sim.gameOver pausedAiGame = false
  /\ (exists g1,
        Sim.updateAI reversingShuffle dropFuel pausedAiGame (Float32.lit 5 1) = Some g1
        /\ Sim.aiTimer pausedAiGame = S754_zero false
        /\ Sim.aiTimer g1 = Float32.lit 5 1)
  /\ (exists g2,
        Sim.updateAI reversingShuffle dropFuel pausedAiGame (Float32.of_int 2) = Some g2
        /\ Sim.board g2 <> Sim.board pausedAiGame
        /\ Sim.cur g2 <> Sim.cur pausedAiGame).
Proof.
  split; [ reflexivity | split; [ reflexivity | split ] ].
  - eexists. split; [ vm_compute; reflexivity | split; reflexivity ].
  - eexists. split; [ vm_compute; reflexivity | split; vm_compute; discriminate ].
Qed.

(** * Further properties of the code *)
(** ** Quarter turns and the two catalogs *)

Lemma row4_inv (r : list Z) :
  length r = 4%nat -> exists a b c d, r = [a; b; c; d].
Proof.
  destruct r as [| a [| b [| c [| d [| e r]]]]]; try discriminate.
  intros _. now exists a, b, c, d.
Qed.

Lemma wfMatrix4_inv (m : Matrix4) :
  wfMatrix4 m ->
  exists a0 a1 a2 a3 b0 b1 b2 b3 c0 c1 c2 c3 d0 d1 d2 d3 : Z,
    m = [[a0; a1; a2; a3]; [b0; b1; b2; b3]; [c0; c1; c2; c3]; [d0; d1; d2; d3]].
Proof.
  intros (Hlen & Hrows).
  destruct m as [| r0 [| r1 [| r2 [| r3 [| r4 rest]]]]]; try discriminate.
  apply Forall_cons in Hrows as (H0 & Hrows).
  apply Forall_cons in Hrows as (H1 & Hrows).
  apply Forall_cons in Hrows as (H2 & Hrows).
  apply Forall_cons in Hrows as (H3 & _).
  apply row4_inv in H0 as (a0 & a1 & a2 & a3 & ->).
  apply row4_inv in H1 as (b0 & b1 & b2 & b3 & ->).
  apply row4_inv in H2 as (c0 & c1 & c2 & c3 & ->).
  apply row4_inv in H3 as (d0 & d1 & d2 & d3 & ->).
  repeat eexists.
Qed.

Lemma maskCount_rotate90 (m : Matrix4) : maskCount (rotate90 m) = maskCount m.
Proof.
  unfold maskCount. cbn [fold_left idx4].
  rewrite !cell_rotate90 by lia.
  change (3 - 0) with 3. change (3 - 1) with 2. change (3 - 2) with 1.
  change (3 - 3) with 0. ring.
Qed.

(** X1. A quarter turn always yields a 4x4 mask and moves the occupied cells
    without adding or losing one; four quarter turns read the cells of the
    mask they started from, and give back a 4x4 mask itself. *)
Theorem rotate90_four_turns (m : Matrix4) :
  wfMatrix4 (rotate90 m)
  /\ maskCount (rotate90 m) = maskCount m
  /\ (forall i j, 0 <= i < 4 -> 0 <= j < 4 ->
        cell (rotate90 (rotate90 (rotate90 (rotate90 m)))) i j = cell m i j)
  /\ (wfMatrix4 m -> rotate90 (rotate90 (rotate90 (rotate90 m))) = m).
Proof.
  split; [ split; [ reflexivity | repeat constructor ] | ].
  split; [ apply maskCount_rotate90 | ].
  split.
  { intros i j Hi Hj. rewrite !cell_rotate90 by lia. f_equal; lia. }
  intros Hwf. destruct (wfMatrix4_inv m Hwf)
    as (a0 & a1 & a2 & a3 & b0 & b1 & b2 & b3 & c0 & c1 & c2 & c3
        & d0 & d1 & d2 & d3 & ->).
  reflexivity.
Qed.

Lemma rotate90_four_turns_witness :
  rotate90 (rotate90 (rotate90 (rotate90 J0))) = J0.
Proof.
  apply (proj2 (proj2 (proj2 (rotate90_four_turns J0)))).
  split; [ reflexivity | repeat constructor ].
Defined.

(** The index of [pieceCell] for a rotation that is not negative depends on
    the rotation modulo 4 only. *)
Lemma pieceIdx_mod (rot i j : Z) :
  0 <= rot -> pieceIdx rot i j = pieceIdx (rot mod 4) i j.
Proof.
  intros Hrot. unfold pieceIdx.
  rewrite !Z.rem_mod_nonneg by (try apply Z.mod_pos_bound; lia).
  now rewrite Z.mod_mod by lia.
Qed.

Lemma pieceIdx_bounds (rot i j : Z) :
  0 <= i < 4 -> 0 <= j < 4 -> 0 <= pieceIdx rot i j < 16.
Proof.
  intros Hi Hj. unfold pieceIdx.
  repeat match goal with
         | |- context [if ?c then _ else _] => destruct c
         end; lia.
Qed.

(** X2. The index that [pieceCell] computes stays inside the 16 cells of a
    catalog entry for every rotation value; a rotation that is not negative
    counts modulo 4; and a negative rotation that is not a multiple of 4
    matches no case of the [switch], so that every [(i, j)] reads cell 0 of
    the entry. *)
Theorem pieceIdx_range (rot i j : Z) :
  0 <= i < 4 -> 0 <= j < 4 ->
  0 <= pieceIdx rot i j < 16
  /\ (0 <= rot -> pieceIdx (rot + 4) i j = pieceIdx rot i j)
  /\ (rot < 0 -> Z.rem rot 4 <> 0 -> pieceIdx rot i j = 0).
Proof.
  intros Hi Hj. split; [ now apply pieceIdx_bounds | split ].
  - intros Hrot. rewrite (pieceIdx_mod (rot + 4)), (pieceIdx_mod rot) by lia.
    f_equal. rewrite <- (Z.mul_1_l 4) at 1. now rewrite Z.mod_add by lia.
  - intros Hneg Hrem. unfold pieceIdx.
    assert (-4 < Z.rem rot 4 <= 0) as Hr.
    { pose proof (Z.rem_bound_pos_neg rot 4 ltac:(lia) ltac:(lia)). lia. }
    repeat match goal with
           | |- context [?a =? ?b] => destruct (Z.eqb_spec a b)
           end; lia.
Qed.

Lemma pieceIdx_range_witness :
  0 <= pieceIdx 6 1 2 < 16
  /\ (0 <= 6 -> pieceIdx (6 + 4) 1 2 = pieceIdx 6 1 2)
  /\ (-1 < 0 -> Z.rem (-1) 4 <> 0 -> pieceIdx (-1) 1 2 = 0).
Proof.
  split; [ apply (pieceIdx_range 6 1 2); lia | split ].
  - apply (pieceIdx_range 6 1 2); lia.
  - apply (pieceIdx_range (-1) 1 2); lia.
Defined.

Lemma cell_maskOf (ty rot i j : Z) :
  0 <= i < 4 -> 0 <= j < 4 -> cell (maskOf ty rot) i j = pieceCell ty rot i j.
Proof.
  intros Hi Hj.
  destruct (range4 i Hi) as [-> | [-> | [-> | ->]]];
    destruct (range4 j Hj) as [-> | [-> | [-> | ->]]]; reflexivity.
Qed.

Lemma maskOf_mod (ty rot : Z) : 0 <= rot -> maskOf ty rot = maskOf ty (rot mod 4).
Proof.
  intros Hrot. unfold maskOf, pieceCell, flatCell.
  apply map_ext. intros i. apply map_ext. intros j.
  now rewrite pieceIdx_mod.
Qed.

Lemma shape_check (shape : Matrix4) :
  (length shape =? 4)%nat
  && forallb (fun row : list Z => (length row =? 4)%nat) shape
  && (maskCount shape =? 4) = true ->
  wfMatrix4 shape /\ maskCount shape = 4.
Proof.
  rewrite !andb_true_iff, Nat.eqb_eq, Z.eqb_eq, forallb_forall.
  intros ((Hlen & Hrows) & Hcount). split; [ split | ]; [ exact Hlen | | exact Hcount ].
  apply Forall_forall. intros row Hrow. apply list_elem_of_In in Hrow.
  apply Nat.eqb_eq. now apply Hrows.
Qed.

(** X3. Every piece of the manual-mode catalog, in every rotation that is
    not negative, shows exactly four occupied cells through [pieceCell]; so do
    all rotation states of both [makeTetrominoes] catalogs, which are 4x4
    masks. *)
Theorem catalog_four_cells :
  (forall ty rot, 0 <= ty < 7 -> 0 <= rot -> maskCount (maskOf ty rot) = 4)
  /\ (forall piece shape,
        In piece makeTetrominoes \/ In piece Classic.makeTetrominoes ->
        In shape (states piece) -> wfMatrix4 shape /\ maskCount shape = 4).
Proof.
  split.
  - intros ty rot Hty Hrot. rewrite maskOf_mod by exact Hrot.
    pose proof (Z.mod_pos_bound rot 4 ltac:(lia)) as Hr.
    assert (ty = 0 \/ ty = 1 \/ ty = 2 \/ ty = 3 \/ ty = 4 \/ ty = 5 \/ ty = 6)
      as Hcases by lia.
    destruct (range4 _ Hr) as [-> | [-> | [-> | ->]]];
      destruct Hcases as [-> | [-> | [-> | [-> | [-> | [-> | ->]]]]]];
      vm_compute; reflexivity.
  - intros piece shape Hpiece Hshape. apply shape_check.
    assert (forallb (fun p => forallb (fun s =>
              (length s =? 4)%nat
              && forallb (fun row : list Z => (length row =? 4)%nat) s
              && (maskCount s =? 4)) (states p))
              (makeTetrominoes ++ Classic.makeTetrominoes) = true) as Hall
      by (vm_compute; reflexivity).
    rewrite forallb_forall in Hall.
    specialize (Hall piece ltac:(apply in_or_app; exact Hpiece)).
    rewrite forallb_forall in Hall. exact (Hall shape Hshape).
Qed.

(** ** The manual mode's collision test and lock against the board's *)

Lemma collidesPiece_mask (b : Board) (px py ty rot : Z) :
  Sim.collidesPiece b px py ty rot = collides b (maskOf ty rot) py px.
Proof.
  unfold Sim.collidesPiece, collides, cellCollides.
  cbn [existsb idx4]. rewrite !cell_maskOf by lia. reflexivity.
Qed.

Lemma lockCells_mask (b : Board) (c : Sim.Piece) :
  Manual.lockCells b c
  = placePiece b (maskOf (Sim.type c) (Sim.rotation c)) (Sim.y c) (Sim.x c)
      (Sim.type c + 1).
Proof.
  unfold Manual.lockCells, placePiece, inBounds.
  apply fold_left_ext_in. intros b1 i Hi.
  apply fold_left_ext_in. intros b2 j Hj.
  apply In_idx4 in Hi. apply In_idx4 in Hj.
  now rewrite cell_maskOf.
Qed.

Lemma hardDropLoop_dropLoop {Rng : Type} (g : Sim.Game Rng) (fuel : nat) :
  option_map (fun g' => Sim.y (Sim.cur g')) (Manual.hardDropLoop fuel g)
  = dropLoop fuel (Sim.board g)
      (maskOf (Sim.type (Sim.cur g)) (Sim.rotation (Sim.cur g)))
      (Sim.x (Sim.cur g)) (Sim.y (Sim.cur g)).
Proof.
  revert g. induction fuel as [| f IH]; intros g; [ reflexivity | ].
  cbn [Manual.hardDropLoop dropLoop]. rewrite collidesPiece_mask.
  destruct (collides _ _ _ _); cbn [negb]; [ reflexivity | ].
  rewrite IH. destruct g. reflexivity.
Qed.

(** X4. The collision test of the manual mode is the board's [collides] on
    the mask that [pieceCell] shows, with row and column swapped into the
    board's argument order; the cell loop of [lockPiece] is [placePiece] on
    that mask with the value [type + 1]; and the loop of [hardDrop] moves the
    piece to the row at which the loop of [dropPosition], started from the
    piece's row, stops. *)
Theorem collidesPiece_collides {Rng : Type} :
  (forall (b : Board) (px py ty rot : Z),
      Sim.collidesPiece b px py ty rot = collides b (maskOf ty rot) py px)
  /\ (forall (b : Board) (c : Sim.Piece),
      Manual.lockCells b c
      = placePiece b (maskOf (Sim.type c) (Sim.rotation c)) (Sim.y c) (Sim.x c)
          (Sim.type c + 1))
  /\ (forall (g : Sim.Game Rng) (fuel : nat),
      option_map (fun g' => Sim.y (Sim.cur g')) (Manual.hardDropLoop fuel g)
      = dropLoop fuel (Sim.board g)
          (maskOf (Sim.type (Sim.cur g)) (Sim.rotation (Sim.cur g)))
          (Sim.x (Sim.cur g)) (Sim.y (Sim.cur g))).
Proof.
  split; [ exact collidesPiece_mask | split ].
  - exact lockCells_mask.
  - exact hardDropLoop_dropLoop.
Qed.

(** ** What a placement writes *)

Lemma cell_setCell (b : Board) (r c v r' c' : Z) :
  wfBoard b -> 0 <= r < BOARD_H -> 0 <= c < BOARD_W -> 0 <= r' -> 0 <= c' ->
  cell (setCell b r c v) r' c'
  = if (r' =? r) && (c' =? c) then v else cell b r' c'.
Proof.
  intros (Hlen & Hrows) Hr Hc Hr' Hc'. unfold cell, setCell.
  assert (Z.to_nat r < length b)%nat as Hrn by (rewrite Hlen; lia).
  destruct (lookup_lt_is_Some_2 b (Z.to_nat r) Hrn) as [row Hrow].
  rewrite (nth_lookup_Some _ _ _ _ Hrow).
  assert (length row = Z.to_nat BOARD_W) as Hrl.
  { rewrite Forall_lookup in Hrows. exact (Hrows _ _ Hrow). }
  destruct (Z.eqb_spec r' r) as [-> | Hne]; cbn [andb].
  - rewrite (nth_lookup_Some _ _ _ (<[Z.to_nat c:=v]> row)).
    2:{ apply list_lookup_insert_eq. exact Hrn. }
    destruct (Z.eqb_spec c' c) as [-> | Hnc].
    + apply nth_lookup_Some. apply list_lookup_insert_eq. rewrite Hrl. lia.
    + rewrite !nth_lookup. rewrite list_lookup_insert_ne by lia.
      now rewrite Hrow.
  - f_equal. rewrite !nth_lookup. now rewrite list_lookup_insert_ne by lia.
Qed.

Lemma placePiece_inner (shape : Matrix4) (topR leftC color i r c : Z)
    (cols : list Z) (b : Board) :
  wfBoard b -> 0 <= r < BOARD_H -> 0 <= c < BOARD_W ->
  let res :=
    fold_left (fun b2 j =>
      if cell shape i j =? 0 then b2
      else if inBounds (topR + i) (leftC + j)
           then setCell b2 (topR + i) (leftC + j) color
           else b2) cols b in
  wfBoard res /\
  cell res r c
  = if existsb (fun j => negb (cell shape i j =? 0)
                         && (topR + i =? r) && (leftC + j =? c)) cols
    then color else cell b r c.
Proof.
  intros Hwf Hr Hc. revert b Hwf.
  induction cols as [| j cols IH]; intros b Hwf; cbn [fold_left existsb].
  - split; [ exact Hwf | reflexivity ].
  - cbv zeta in IH.
    match goal with
    | |- context [fold_left ?f cols ?b1] =>
        destruct (IH b1) as (Hwf' & Hcell)
    end.
    { destruct (cell shape i j =? 0); [ exact Hwf | ].
      destruct (inBounds _ _); [ now apply setCell_wf | exact Hwf ]. }
    split; [ exact Hwf' | ]. rewrite Hcell. clear Hcell Hwf' IH.
    destruct (existsb _ cols); [ now rewrite orb_true_r | ].
    rewrite orb_false_r.
    destruct (cell shape i j =? 0); cbn [negb andb]; [ reflexivity | ].
    unfold inBounds, BOARD_H, BOARD_W in *.
    destruct (Z.eqb_spec (topR + i) r) as [Er | Er];
      destruct (Z.eqb_spec (leftC + j) c) as [Ec | Ec]; cbn [andb].
    + replace ((topR + i >=? 0) && (topR + i <? 20) && (leftC + j >=? 0)
               && (leftC + j <? 10)) with true
        by (symmetry; rewrite !andb_true_iff, !Z.geb_le, !Z.ltb_lt; lia).
      rewrite cell_setCell by (unfold BOARD_H, BOARD_W; (exact Hwf || lia)).
      subst. now rewrite !Z.eqb_refl.
    + destruct ((topR + i >=? 0) && (topR + i <? 20) && (leftC + j >=? 0)
                && (leftC + j <? 10)) eqn:Eb; [ | reflexivity ].
      rewrite !andb_true_iff, !Z.geb_le, !Z.ltb_lt in Eb.
      rewrite cell_setCell by (unfold BOARD_H, BOARD_W; (exact Hwf || lia)).
      replace (c =? leftC + j) with false by (symmetry; apply Z.eqb_neq; lia).
      now rewrite andb_false_r.
    + destruct ((topR + i >=? 0) && (topR + i <? 20) && (leftC + j >=? 0)
                && (leftC + j <? 10)) eqn:Eb; [ | reflexivity ].
      rewrite !andb_true_iff, !Z.geb_le, !Z.ltb_lt in Eb.
      rewrite cell_setCell by (unfold BOARD_H, BOARD_W; (exact Hwf || lia)).
      replace (r =? topR + i) with false by (symmetry; apply Z.eqb_neq; lia).
      reflexivity.
    + destruct ((topR + i >=? 0) && (topR + i <? 20) && (leftC + j >=? 0)
                && (leftC + j <? 10)) eqn:Eb; [ | reflexivity ].
      rewrite !andb_true_iff, !Z.geb_le, !Z.ltb_lt in Eb.
      rewrite cell_setCell by (unfold BOARD_H, BOARD_W; (exact Hwf || lia)).
      replace (r =? topR + i) with false by (symmetry; apply Z.eqb_neq; lia).
      reflexivity.
Qed.

Lemma placePiece_outer (shape : Matrix4) (topR leftC color r c : Z)
    (rows : list Z) (b : Board) :
  wfBoard b -> 0 <= r < BOARD_H -> 0 <= c < BOARD_W ->
  let res :=
    fold_left (fun b1 i =>
      fold_left (fun b2 j =>
        if cell shape i j =? 0 then b2
        else if inBounds (topR + i) (leftC + j)
             then setCell b2 (topR + i) (leftC + j) color
             else b2) idx4 b1) rows b in
  wfBoard res /\
  cell res r c
  = if existsb (fun i =>
         existsb (fun j => negb (cell shape i j =? 0)
                           && (topR + i =? r) && (leftC + j =? c)) idx4) rows
    then color else cell b r c.
Proof.
  intros Hwf Hr Hc. revert b Hwf.
  induction rows as [| i rows IH]; intros b Hwf; cbn [fold_left existsb].
  - split; [ exact Hwf | reflexivity ].
  - cbv zeta in IH.
    destruct (placePiece_inner shape topR leftC color i r c idx4 b Hwf Hr Hc)
      as (Hwf1 & Hcell1).
    match goal with
    | |- context [fold_left ?f rows ?b1] =>
        destruct (IH b1 Hwf1) as (Hwf' & Hcell)
    end.
    split; [ exact Hwf' | ]. rewrite Hcell, Hcell1.
    destruct (existsb _ rows); [ now rewrite orb_true_r | ].
    now rewrite orb_false_r.
Qed.

Lemma covers_existsb (shape : Matrix4) (topR leftC r c : Z) :
  existsb (fun i =>
    existsb (fun j => negb (cell shape i j =? 0)
                      && (topR + i =? r) && (leftC + j =? c)) idx4) idx4
  = covers shape topR leftC r c.
Proof.
  apply eq_true_iff_eq. unfold covers.
  rewrite existsb_exists, !andb_true_iff, !Z.leb_le, !Z.ltb_lt. split.
  - intros (i & Hi & H). apply existsb_exists in H as (j & Hj & H).
    apply In_idx4 in Hi. apply In_idx4 in Hj.
    rewrite !andb_true_iff, !Z.eqb_eq in H. destruct H as ((Hs & <-) & <-).
    replace (topR + i - topR) with i by lia.
    replace (leftC + j - leftC) with j by lia. repeat split; (lia || exact Hs).
  - intros ((((H1 & H2) & H3) & H4) & Hs).
    exists (r - topR). split; [ apply In_idx4; lia | ].
    apply existsb_exists. exists (c - leftC). split; [ apply In_idx4; lia | ].
    rewrite !andb_true_iff, !Z.eqb_eq. repeat split; (lia || exact Hs).
Qed.

Lemma placePiece_cell (b : Board) (shape : Matrix4) (topR leftC color r c : Z) :
  wfBoard b -> 0 <= r < BOARD_H -> 0 <= c < BOARD_W ->
  cell (placePiece b shape topR leftC color) r c
  = if covers shape topR leftC r c then color else cell b r c.
Proof.
  intros Hwf Hr Hc. rewrite <- covers_existsb.
  exact (proj2 (placePiece_outer shape topR leftC color r c idx4 b Hwf Hr Hc)).
Qed.

Lemma covers_occupied (shape : Matrix4) (topR leftC r c : Z) :
  covers shape topR leftC r c = true <->
  occupied shape (r - topR) (c - leftC).
Proof.
  unfold covers, occupied.
  rewrite !andb_true_iff, !Z.leb_le, !Z.ltb_lt, negb_true_iff, Z.eqb_neq. tauto.
Qed.

(** X5. On a board of the game's shape [placePiece] keeps the shape, gives
    the colour to exactly the board cells that lie under an occupied cell of
    the mask, and leaves every other cell as it was.  When the position does
    not collide, every cell it writes was empty, so no block is
    overwritten. *)
Theorem placePiece_spec (b : Board) (shape : Matrix4) (topR leftC color : Z) :
  wfBoard b ->
  wfBoard (placePiece b shape topR leftC color)
  /\ (forall r c, 0 <= r < BOARD_H -> 0 <= c < BOARD_W ->
        cell (placePiece b shape topR leftC color) r c
        = if covers shape topR leftC r c then color else cell b r c)
  /\ (collides b shape topR leftC = false ->
      forall r c, 0 <= r < BOARD_H -> 0 <= c < BOARD_W ->
        covers shape topR leftC r c = true -> cell b r c = 0).
Proof.
  intros Hwf. split; [ now apply placePiece_wf | split ].
  - intros r c Hr Hc. now apply placePiece_cell.
  - intros Hfree r c Hr Hc Hcov. apply covers_occupied in Hcov.
    rewrite collides_false in Hfree. specialize (Hfree _ _ Hcov).
    unfold hits in Hfree.
    replace (topR + (r - topR)) with r in Hfree by lia.
    replace (leftC + (c - leftC)) with c in Hfree by lia.
    destruct (Z.eq_dec (cell b r c) 0) as [E | E]; [ exact E | ].
    exfalso. apply Hfree. right. right. right. split; [ lia | exact E ].
Qed.

(** The T mask placed on the floor of the empty board. *)
Lemma placePiece_spec_witness :
  cell (placePiece emptyBoard T0m 18 3 3) 19 4 = 3
  /\ cell (placePiece emptyBoard T0m 18 3 3) 19 6 = 0.
Proof.
  assert (wfBoard emptyBoard) as Hwf.
  { split; [ reflexivity | repeat constructor ]. }
  destruct (placePiece_spec emptyBoard T0m 18 3 3 Hwf) as (_ & Hcell & _).
  split.
  - rewrite Hcell by (unfold BOARD_H, BOARD_W; lia). reflexivity.
  - rewrite Hcell by (unfold BOARD_H, BOARD_W; lia). reflexivity.
Defined.


(** ** Heights, holes and blocks *)

Lemma holes_cells_found (b : Board) (c : Z) (rows : list Z) (h n : Z) :
  snd (fold_left (fun '(blockFound, h) r =>
         if negb (cell b r c =? 0) then (true, h)
         else if blockFound then (blockFound, h + 1) else (blockFound, h))
       rows (true, h))
  + fold_left (fun n r => n + (if cell b r c =? 0 then 0 else 1)) rows n
  = h + n + Z.of_nat (length rows).
Proof.
  revert h n. induction rows as [| r rows IH]; intros h n.
  - cbn. lia.
  - cbn [fold_left length]. destruct (cell b r c =? 0); cbn [negb]; rewrite IH; lia.
Qed.

Lemma holes_cells_scan (b : Board) (c : Z) (len k : nat) (h n : Z) :
  (k + len = Z.to_nat BOARD_H)%nat ->
  snd (fold_left (fun '(blockFound, h) r =>
         if negb (cell b r c =? 0) then (true, h)
         else if blockFound then (blockFound, h + 1) else (blockFound, h))
       (map Z.of_nat (seq k len)) (false, h))
  + fold_left (fun n r => n + (if cell b r c =? 0 then 0 else 1))
      (map Z.of_nat (seq k len)) n
  = h + n + columnScan (map Z.of_nat (seq k len)) b c.
Proof.
  revert k h n. induction len as [| len IH]; intros k h n Hk.
  - cbn. lia.
  - cbn [seq map fold_left columnScan].
    destruct (cell b (Z.of_nat k) c =? 0); cbn [negb].
    + rewrite IH by lia. lia.
    + rewrite holes_cells_found. rewrite length_map, length_seq.
      unfold BOARD_H in *. lia.
Qed.

Lemma columnCells_holes (b : Board) (c : Z) :
  columnCells b c + holesInColumn b c = columnHeight b c.
Proof.
  unfold columnCells, holesInColumn, columnHeight, rowIdx.
  pose proof (holes_cells_scan b c (Z.to_nat BOARD_H) 0 0 0 eq_refl) as H.
  lia.
Qed.

Lemma fold_sum_add {B : Type} (f g : B -> Z) (l : list B) (a0 b0 : Z) :
  fold_left (fun s v => s + f v) l a0 + fold_left (fun s v => s + g v) l b0
  = fold_left (fun s v => s + (f v + g v)) l (a0 + b0).
Proof.
  revert a0 b0. induction l as [| v l IH]; intros a0 b0; [ reflexivity | ].
  cbn [fold_left]. rewrite IH. f_equal. lia.
Qed.

(** X6. In every column the occupied cells and the holes together make up
    the column height, so over the board the number of blocks plus [holes]
    equals [aggregateHeight]. *)
Theorem heights_account (b : Board) :
  (forall c, columnCells b c + holesInColumn b c = columnHeight b c)
  /\ boardCells b + holes b = aggregateHeight b.
Proof.
  split; [ intros c; apply columnCells_holes | ].
  unfold boardCells, holes, aggregateHeight.
  rewrite fold_sum_add. apply fold_left_ext_in. intros s c _.
  now rewrite columnCells_holes.
Qed.

(** ** Line clearing: what is left and what is taken *)

Lemma fold_sum_start {B : Type} (f : B -> Z) (l : list B) (a0 : Z) :
  fold_left (fun s v => s + f v) l a0 = a0 + fold_left (fun s v => s + f v) l 0.
Proof.
  revert a0. induction l as [| v l IH]; intros a0; cbn [fold_left]; [ lia | ].
  rewrite (IH (a0 + f v)), (IH (0 + f v)). lia.
Qed.

Lemma fold_sum_app {B : Type} (f : B -> Z) (l1 l2 : list B) :
  fold_left (fun s v => s + f v) (l1 ++ l2) 0
  = fold_left (fun s v => s + f v) l1 0 + fold_left (fun s v => s + f v) l2 0.
Proof. rewrite fold_left_app. apply fold_sum_start. Qed.

Lemma fold_sum_map {A B : Type} (h : A -> B) (f : B -> Z) (l : list A) (a0 : Z) :
  fold_left (fun s v => s + f v) (map h l) a0
  = fold_left (fun s v => s + f (h v)) l a0.
Proof.
  revert a0. induction l as [| v l IH]; intros a0; [ reflexivity | ].
  cbn [map fold_left]. apply IH.
Qed.

Lemma fold_sum_swap {A B : Type} (F : A -> B -> Z) (rows : list A) (cols : list B) :
  fold_left (fun s c => s + fold_left (fun n r => n + F r c) rows 0) cols 0
  = fold_left (fun s r => s + fold_left (fun n c => n + F r c) cols 0) rows 0.
Proof.
  induction rows as [| r rows IH].
  - cbn [fold_left]. induction cols as [| c cols IHc]; [ reflexivity | ].
    cbn [fold_left]. exact IHc.
  - cbn [fold_left]. rewrite (fold_sum_start _ rows (0 + _)), <- IH.
    replace (0 + fold_left (fun n c => n + F r c) cols 0)
      with (fold_left (fun n c => n + F r c) cols 0) by lia.
    rewrite fold_sum_add. cbn [Z.add]. apply fold_left_ext_in. intros s c _.
    rewrite (fold_sum_start _ rows (0 + F r c)). lia.
Qed.

Lemma fold_sum_nth (G : list Z -> Z) (l : Board) (k : nat) (pre : Board) :
  length pre = k ->
  fold_left (fun s i => s + G (nth i (pre ++ l) [])) (seq k (length l)) 0
  = fold_left (fun s row => s + G row) l 0.
Proof.
  revert k pre. induction l as [| row l IH]; intros k pre Hk; [ reflexivity | ].
  cbn [length seq fold_left].
  rewrite (fold_sum_start _ (seq (S k) (length l))), (fold_sum_start _ l (0 + G row)).
  rewrite app_nth2 by lia. replace (k - length pre)%nat with 0%nat by lia.
  cbn [nth]. f_equal.
  replace (pre ++ row :: l) with ((pre ++ [row]) ++ l) by now rewrite <- app_assoc.
  apply IH. rewrite length_app. cbn. lia.
Qed.

(** The blocks of a board of the game's shape, counted row by row. *)
Lemma boardCells_rows (b : Board) :
  length b = Z.to_nat BOARD_H ->
  boardCells b = fold_left (fun s row => s + rowCells row) b 0.
Proof.
  intros Hlen. unfold boardCells, columnCells.
  rewrite (fold_sum_swap (fun r c => if cell b r c =? 0 then 0 else 1) rowIdx colIdx).
  unfold rowIdx. rewrite fold_sum_map. rewrite <- Hlen.
  rewrite <- (fold_sum_nth rowCells b 0 [] eq_refl). cbn [app].
  apply fold_left_ext_in. intros s i _. unfold rowCells, cell.
  now rewrite Nat2Z.id.
Qed.

Lemma rowCells_full (row : list Z) : rowFull row = true -> rowCells row = BOARD_W.
Proof.
  unfold rowFull, rowCells, colIdx. intros H. rewrite forallb_forall in H.
  rewrite fold_sum_map.
  assert (forall l a0, (forall c, In c l -> In c (seq 0 (Z.to_nat BOARD_W))) ->
            fold_left (fun n c => n + (if nth (Z.to_nat (Z.of_nat c)) row 0 =? 0
                                       then 0 else 1)) l a0
            = a0 + Z.of_nat (length l)) as Hgen.
  { induction l as [| c l IH]; intros a0 Hin; cbn [fold_left length]; [ lia | ].
    rewrite IH by (intros c' Hc'; apply Hin; now right).
    rewrite Nat2Z.id. specialize (H c (Hin c (or_introl eq_refl))).
    apply negb_true_iff in H. rewrite H. lia. }
  rewrite Hgen by auto. rewrite length_seq. unfold BOARD_W. lia.
Qed.

Lemma rowCells_empty : rowCells emptyRow = 0.
Proof. reflexivity. Qed.

Lemma rows_kept_full (b : Board) :
  fold_left (fun s row => s + rowCells row) b 0
  = fold_left (fun s row => s + rowCells row) (keptRows b) 0
    + BOARD_W * Z.of_nat (fullRows b).
Proof.
  unfold keptRows, fullRows. induction b as [| row b IH]; [ reflexivity | ].
  cbn [fold_left List.filter].
  rewrite (fold_sum_start _ b (0 + rowCells row)), IH.
  destruct (rowFull row) eqn:E; cbn [negb length fold_left].
  - rewrite (rowCells_full row E). unfold BOARD_W. lia.
  - rewrite (fold_sum_start _ _ (0 + rowCells row)). lia.
Qed.

Lemma rows_compacted (b : Board) :
  fold_left (fun s row => s + rowCells row) (compacted b) 0
  = fold_left (fun s row => s + rowCells row) (keptRows b) 0.
Proof.
  unfold compacted. rewrite fold_sum_app.
  assert (forall n, fold_left (fun s row => s + rowCells row)
                      (replicate n emptyRow) 0 = 0) as Hz.
  { induction n as [| n IH]; [ reflexivity | ].
    cbn [replicate fold_left]. rewrite rowCells_empty. exact IH. }
  rewrite Hz. lia.
Qed.

Lemma noFullRows_compacted (b : Board) : noFullRows b -> compacted b = b.
Proof.
  intros H. apply noFull_rows in H as (H0 & Hk).
  unfold compacted. now rewrite H0, Hk.
Qed.

(** X7. On a board of the game's shape [clearLines] returns a count between
    0 and [BOARD_H] and leaves a board of the same shape with no full row, on
    which a second call returns 0 and changes nothing; the call removes
    exactly [BOARD_W] blocks for every line it counts. *)
Theorem clearLines_clean (b : Board) :
  wfBoard b ->
  exists n b',
    clearLines b = Some (n, b')
    /\ 0 <= n <= BOARD_H
    /\ wfBoard b' /\ noFullRows b'
    /\ clearLines b' = Some (0, b')
    /\ boardCells b' = boardCells b - BOARD_W * n.
Proof.
  intros Hwf. exists (Z.of_nat (fullRows b)), (compacted b).
  pose proof (compacted_wf b Hwf) as Hwf'.
  pose proof (compacted_noFull b) as Hnf.
  split; [ now apply clearLines_total | ].
  split.
  { pose proof (fullRows_le b). destruct Hwf as (Hlen & _).
    rewrite Hlen in *. unfold BOARD_H in *. lia. }
  split; [ exact Hwf' | split; [ exact Hnf | split ] ].
  - rewrite clearLines_total by exact Hwf'.
    rewrite (noFullRows_compacted _ Hnf).
    now rewrite (proj1 (noFull_rows _ Hnf)).
  - rewrite (boardCells_rows (compacted b)) by apply Hwf'.
    rewrite (boardCells_rows b) by apply Hwf.
    rewrite rows_compacted, (rows_kept_full b). lia.
Qed.

(** A board with the bottom row full and one block above it. *)
Lemma clearLines_clean_witness :
  exists n b',
    clearLines (<[19%nat := replicate 10 7]> (setCell emptyBoard 18 4 3))
    = Some (n, b')
    /\ 0 <= n <= BOARD_H
    /\ wfBoard b' /\ noFullRows b'
    /\ clearLines b' = Some (0, b')
    /\ boardCells b'
       = boardCells (<[19%nat := replicate 10 7]> (setCell emptyBoard 18 4 3))
         - BOARD_W * n.
Proof.
  apply clearLines_clean.
  split; [ reflexivity | repeat constructor ].
Defined.

(** ** A placement completes at most four rows *)

Lemma placePiece_invariant (P : Board -> Prop) (b : Board) (shape : Matrix4)
    (topR leftC color : Z) :
  P b ->
  (forall b2 i j, 0 <= i < 4 -> 0 <= j < 4 -> P b2 ->
     inBounds (topR + i) (leftC + j) = true ->
     P (setCell b2 (topR + i) (leftC + j) color)) ->
  P (placePiece b shape topR leftC color).
Proof.
  intros Hb Hstep. unfold placePiece.
  assert (forall rows, (forall i, In i rows -> 0 <= i < 4) ->
          forall b1, P b1 ->
          P (fold_left (fun b1 i =>
               fold_left (fun b2 j =>
                 if cell shape i j =? 0 then b2
                 else if inBounds (topR + i) (leftC + j)
                      then setCell b2 (topR + i) (leftC + j) color
                      else b2) idx4 b1) rows b1)) as Hrows.
  { induction rows as [| i rows IH]; intros Hin b1 Hb1; [ exact Hb1 | ].
    cbn [fold_left]. apply IH; [ intros i' Hi'; apply Hin; now right | ].
    assert (0 <= i < 4) as Hi by (apply Hin; now left).
    assert (forall cols, (forall j, In j cols -> 0 <= j < 4) ->
            forall b2, P b2 ->
            P (fold_left (fun b2 j =>
                 if cell shape i j =? 0 then b2
                 else if inBounds (topR + i) (leftC + j)
                      then setCell b2 (topR + i) (leftC + j) color
                      else b2) cols b2)) as Hcols.
    { induction cols as [| j cols IHc]; intros Hinc b2 Hb2; [ exact Hb2 | ].
      cbn [fold_left]. apply IHc; [ intros j' Hj'; apply Hinc; now right | ].
      assert (0 <= j < 4) as Hj by (apply Hinc; now left).
      destruct (cell shape i j =? 0); [ exact Hb2 | ].
      destruct (inBounds (topR + i) (leftC + j)) eqn:E; [ | exact Hb2 ].
      now apply Hstep. }
    apply Hcols; [ intros j Hj; now apply In_idx4 | exact Hb1 ]. }
  apply Hrows; [ intros i Hi; now apply In_idx4 | exact Hb ].
Qed.

(** Rows outside the four rows of the mask are not touched. *)
Lemma placePiece_rows (b : Board) (shape : Matrix4) (topR leftC color : Z) (k : nat) :
  ~ (topR <= Z.of_nat k < topR + 4) ->
  placePiece b shape topR leftC color !! k = b !! k.
Proof.
  intros Hk.
  apply (placePiece_invariant (fun b' => b' !! k = b !! k)); [ reflexivity | ].
  intros b2 i j Hi Hj Hb2 Hin. unfold setCell.
  unfold inBounds in Hin. rewrite !andb_true_iff, !Z.geb_le in Hin.
  rewrite list_lookup_insert_ne by lia. exact Hb2.
Qed.

Lemma placePiece_length (b : Board) (shape : Matrix4) (topR leftC color : Z) :
  length (placePiece b shape topR leftC color) = length b.
Proof.
  apply (placePiece_invariant (fun b' => length b' = length b)); [ reflexivity | ].
  intros b2 i j _ _ Hb2 _. unfold setCell. now rewrite length_insert.
Qed.

Lemma fullRows_window (l l' : Board) (lo : Z) :
  length l' = length l ->
  (forall k : nat, ~ (lo <= Z.of_nat k < lo + 4) -> l' !! k = l !! k) ->
  (fullRows l' <= fullRows l + Z.to_nat (Z.max 0 (Z.min 4 (lo + 4))))%nat.
Proof.
  revert l' lo. induction l as [| a l IH]; intros l' lo Hlen Hsame.
  - destruct l'; [ cbn; lia | discriminate ].
  - destruct l' as [| a' l']; [ discriminate | ].
    specialize (IH l' (lo - 1) ltac:(cbn in Hlen; lia)).
    assert (forall k : nat, ~ (lo - 1 <= Z.of_nat k < lo - 1 + 4) -> l' !! k = l !! k)
      as Htail.
    { intros k Hk. apply (Hsame (S k)). lia. }
    specialize (IH Htail). unfold fullRows in *. cbn [List.filter].
    destruct (Z_le_dec lo 0) as [Hlo | Hlo].
    + destruct (Z_lt_dec 0 (lo + 4)) as [Hhi | Hhi].
      * destruct (rowFull a'), (rowFull a); cbn [length]; lia.
      * assert (a' = a) as -> by (specialize (Hsame 0%nat ltac:(lia)); now injection Hsame).
        destruct (rowFull a); cbn [length]; lia.
    + assert (a' = a) as -> by (specialize (Hsame 0%nat ltac:(lia)); now injection Hsame).
      destruct (rowFull a); cbn [length]; lia.
Qed.

Lemma placePiece_fullRows (b : Board) (shape : Matrix4) (topR leftC color : Z) :
  (fullRows (placePiece b shape topR leftC color) <= fullRows b + 4)%nat.
Proof.
  pose proof (fullRows_window b (placePiece b shape topR leftC color) topR
                (placePiece_length b shape topR leftC color)
                (fun k Hk => placePiece_rows b shape topR leftC color k Hk)).
  lia.
Qed.

(** X8. After a piece is written to a board of the game's shape that has no
    full row, [clearLines] counts at most four lines, whatever the mask, the
    position and the colour; the same holds for the cells that [lockPiece]
    writes, so that its read of the five-entry scoring table is inside the
    table. *)
Theorem placement_clears_at_most_four (b : Board) :
  wfBoard b -> noFullRows b ->
  (forall shape topR leftC color,
      exists n b', clearLines (placePiece b shape topR leftC color) = Some (n, b')
                   /\ 0 <= n <= 4)
  /\ (forall c : Sim.Piece,
      exists n b', clearLines (Manual.lockCells b c) = Some (n, b')
                   /\ 0 <= n <= 4
                   /\ exists pts, Manual.pointsPer !! Z.to_nat n = Some pts).
Proof.
  intros Hwf Hnf.
  assert (forall shape topR leftC color,
      exists n b', clearLines (placePiece b shape topR leftC color) = Some (n, b')
                   /\ 0 <= n <= 4) as Hplace.
  { intros shape topR leftC color.
    exists (Z.of_nat (fullRows (placePiece b shape topR leftC color))),
           (compacted (placePiece b shape topR leftC color)).
    split; [ apply clearLines_total; now apply placePiece_wf | ].
    pose proof (placePiece_fullRows b shape topR leftC color).
    rewrite (proj1 (noFull_rows _ Hnf)) in *. lia. }
  split; [ exact Hplace | ].
  intros c. rewrite lockCells_mask.
  destruct (Hplace (maskOf (Sim.type c) (Sim.rotation c)) (Sim.y c) (Sim.x c)
              (Sim.type c + 1)) as (n & b' & Hc & Hn).
  exists n, b'. split; [ exact Hc | split; [ exact Hn | ] ].
  apply lookup_lt_is_Some_2. cbn. lia.
Qed.

(** The vertical I piece set on the floor of the empty board. *)
Lemma placement_clears_at_most_four_witness :
  exists n b',
    clearLines (placePiece emptyBoard (rotate90 I0) 16 0 1) = Some (n, b')
    /\ 0 <= n <= 4.
Proof.
  assert (wfBoard emptyBoard) as Hwf by (split; [ reflexivity | repeat constructor ]).
  assert (noFullRows emptyBoard) as Hnf by (repeat constructor).
  destruct (placement_clears_at_most_four emptyBoard Hwf Hnf) as (H & _).
  apply H.
Defined.

(** ** The two catalogs of the merged program *)

(** X17. The flat catalog of the manual mode and the vector of
    [makeTetrominoes] hold the same seven pieces in different orders: the
    piece of type id [t] of the flat catalog is entry [madeIndex t] of the
    vector, with colour [t + 1] (the value [lockPiece] writes) and with every
    rotation state equal, cell by cell, to what [pieceCell] shows for that
    rotation.  Entry [t] itself is that piece only for [t = 0] and [t = 6]:
    for the ids 1 to 5 the piece that [updateAI] takes from the vector is not
    the piece whose spawn position [spawnPiece] tests. *)
Theorem catalogs_correspond (t : Z) :
  0 <= t < 7 ->
  (exists piece,
      makeTetrominoes !! Z.to_nat (madeIndex t) = Some piece
      /\ colorId piece = t + 1
      /\ states piece <> []
      /\ forall (k : nat) shape i j,
           states piece !! k = Some shape -> 0 <= i < 4 -> 0 <= j < 4 ->
           cell shape i j = pieceCell t (Z.of_nat k) i j)
  /\ (madeIndex t = t <-> t = 0 \/ t = 6)
  /\ (forall piece shape,
        makeTetrominoes !! Z.to_nat t = Some piece ->
        states piece !! 0%nat = Some shape ->
        ((forall i j, 0 <= i < 4 -> 0 <= j < 4 -> cell shape i j = pieceCell t 0 i j)
         <-> t = 0 \/ t = 6)).
Proof.
  intros Ht.
  assert (t = 0 \/ t = 1 \/ t = 2 \/ t = 3 \/ t = 4 \/ t = 5 \/ t = 6) as Hc by lia.
  assert (forall (ty : Z) (piece : Tetromino),
            forallb (fun k =>
              forallb (fun i =>
                forallb (fun j =>
                  cell (nth k (states piece) []) i j =? pieceCell ty (Z.of_nat k) i j)
                  idx4) idx4) (seq 0 (length (states piece))) = true ->
            forall (k : nat) shape i j,
              states piece !! k = Some shape -> 0 <= i < 4 -> 0 <= j < 4 ->
              cell shape i j = pieceCell ty (Z.of_nat k) i j) as Hcheck.
  { intros ty piece Hall k shape i j Hk Hi Hj.
    rewrite forallb_forall in Hall.
    specialize (Hall k ltac:(apply in_seq; apply lookup_lt_Some in Hk; lia)).
    rewrite forallb_forall in Hall. specialize (Hall i (proj2 (In_idx4 i) Hi)).
    rewrite forallb_forall in Hall. specialize (Hall j (proj2 (In_idx4 j) Hj)).
    apply Z.eqb_eq in Hall. now rewrite (nth_lookup_Some _ _ _ _ Hk) in Hall. }
  split; [ | split ].
  - destruct Hc as [-> | [-> | [-> | [-> | [-> | [-> | ->]]]]]];
      (eexists; split; [ reflexivity | split; [ reflexivity | split;
         [ discriminate | apply Hcheck; vm_compute; reflexivity ] ] ]).
  - destruct Hc as [-> | [-> | [-> | [-> | [-> | [-> | ->]]]]]];
      vm_compute; split; intros H; try discriminate; auto;
      destruct H as [H | H]; discriminate.
  - intros piece shape Hp Hs.
    destruct Hc as [-> | [-> | [-> | [-> | [-> | [-> | ->]]]]]];
      injection Hp as <-; injection Hs as <-;
      (split;
       [ intros Hcells;
         first [ left; reflexivity | right; reflexivity
               | exfalso;
                 first [ specialize (Hcells 0 0 ltac:(lia) ltac:(lia))
                       | specialize (Hcells 0 0 ltac:(lia) ltac:(lia)) ];
                 revert Hcells; vm_compute; discriminate
               | exfalso; specialize (Hcells 0 1 ltac:(lia) ltac:(lia));
                 revert Hcells; vm_compute; discriminate
               | exfalso; specialize (Hcells 0 2 ltac:(lia) ltac:(lia));
                 revert Hcells; vm_compute; discriminate ]
       | intros [H | H]; try discriminate H;
         intros i j Hi Hj;
         destruct (range4 i Hi) as [-> | [-> | [-> | ->]]];
         destruct (range4 j Hj) as [-> | [-> | [-> | ->]]]; reflexivity ]).
Qed.

Lemma catalogs_correspond_witness :
  exists piece,
    makeTetrominoes !! Z.to_nat (madeIndex 1) = Some piece
    /\ colorId piece = 1 + 1
    /\ states piece <> []
    /\ forall (k : nat) shape i j,
         states piece !! k = Some shape -> 0 <= i < 4 -> 0 <= j < 4 ->
         cell shape i j = pieceCell 1 (Z.of_nat k) i j.
Proof.
  apply (proj1 (catalogs_correspond 1 ltac:(lia))).
Defined.

(** ** The bag and the spawn *)

Ltac game_fields :=
  cbn [Sim.setPaused Sim.setAiTimer Sim.setGameOver Sim.setBoard Sim.setCur
       Sim.setBag Sim.setCounters
       Manual.setGravityTimer Manual.setGravityDelay Manual.setInputTimer
       Manual.setLeftHeld Manual.setRightHeld Manual.setDownHeld
       Sim.gameOver Sim.aiTimer Sim.aiCooldown Sim.board Sim.tetrominoes Sim.cur
       Sim.bag Sim.score Sim.lines Sim.level Sim.paused Sim.mode
       Sim.gravityTimer Sim.gravityDelay Sim.inputDelay Sim.inputTimer
       Sim.leftHeld Sim.rightHeld Sim.downHeld
       Sim.type Sim.x Sim.y Sim.rotation] in *.

Lemma spawn_free_on_empty (t : Z) :
  0 <= t < 7 ->
  Sim.collidesPiece emptyBoard (Z.quot BOARD_W 2 - 2) 0 t 0 = false.
Proof.
  intros Ht.
  assert (t = 0 \/ t = 1 \/ t = 2 \/ t = 3 \/ t = 4 \/ t = 5 \/ t = 6) as Hc by lia.
  destruct Hc as [-> | [-> | [-> | [-> | [-> | [-> | ->]]]]]]; vm_compute; reflexivity.
Qed.

Section GameInvariant.
Context {Rng : Type} (shuffle : Rng -> list Z -> list Z * Rng).
(** [std::shuffle] reorders the elements of the range it is given. *)
Hypothesis shuffle_perm : forall g l, fst (shuffle g l) ≡ₚ l.

Lemma refill_ok (s : Randomizer.Bag Rng) : bagOk (Randomizer.refill shuffle s).
Proof.
  pose proof (refill_perm shuffle shuffle_perm s) as Hp. split.
  - rewrite Hp. unfold Randomizer.allTypes.
    repeat (apply NoDup_cons_2; [ rewrite ?elem_of_cons, elem_of_nil; lia | ]).
    apply NoDup_nil_2.
  - rewrite Hp. unfold Randomizer.allTypes. repeat constructor; lia.
Qed.

Lemma next_valid (s : Randomizer.Bag Rng) (t : Z) (s' : Randomizer.Bag Rng) :
  bagOk s -> Randomizer.next shuffle s = (t, s') ->
  0 <= t < 7 /\ bagOk s' /\ ~ In t (Randomizer.bag s').
Proof.
  assert (forall s0 : Randomizer.Bag Rng, bagOk s0 -> Randomizer.bag s0 <> [] ->
            Randomizer.next shuffle s0 = (t, s') ->
            0 <= t < 7 /\ bagOk s' /\ ~ In t (Randomizer.bag s')) as Hne.
  { intros [q g] (Hnd & Hall) Hq Hnext. cbn [Randomizer.bag] in *.
    destruct (exists_last Hq) as (l & v & ->).
    rewrite (next_snoc shuffle) in Hnext. injection Hnext as <- <-.
    cbn [Randomizer.bag].
    apply NoDup_app in Hnd as (Hl & Hdis & _).
    apply Forall_app in Hall as (Hall & Hv).
    apply Forall_cons in Hv as (Hv & _).
    split; [ exact Hv | split; [ split; assumption | ] ].
    intros Hin. apply list_elem_of_In in Hin. apply (Hdis _ Hin). now left. }
  intros Hok Hnext.
  destruct (Randomizer.bag s) as [| v q] eqn:Eq.
  - rewrite (next_empty shuffle shuffle_perm s Eq) in Hnext.
    apply (Hne (Randomizer.refill shuffle s)); [ apply refill_ok | | exact Hnext ].
    intros Hnil. pose proof (refill_perm shuffle shuffle_perm s) as Hp.
    rewrite Hnil in Hp. apply Permutation_nil in Hp. discriminate.
  - apply (Hne s); [ exact Hok | now rewrite Eq | exact Hnext ].
Qed.

(** X9. A new bag is in order, and from a bag in order [next] returns a
    piece id in 0..6 that is no longer in the queue, and leaves the bag in
    order: no id outside the catalog is ever drawn, and none twice from one
    filling. *)
Theorem bag_next_valid :
  (forall seed, bagOk (Randomizer.newBag shuffle seed))
  /\ (forall (s : Randomizer.Bag Rng) t s',
        bagOk s -> Randomizer.next shuffle s = (t, s') ->
        0 <= t < 7 /\ bagOk s' /\ ~ In t (Randomizer.bag s')).
Proof.
  split; [ intros seed; apply refill_ok | exact next_valid ].
Qed.

Lemma spawnPiece_ok (g : Sim.Game Rng) :
  stateOk g -> gameOk (Sim.spawnPiece shuffle g).
Proof.
  intros (Hwf & Hnf & Hcr & Hbag & Htet & Hsc & Hln & Hlv).
  destruct g. game_fields. unfold Sim.spawnPiece. game_fields.
  destruct (Randomizer.next shuffle bag) as [t bg] eqn:En.
  destruct (next_valid _ _ _ Hbag En) as (Ht & Hbg & _). game_fields.
  destruct (Sim.collidesPiece board (BOARD_W ÷ 2 - 2) 0 t 0) eqn:Ec;
    (split; [ unfold stateOk | unfold pieceOk ]; game_fields;
     repeat split; try assumption; try apply Hwf; try apply Hbg; try lia;
     try discriminate).
  intros _. exact Ec.
Qed.


Lemma newGame_invariant (gm : Sim.GameMode) (seed : Rng) :
  gameOk (Sim.newGame shuffle gm seed).
Proof.
  unfold Sim.newGame. apply spawnPiece_ok.
  unfold stateOk. game_fields.
  split; [ split; [ reflexivity | repeat constructor ] | ].
  split; [ repeat constructor | ].
  split; [ unfold emptyBoard, emptyRow; repeat constructor; lia | ].
  split; [ apply refill_ok | ].
  repeat split; (reflexivity || lia).
Qed.

(** X10. A new game, in either mode, satisfies the state invariant, is not
    over, has the empty board and a first piece at row 0, column
    [BOARD_W/2 - 2], in rotation 0: on the empty board the spawn position of
    no piece collides. *)
Theorem newGame_ok (gm : Sim.GameMode) (seed : Rng) :
  gameOk (Sim.newGame shuffle gm seed)
  /\ Sim.gameOver (Sim.newGame shuffle gm seed) = false
  /\ Sim.board (Sim.newGame shuffle gm seed) = emptyBoard
  /\ Sim.x (Sim.cur (Sim.newGame shuffle gm seed)) = 3
  /\ Sim.y (Sim.cur (Sim.newGame shuffle gm seed)) = 0
  /\ Sim.rotation (Sim.cur (Sim.newGame shuffle gm seed)) = 0.
Proof.
  split; [ apply newGame_invariant | ].
  unfold Sim.newGame, Sim.spawnPiece. game_fields.
  destruct (Randomizer.next shuffle (Randomizer.newBag shuffle seed)) as [t bg] eqn:En.
  destruct (next_valid _ _ _ (refill_ok _) En) as (Ht & _ & _). game_fields.
  rewrite (spawn_free_on_empty t Ht). game_fields. repeat split.
Qed.

(** ** The manual tick keeps the invariant *)








Lemma maskOf_occupied (ty rot : Z) :
  0 <= ty < 7 -> 0 <= rot < 4 -> exists i j, occupied (maskOf ty rot) i j.
Proof.
  intros Hty Hrot.
  assert (ty = 0 \/ ty = 1 \/ ty = 2 \/ ty = 3 \/ ty = 4 \/ ty = 5 \/ ty = 6)
    as Hc by lia.
  assert (forall m : Matrix4,
            negb (cell m 1 1 =? 0) || negb (cell m 1 2 =? 0)
            || negb (cell m 2 1 =? 0) || negb (cell m 2 2 =? 0) = true ->
            exists i j, occupied m i j) as Hcenter.
  { intros m H. rewrite !orb_true_iff, !negb_true_iff, !Z.eqb_neq in H.
    unfold occupied.
    destruct H as [[[H | H] | H] | H];
      [ exists 1, 1 | exists 1, 2 | exists 2, 1 | exists 2, 2 ];
      repeat split; (lia || exact H). }
  apply Hcenter.
  destruct (range4 rot Hrot) as [-> | [-> | [-> | ->]]];
    destruct Hc as [-> | [-> | [-> | [-> | [-> | [-> | ->]]]]]];
    vm_compute; reflexivity.
Qed.


Lemma hardDropLoop_total (fuel : nat) (g : Sim.Game Rng) :
  gameOk g -> (dropFuel <= fuel)%nat ->
  exists g1, Manual.hardDropLoop fuel g = Some g1.
Proof.
  intros (_ & Ht & Hr & Hy & _) Hfuel.
  destruct (maskOf_occupied _ _ Ht Hr) as (i & j & Hocc).
  destruct (dropLoop_stops fuel (Sim.board g) _ (Sim.x (Sim.cur g))
              (Sim.y (Sim.cur g)) i j Hocc) as (t & Hdrop).
  { unfold dropFuel, BOARD_H in Hfuel. lia. }
  { destruct Hocc as (Hi & _). unfold dropFuel, BOARD_H in *. lia. }
  rewrite <- hardDropLoop_dropLoop in Hdrop.
  destruct (Manual.hardDropLoop fuel g) as [g1 |]; [ eauto | discriminate ].
Qed.

Lemma cellsInRange_setCell (b : Board) (r c v : Z) :
  cellsInRange b -> 0 <= v <= 7 -> cellsInRange (setCell b r c v).
Proof.
  intros Hb Hv. unfold setCell, cellsInRange.
  destruct (decide (Z.to_nat r < length b)%nat) as [Hr | Hr].
  - apply Forall_insert; [ exact Hb | ].
    destruct (lookup_lt_is_Some_2 b (Z.to_nat r) Hr) as [row Hrow].
    rewrite (nth_lookup_Some _ _ _ _ Hrow).
    unfold cellsInRange in Hb. rewrite Forall_lookup in Hb.
    specialize (Hb _ _ Hrow).
    destruct (decide (Z.to_nat c < length row)%nat) as [Hc | Hc].
    + apply Forall_insert; assumption.
    + rewrite list_insert_ge by lia. exact Hb.
  - rewrite list_insert_ge by lia. exact Hb.
Qed.

Lemma cellsInRange_placePiece (b : Board) (shape : Matrix4) (topR leftC color : Z) :
  cellsInRange b -> 0 <= color <= 7 ->
  cellsInRange (placePiece b shape topR leftC color).
Proof.
  intros Hb Hc. apply placePiece_invariant; [ exact Hb | ].
  intros b2 i j _ _ Hb2 _. now apply cellsInRange_setCell.
Qed.

Lemma cellsInRange_compacted (b : Board) : cellsInRange b -> cellsInRange (compacted b).
Proof.
  intros Hb. unfold compacted, cellsInRange. apply Forall_app. split.
  - apply Forall_forall. intros row Hin. apply elem_of_replicate in Hin as (-> & _).
    unfold emptyRow. apply Forall_forall. intros v Hv.
    apply elem_of_replicate in Hv as (-> & _). lia.
  - unfold keptRows. induction Hb as [| row rest Hrow _ IH]; cbn [List.filter];
      [ constructor | ].
    destruct (rowFull row); cbn [negb]; [ exact IH | now constructor ].
Qed.

(** What a placement followed by [clearLines] leaves, for a board that
    satisfies the invariant. *)
Lemma place_clear (b : Board) (shape : Matrix4) (topR leftC color : Z) :
  wfBoard b -> noFullRows b -> cellsInRange b -> 0 <= color <= 7 ->
  exists n b',
    clearLines (placePiece b shape topR leftC color) = Some (n, b')
    /\ 0 <= n <= 4 /\ wfBoard b' /\ noFullRows b' /\ cellsInRange b'.
Proof.
  intros Hwf Hnf Hcr Hcol.
  exists (Z.of_nat (fullRows (placePiece b shape topR leftC color))),
         (compacted (placePiece b shape topR leftC color)).
  pose proof (placePiece_wf b shape topR leftC color Hwf) as Hwf'.
  split; [ now apply clearLines_total | ].
  split.
  { pose proof (placePiece_fullRows b shape topR leftC color).
    rewrite (proj1 (noFull_rows _ Hnf)) in *. lia. }
  split; [ now apply compacted_wf | ].
  split; [ apply compacted_noFull | ].
  apply cellsInRange_compacted. now apply cellsInRange_placePiece.
Qed.













(** ** The AI tick keeps the invariant and always places the piece *)

Lemma dropPosition_rests (fuel : nat) (b : Board) (shape : Matrix4) (leftC top : Z) :
  dropPosition fuel b shape leftC = Some top -> top <> INT_MIN ->
  collides b shape top leftC = false /\ collides b shape (top + 1) leftC = true.
Proof.
  unfold dropPosition. intros H Hne.
  destruct (dropLoop fuel b shape leftC (-4)) as [t |] eqn:E; [ | discriminate ].
  destruct (collides b shape t leftC) eqn:Ec; injection H as <-;
    [ contradiction | ].
  split; [ exact Ec | ]. now apply dropLoop_exit in E.
Qed.

Lemma best_is_candidate (fuel : nat) (board : Board) (piece : Tetromino) :
  wfBoard board -> candidates fuel board piece <> [] ->
  In (fold_left Search.update (candidates fuel board piece) Search.sentinel)
     (candidates fuel board piece)
  /\ SFltb (Search.score (fold_left Search.update (candidates fuel board piece)
                            Search.sentinel)) NO_MOVE_THRESHOLD = false.
Proof.
  intros Hwf Hne.
  pose proof (fold_update_firstMax (candidates fuel board piece) [Search.sentinel]
                Search.sentinel firstMax_start) as Hfm.
  cbn [app] in Hfm.
  destruct (candidates fuel board piece) as [| c0 rest] eqn:Ec; [ contradiction | ].
  assert (In c0 (candidates fuel board piece)) as Hc0 by (rewrite Ec; now left).
  destruct (candidate_scores fuel board piece c0 Hwf Hc0) as (Habove & _).
  rewrite <- Ec in *.
  assert (firstMax (fold_left Search.update (candidates fuel board piece)
                      Search.sentinel) (candidates fuel board piece)) as Hbest
    by (apply firstMax_drop_sentinel; eauto).
  destruct Hbest as (k & Hk & _).
  assert (In (fold_left Search.update (candidates fuel board piece)
                Search.sentinel) (candidates fuel board piece)) as Hin
    by (apply list_elem_of_In, list_elem_of_lookup; eauto).
  split; [ exact Hin | now apply (candidate_scores fuel board piece _ Hwf) ].
Qed.

Lemma catalog_lookup (cat : list Tetromino) (ty : Z) :
  cat = makeTetrominoes \/ cat = Classic.makeTetrominoes ->
  0 <= ty < 7 ->
  exists piece shape,
    cat !! Z.to_nat ty = Some piece
    /\ states piece !! 0%nat = Some shape
    /\ Forall (fun shape => exists i j, occupied shape i j) (states piece)
    /\ 1 <= colorId piece <= 7.
Proof.
  intros Hcat Hty.
  assert (forall shape : Matrix4,
            negb (cell shape 1 1 =? 0) || negb (cell shape 1 2 =? 0)
            || negb (cell shape 2 1 =? 0) || negb (cell shape 2 2 =? 0) = true ->
            exists i j, occupied shape i j) as Hcenter.
  { intros m H. rewrite !orb_true_iff, !negb_true_iff, !Z.eqb_neq in H.
    unfold occupied.
    destruct H as [[[H | H] | H] | H];
      [ exists 1, 1 | exists 1, 2 | exists 2, 1 | exists 2, 2 ];
      repeat split; (lia || exact H). }
  assert (forallb (fun p =>
            forallb (fun shape =>
              negb (cell shape 1 1 =? 0) || negb (cell shape 1 2 =? 0)
              || negb (cell shape 2 1 =? 0) || negb (cell shape 2 2 =? 0)) (states p)
            && (1 <=? colorId p) && (colorId p <=? 7)
            && negb (Nat.eqb (length (states p)) 0)) cat
          && Nat.eqb (length cat) 7 = true) as Hall
    by (destruct Hcat as [-> | ->]; vm_compute; reflexivity).
  apply andb_true_iff in Hall as (Hall & Hlen). apply Nat.eqb_eq in Hlen.
  rewrite forallb_forall in Hall.
  destruct (lookup_lt_is_Some_2 cat (Z.to_nat ty) ltac:(lia)) as [piece Hp].
  specialize (Hall piece ltac:(apply list_elem_of_In, list_elem_of_lookup; eauto)).
  rewrite !andb_true_iff, Z.leb_le, Z.leb_le, negb_true_iff, Nat.eqb_neq in Hall.
  destruct Hall as (((Hst & Hc1) & Hc2) & Hne).
  destruct (states piece) as [| shape rest] eqn:Es; [ contradiction | ].
  exists piece, shape. rewrite Es.
  split; [ exact Hp | split; [ reflexivity | split; [ | lia ] ] ].
  rewrite forallb_forall in Hst. apply Forall_forall. intros s Hs.
  apply Hcenter, Hst. now apply list_elem_of_In.
Qed.

(** The search on a board of the game's shape for a piece of a catalog. *)
Lemma search_places (fuel : nat) (board : Board) (piece : Tetromino)
    (shape0 : Matrix4) :
  wfBoard board -> (dropFuel <= fuel)%nat ->
  states piece !! 0%nat = Some shape0 ->
  Forall (fun shape => exists i j, occupied shape i j) (states piece) ->
  exists best (k : nat) shape top n b',
    foldOpt (Search.offsetLoop fuel board piece) (Search.indexed (states piece))
      Search.sentinel = Some best
    /\ In best (candidates fuel board piece)
    /\ SFltb (Search.score best) NO_MOVE_THRESHOLD = false
    /\ Search.rotationIndex best = Z.of_nat k
    /\ states piece !! k = Some shape
    /\ dropPosition fuel board shape (Search.leftC best) = Some top
    /\ top <> INT_MIN
    /\ clearLines (placePiece board shape top (Search.leftC best) (colorId piece))
       = Some (n, b').
Proof.
  intros Hwf Hfuel Hs0 Hocc.
  pose proof (findBestMove_fold fuel board [piece] 0 piece Hwf Hfuel ltac:(lia)
                eq_refl Hocc) as Hfold.
  unfold Search.findBestMove in Hfold.
  change (0 <? 0) with false in Hfold. cbv iota in Hfold.
  change ([piece] !! Z.to_nat 0) with (Some piece) in Hfold. cbv iota in Hfold.
  assert (candidates fuel board piece <> []) as Hne.
  { apply (candidates_nonempty fuel board piece shape0); try assumption.
    rewrite Forall_lookup in Hocc. exact (Hocc _ _ Hs0). }
  destruct (best_is_candidate fuel board piece Hwf Hne) as (Hin & Hsc).
  pose proof Hin as Hin'.
  apply In_candidates in Hin'
    as (k & shape & left & top & n & b3 & Hshape & _ & Hdrop & Htop & Hclear & Hbest).
  exists (fold_left Search.update (candidates fuel board piece) Search.sentinel),
    k, shape, top, n, b3.
  split; [ exact Hfold | split; [ exact Hin | split; [ exact Hsc | ] ] ].
  rewrite Hbest. cbn [Search.rotationIndex Search.leftC]. auto 10.
Qed.


(** The tick of a running AI game whose timer has reached the cooldown. *)
Lemma updateAI_fires (fuel : nat) (g : Sim.Game Rng) (dt : spec_float) :
  gameOk g -> (dropFuel <= fuel)%nat -> Sim.gameOver g = false ->
  SFleb (Sim.aiCooldown g) (Float32.add (Sim.aiTimer g) dt) = true ->
  exists piece best (k : nat) shape top n b',
    makeTetrominoes !! Z.to_nat (Sim.type (Sim.cur g)) = Some piece
    /\ In best (candidates fuel (Sim.board g) piece)
    /\ Search.rotationIndex best = Z.of_nat k
    /\ states piece !! k = Some shape
    /\ dropPosition fuel (Sim.board g) shape (Search.leftC best) = Some top
    /\ top <> INT_MIN
    /\ clearLines (placePiece (Sim.board g) shape top (Search.leftC best)
                     (colorId piece)) = Some (n, b')
    /\ 0 <= n <= 4 /\ wfBoard b' /\ noFullRows b' /\ cellsInRange b'
    /\ Sim.updateAI shuffle fuel g dt
       = Some (Sim.spawnPiece shuffle
                 (Sim.scoreCleared
                    (Sim.setBoard
                       (Sim.setAiTimer
                          (Sim.setAiTimer g (Float32.add (Sim.aiTimer g) dt))
                          (S754_zero false)) b') n)).
Proof.
  intros ((Hwf & Hnf & Hcr & Hbag & Htet & Hsc & Hln & Hlv) & Ht & _) Hfuel Hover Hfire.
  destruct (catalog_lookup makeTetrominoes (Sim.type (Sim.cur g)) (or_introl eq_refl) Ht)
    as (piece & shape0 & Hpiece & Hs0 & Hocc & Hcol).
  destruct (search_places fuel (Sim.board g) piece shape0 Hwf Hfuel Hs0 Hocc)
    as (best & k & shape & top & n & b' & Hfind & Hin & Hscore & Hrot & Hshape
        & Hdrop & Htop & Hclear).
  destruct (place_clear (Sim.board g) shape top (Search.leftC best) (colorId piece)
              Hwf Hnf Hcr ltac:(lia)) as (n' & b'' & Hclear' & Hn & Hwf' & Hnf' & Hcr').
  rewrite Hclear in Hclear'. injection Hclear' as <- <-.
  exists piece, best, k, shape, top, n, b'.
  repeat (split; [ assumption | ]).
  unfold Sim.updateAI. rewrite Hover. game_fields. rewrite Hfire.
  unfold Search.findBestMove. rewrite Htet.
  replace (Sim.type (Sim.cur g) <? 0) with false by (symmetry; apply Z.ltb_ge; lia).
  rewrite Hpiece, Hfind, Hscore, Hrot, Nat2Z.id, Hshape, Hdrop.
  apply Z.eqb_neq in Htop. rewrite Htop, Hclear. reflexivity.
Qed.



(** X13. When the timer of a running AI game reaches the cooldown, the
    tick always places the piece: the search returns a scored candidate, not
    the sentinel, the chosen rotation state exists and has a resting row at
    which it does not collide, and the result is the spawn of the next piece
    on the board after the placement and the line clearing.  Neither of the
    two [gameOver = true] statements of [updateAI] is reached: the game ends
    only when [spawnPiece] finds the spawn position blocked. *)
Theorem updateAI_always_places (fuel : nat) (g : Sim.Game Rng) (dt : spec_float) :
  gameOk g -> (dropFuel <= fuel)%nat -> Sim.gameOver g = false ->
  SFleb (Sim.aiCooldown g) (Float32.add (Sim.aiTimer g) dt) = true ->
  exists piece best shape top n b',
    makeTetrominoes !! Z.to_nat (Sim.type (Sim.cur g)) = Some piece
    /\ In best (candidates fuel (Sim.board g) piece)
    /\ SFltb (Search.score best) NO_MOVE_THRESHOLD = false
    /\ states piece !! Z.to_nat (Search.rotationIndex best) = Some shape
    /\ dropPosition fuel (Sim.board g) shape (Search.leftC best) = Some top
    /\ top <> INT_MIN
    /\ collides (Sim.board g) shape top (Search.leftC best) = false
    /\ clearLines (placePiece (Sim.board g) shape top (Search.leftC best)
                     (colorId piece)) = Some (n, b')
    /\ Sim.updateAI shuffle fuel g dt
       = Some (Sim.spawnPiece shuffle
                 (Sim.scoreCleared
                    (Sim.setBoard
                       (Sim.setAiTimer
                          (Sim.setAiTimer g (Float32.add (Sim.aiTimer g) dt))
                          (S754_zero false)) b') n))
    /\ forall g', Sim.updateAI shuffle fuel g dt = Some g' ->
         Sim.board g' = b'
         /\ (Sim.gameOver g' = true <->
             Sim.collidesPiece b' (Z.quot BOARD_W 2 - 2) 0 (Sim.type (Sim.cur g')) 0
             = true).
Proof.
  intros Hok Hfuel Hover Hfire.
  destruct (updateAI_fires fuel g dt Hok Hfuel Hover Hfire)
    as (piece & best & k & shape & top & n & b' & Hpiece & Hin & Hrot & Hshape
        & Hdrop & Htop & Hclear & _ & _ & _ & _ & Hres).
  exists piece, best, shape, top, n, b'.
  split; [ exact Hpiece | split; [ exact Hin | ] ].
  split; [ apply (candidate_scores fuel (Sim.board g) piece best); [ apply Hok | exact Hin ] | ].
  split; [ now rewrite Hrot, Nat2Z.id | ].
  split; [ exact Hdrop | split; [ exact Htop | ] ].
  split; [ now apply (dropPosition_rests fuel) | ].
  split; [ exact Hclear | split; [ exact Hres | ] ].
  intros g' Hg'. rewrite Hres in Hg'. injection Hg' as <-.
  match goal with
  | |- Sim.board (Sim.spawnPiece shuffle ?g1) = _ /\ _ =>
      assert (Sim.board g1 = b' /\ Sim.gameOver g1 = false) as (Hb1 & Ho1)
  end.
  { unfold Sim.scoreCleared. destruct (n >? 0); game_fields; auto. }
  match goal with
  | |- Sim.board (Sim.spawnPiece shuffle ?g1) = _ /\ _ =>
      generalize dependent g1
  end.
  intros g1 _ Hb1 Ho1. destruct g1. game_fields. subst.
  unfold Sim.spawnPiece. game_fields.
  destruct (Randomizer.next shuffle bag) as [t bg]. game_fields.
  destruct (Sim.collidesPiece b' (BOARD_W ÷ 2 - 2) 0 t 0) eqn:Ec; game_fields;
    rewrite ?Ec; split; try reflexivity; split; congruence.
Qed.

(** ** The AI-only program never ends the game *)

Lemma classic_init_ok (seed : Rng) :
  classicOk (Classic.init shuffle seed)
  /\ Classic.gameOver (Classic.init shuffle seed) = false.
Proof.
  unfold Classic.init.
  destruct (Randomizer.next shuffle (Randomizer.newBag shuffle seed)) as [t1 b1] eqn:E1.
  destruct (next_valid _ _ _ (refill_ok _) E1) as (Ht1 & Hb1 & _).
  destruct (Randomizer.next shuffle b1) as [t2 b2] eqn:E2.
  destruct (next_valid _ _ _ Hb1 E2) as (Ht2 & Hb2 & _).
  split; [ | reflexivity ].
  unfold classicOk. cbn.
  split; [ split; [ reflexivity | repeat constructor ] | ].
  split; [ repeat constructor | ].
  split; [ unfold emptyBoard, emptyRow; repeat constructor; lia | ].
  split; [ exact Hb2 | ].
  repeat split; (reflexivity || lia).
Qed.

Lemma classic_step_ok (fuel : nat) (s : Classic.State Rng) (dt : spec_float) :
  classicOk s -> (dropFuel <= fuel)%nat ->
  exists s',
    Classic.step shuffle fuel s dt = Some s'
    /\ classicOk s'
    /\ Classic.gameOver s' = Classic.gameOver s
    /\ Classic.score s <= Classic.score s'
    /\ Classic.totalLines s <= Classic.totalLines s' <= Classic.totalLines s + 4.
Proof.
  intros Hok Hfuel. pose proof Hok as
    (Hwf & Hnf & Hcr & Hbag & Htet & Hcur & Hnxt & Hsc & Hln).
  unfold Classic.step.
  destruct (Classic.gameOver s) eqn:Hover.
  { exists s. split; [ reflexivity | split; [ exact Hok | ] ].
    split; [ exact Hover | lia ]. }
  destruct (SFleb (Classic.aiCooldown s) (Double.add (Classic.aiTimer s) dt)).
  2:{ eexists. split; [ reflexivity | ].
      split; [ exact Hok | split; [ reflexivity | cbn; lia ] ]. }
  cbn [Classic.tetrominoes Classic.bag Classic.board Classic.currentType
       Classic.nextType Classic.gameOver Classic.score Classic.totalLines
       Classic.aiTimer Classic.aiCooldown].
  replace (Classic.currentType s <? 0) with false by (symmetry; apply Z.ltb_ge; lia).
  rewrite Htet.
  destruct (catalog_lookup Classic.makeTetrominoes (Classic.currentType s)
              (or_intror eq_refl) Hcur) as (piece & shape0 & Hpiece & Hs0 & Hocc & Hcol).
  rewrite Hpiece. unfold Classic.findBestMove.
  destruct (search_places fuel (Classic.board s) piece shape0 Hwf Hfuel Hs0 Hocc)
    as (best & k & shape & top & n & b' & Hfind & _ & Hscore & Hrot & Hshape
        & Hdrop & Htop & Hclear).
  rewrite Hfind, Hscore, Hrot, Nat2Z.id, Hshape, Hdrop.
  apply Z.eqb_neq in Htop. rewrite Htop, Hclear.
  destruct (place_clear (Classic.board s) shape top (Search.leftC best) (colorId piece)
              Hwf Hnf Hcr ltac:(lia)) as (n' & b'' & Hclear' & Hn & Hwf' & Hnf' & Hcr').
  rewrite Hclear in Hclear'. injection Hclear' as <- <-.
  unfold Classic.afterPlacement.
  cbn [Classic.tetrominoes Classic.bag Classic.board Classic.currentType
       Classic.nextType Classic.gameOver Classic.score Classic.totalLines
       Classic.aiTimer Classic.aiCooldown].
  destruct (Randomizer.next shuffle (Classic.bag s)) as [nxt bg] eqn:En.
  destruct (next_valid _ _ _ Hbag En) as (Hnx & Hbg & _).
  replace (Classic.nextType s <? 0) with false by (symmetry; apply Z.ltb_ge; lia).
  destruct (catalog_lookup Classic.makeTetrominoes (Classic.nextType s)
              (or_intror eq_refl) Hnxt) as (piece2 & spawn & Hpiece2 & Hsp & _ & _).
  rewrite Hpiece2, Hsp.
  change (BOARD_W ÷ 2 - 2) with 3.
  rewrite (collides_above b' spawn 3) by (unfold BOARD_W; lia).
  eexists. split; [ reflexivity | ].
  assert (0 <= (if n >? 0 then 100 * Z.shiftl 1 (n - 1) else 0)) as Hpts.
  { destruct (n >? 0) eqn:E; [ | lia ].
    rewrite Z.shiftl_1_l. assert (0 < 2 ^ (n - 1)) by (apply Z.pow_pos_nonneg; lia). lia. }
  unfold classicOk.
  cbn [Classic.tetrominoes Classic.bag Classic.board Classic.currentType
       Classic.nextType Classic.gameOver Classic.score Classic.totalLines
       Classic.aiTimer Classic.aiCooldown].
  destruct (n >? 0);
    repeat split; try assumption; try apply Hwf'; try apply Hbg; try lia.
Qed.

(** X14. The AI-only program never ends the game.  From the state before
    the first frame, every sequence of frames has a result in which
    [gameOver] is still false: the search always finds a placement (column 3
    is free four rows above the board), and the spawn test, made four rows
    above the board, never reports a collision.  Every frame keeps the board
    in shape and adds at most four lines. *)
Theorem classic_never_ends (seed : Rng) (dts : list spec_float) (fuel : nat) :
  (dropFuel <= fuel)%nat ->
  exists s,
    Classic.run shuffle fuel dts (Classic.init shuffle seed) = Some s
    /\ Classic.gameOver s = false
    /\ classicOk s
    /\ 0 <= Classic.totalLines s <= 4 * Z.of_nat (length dts).
Proof.
  intros Hfuel.
  destruct (classic_init_ok seed) as (Hok0 & Hover0).
  assert (Classic.totalLines (Classic.init shuffle seed) = 0) as Hl0.
  { unfold Classic.init.
    destruct (Randomizer.next shuffle (Randomizer.newBag shuffle seed)) as [t1 b1].
    destruct (Randomizer.next shuffle b1) as [t2 b2]. reflexivity. }
  assert (forall s0, classicOk s0 -> Classic.gameOver s0 = false ->
            exists s, Classic.run shuffle fuel dts s0 = Some s
                      /\ Classic.gameOver s = false /\ classicOk s
                      /\ Classic.totalLines s0 <= Classic.totalLines s
                         <= Classic.totalLines s0 + 4 * Z.of_nat (length dts)) as Hrun.
  { induction dts as [| dt rest IH]; intros s0 Hok Hover.
    - exists s0. cbn [Classic.run length].
      split; [ reflexivity | split; [ exact Hover | split; [ exact Hok | lia ] ] ].
    - cbn [Classic.run].
      destruct (classic_step_ok fuel s0 dt Hok Hfuel)
        as (s1 & -> & Hok1 & Hover1 & _ & Hl1).
      destruct (IH s1 Hok1 ltac:(congruence)) as (s & Hs & Hover' & Hok' & Hl).
      exists s. split; [ exact Hs | split; [ exact Hover' | split; [ exact Hok' | ] ] ].
      cbn [length]. lia. }
  destruct (Hrun _ Hok0 Hover0) as (s & Hs & Hover & Hok & Hl).
  exists s. split; [ exact Hs | split; [ exact Hover | split; [ exact Hok | ] ] ].
  destruct Hok as (_ & _ & _ & _ & _ & _ & _ & _ & Hln). lia.
Qed.

(** ** The hard drop *)

Lemma hardDropLoop_state (fuel : nat) (g g1 : Sim.Game Rng) :
  Manual.hardDropLoop fuel g = Some g1 ->
  g1 = Sim.setCur g
         (Sim.mkPiece (Sim.type (Sim.cur g)) (Sim.x (Sim.cur g)) (Sim.y (Sim.cur g1))
            (Sim.rotation (Sim.cur g))).
Proof.
  revert g. induction fuel as [| f IH]; intros g H; [ discriminate | ].
  cbn [Manual.hardDropLoop] in H. destruct (negb _).
  - apply IH in H. rewrite H at 1. destruct g. reflexivity.
  - injection H as <-. destruct g as [b [ty px py rot] ? ? ? ? ? ? ? ? ? ? ? ? ? ? ? ? ?].
    reflexivity.
Qed.

(** X15. The hard drop of a running game that satisfies the invariant ends
    (within [dropFuel] tests): the piece keeps its column, type and rotation
    and moves down to the lowest row it can reach without passing through a
    block, that is, every row from its own to the landing row is free and the
    row below the landing row is not; the landing row is on the board; and
    [hardDrop] locks the piece there. *)
Theorem hardDrop_lands (fuel : nat) (g : Sim.Game Rng) :
  gameOk g -> (dropFuel <= fuel)%nat -> Sim.gameOver g = false ->
  exists y1,
    Manual.hardDropLoop fuel g
    = Some (Sim.setCur g
              (Sim.mkPiece (Sim.type (Sim.cur g)) (Sim.x (Sim.cur g)) y1
                 (Sim.rotation (Sim.cur g))))
    /\ Sim.y (Sim.cur g) <= y1 < BOARD_H
    /\ (forall y', Sim.y (Sim.cur g) <= y' <= y1 ->
          Sim.collidesPiece (Sim.board g) (Sim.x (Sim.cur g)) y'
            (Sim.type (Sim.cur g)) (Sim.rotation (Sim.cur g)) = false)
    /\ Sim.collidesPiece (Sim.board g) (Sim.x (Sim.cur g)) (y1 + 1)
         (Sim.type (Sim.cur g)) (Sim.rotation (Sim.cur g)) = true
    /\ Manual.hardDrop shuffle fuel g
       = Manual.lockPiece shuffle
           (Sim.setCur g
              (Sim.mkPiece (Sim.type (Sim.cur g)) (Sim.x (Sim.cur g)) y1
                 (Sim.rotation (Sim.cur g)))).
Proof.
  intros Hok Hfuel Hover.
  destruct (hardDropLoop_total fuel g Hok Hfuel) as (g1 & Hloop).
  pose proof (hardDropLoop_state fuel g g1 Hloop) as Hg1.
  pose proof (hardDropLoop_dropLoop g fuel) as Hdrop. rewrite Hloop in Hdrop.
  cbn [option_map] in Hdrop. symmetry in Hdrop.
  destruct (dropLoop_exit _ _ _ _ _ _ Hdrop) as (Hle & Hbelow & Hbetween).
  destruct Hok as (_ & Ht & Hr & Hy & Hfree).
  specialize (Hfree Hover). rewrite collidesPiece_mask in Hfree.
  assert (forall y', Sim.y (Sim.cur g) <= y' <= Sim.y (Sim.cur g1) ->
            collides (Sim.board g)
              (maskOf (Sim.type (Sim.cur g)) (Sim.rotation (Sim.cur g))) y'
              (Sim.x (Sim.cur g)) = false) as Hpath.
  { intros y' Hy'. destruct (Z.eq_dec y' (Sim.y (Sim.cur g))) as [-> | Hne];
      [ exact Hfree | apply Hbetween; lia ]. }
  exists (Sim.y (Sim.cur g1)).
  split; [ now rewrite <- Hg1 | ].
  split.
  { split; [ exact Hle | ].
    destruct (maskOf_occupied _ _ Ht Hr) as (i & j & Hocc).
    pose proof (Hpath (Sim.y (Sim.cur g1)) ltac:(lia)) as Hlast.
    rewrite collides_false in Hlast. specialize (Hlast i j Hocc).
    destruct Hocc as (Hi & _). unfold hits in Hlast. lia. }
  split; [ intros y' Hy'; rewrite collidesPiece_mask; now apply Hpath | ].
  split; [ now rewrite collidesPiece_mask | ].
  unfold Manual.hardDrop. rewrite Hloop. now rewrite <- Hg1.
Qed.

(** ** Sessions *)


End GameInvariant.


Lemma reversingShuffle_perm (g : nat) (l : list Z) : fst (reversingShuffle g l) ≡ₚ l.
Proof. exact (Permutation_sym (Permutation_rev l)). Qed.

(** The first draw of a new bag under the reversing shuffle. *)
Lemma bag_next_valid_witness :
  0 <= 0 < 7
  /\ bagOk (Randomizer.mkBag [6; 5; 4; 3; 2; 1] 1%nat)
  /\ ~ In 0 [6; 5; 4; 3; 2; 1].
Proof.
  apply (proj2 (bag_next_valid reversingShuffle reversingShuffle_perm)
           (Randomizer.newBag reversingShuffle 0%nat) 0
           (Randomizer.mkBag [6; 5; 4; 3; 2; 1] 1%nat)).
  - apply (proj1 (bag_next_valid reversingShuffle reversingShuffle_perm)).
  - reflexivity.
Defined.

Lemma newGame_ok_witness :
  Sim.gameOver (Sim.newGame reversingShuffle Sim.MANUAL 0%nat) = false.
Proof.
  apply (newGame_ok reversingShuffle reversingShuffle_perm Sim.MANUAL 0%nat).
Defined.



Lemma updateAI_always_places_witness :
  exists piece best shape top n b',
    makeTetrominoes
      !! Z.to_nat (Sim.type (Sim.cur (Sim.newGame reversingShuffle Sim.AI 0%nat)))
    = Some piece
    /\ In best (candidates dropFuel emptyBoard piece)
    /\ states piece !! Z.to_nat (Search.rotationIndex best) = Some shape
    /\ dropPosition dropFuel emptyBoard shape (Search.leftC best) = Some top
    /\ collides emptyBoard shape top (Search.leftC best) = false
    /\ clearLines (placePiece emptyBoard shape top (Search.leftC best) (colorId piece))
       = Some (n, b')
    /\ forall g',
         Sim.updateAI reversingShuffle dropFuel
           (Sim.newGame reversingShuffle Sim.AI 0%nat) (Float32.of_int 2) = Some g' ->
         Sim.board g' = b'.
Proof.
  destruct (updateAI_always_places reversingShuffle dropFuel
              (Sim.newGame reversingShuffle Sim.AI 0%nat) (Float32.of_int 2)
              (newGame_invariant reversingShuffle reversingShuffle_perm Sim.AI 0%nat)
              (le_n dropFuel) eq_refl eq_refl)
    as (piece & best & shape & top & n & b' & H1 & H2 & _ & H4 & H5 & _ & H7 & H8
        & _ & H10).
  exists piece, best, shape, top, n, b'.
  repeat (split; [ assumption | ]).
  intros g' Hg'. exact (proj1 (H10 g' Hg')).
Defined.

(** Three frames of the AI-only program, two of which pass the cooldown. *)
Lemma classic_never_ends_witness :
  exists s,
    Classic.run reversingShuffle dropFuel
      [Double.of_int 2; Double.lit 5 1; Double.of_int 2]
      (Classic.init reversingShuffle 0%nat) = Some s
    /\ Classic.gameOver s = false.
Proof.
  destruct (classic_never_ends reversingShuffle reversingShuffle_perm 0%nat
              [Double.of_int 2; Double.lit 5 1; Double.of_int 2] dropFuel
              (le_n dropFuel)) as (s & Hs & Hover & _).
  exists s. split; assumption.
Defined.

(** The first piece of a new manual game, dropped from the spawn row. *)
Lemma hardDrop_lands_witness :
  exists y1,
    Manual.hardDropLoop dropFuel (Sim.newGame reversingShuffle Sim.MANUAL 0%nat)
    = Some (Sim.setCur (Sim.newGame reversingShuffle Sim.MANUAL 0%nat)
              (Sim.mkPiece 0 3 y1 0))
    /\ 0 <= y1 < BOARD_H.
Proof.
  destruct (hardDrop_lands reversingShuffle dropFuel
              (Sim.newGame reversingShuffle Sim.MANUAL 0%nat)
              (newGame_invariant reversingShuffle reversingShuffle_perm
                 Sim.MANUAL 0%nat)
              (le_n dropFuel) eq_refl) as (y1 & Hloop & Hy & _).
  exists y1. split; [ exact Hloop | exact Hy ].
Defined.

